(** * task_1.py: recursive move of files into per-extension buckets

    A shallow embedding of [copy_and_sort] and [main] of [src/task_1.py]
    together with the library primitives they call ([pathlib.Path.suffix],
    [Path.iterdir], [Path.mkdir], [shutil.move]), followed by the properties
    of the natural-language specification and by further properties of the
    code.

    Modelling choices.
    - A path is the list of its components below the file-system root; all
      paths are absolute and free of [.] and [..] segments.
    - The file system is a finite map from paths to nodes.  There are no
      symbolic links in the map; [Path.resolve] is a parameter of the
      environment.
    - File names are ASCII strings, on which [str.lower] maps [A-Z] to [a-z].
    - Failures raised by the operating system for reasons outside the map
      (permissions, I/O errors) are given by the environment, as functions of
      the current file system and of the path.
    - [shutil.move] of a regular file is atomic: it either renames the file
      or raises and leaves the file system as it was.
    - The recursion of [copy_and_sort] is driven by a fuel argument that
      counts nested activations: [None] is "recursion deeper than the fuel". *)

From Stdlib Require Import Ascii String ZArith Lia.
From stdpp Require Import gmap strings list fin_maps.

Open Scope string_scope.
Open Scope list_scope.

(** * The model *)

(** ** File names: [Path.suffix], [str.lower], [str.lstrip] *)

Module Names.

Local Open Scope Z_scope.

(** [s.rfind(c)]: index of the last occurrence of [c] in [s], or -1. *)
Fixpoint rfind_from (c : ascii) (s : string) (i : Z) : Z :=
  match s with
  | EmptyString => -1
  | String a s' =>
      let r := rfind_from c s' (i + 1) in
      if 0 <=? r then r else if Ascii.eqb a c then i else -1
  end.

Definition rfind (c : ascii) (s : string) : Z := rfind_from c s 0.

Definition len (s : string) : Z := Z.of_nat (String.length s).

(** [s[i:]] for a non-negative index [i]. *)
Fixpoint slice_from (i : nat) (s : string) : string :=
  match i, s with
  | O, _ => s
  | S i', String _ s' => slice_from i' s'
  | S _, EmptyString => EmptyString
  end.

(** [PurePath.suffix], as in the [pathlib] of CPython 3.12:
    [i = name.rfind('.')]; [name[i:]] if [0 < i < len(name) - 1], else ['']. *)
Definition suffix (name : string) : string :=
  let i := rfind "." name in
  if (0 <? i) && (i <? len name - 1) then slice_from (Z.to_nat i) name
  else "".

Definition lower_ascii (a : ascii) : ascii :=
  let n := nat_of_ascii a in
  if (Nat.leb 65 n && Nat.leb n 90)%bool then ascii_of_nat (n + 32) else a.

Fixpoint lower (s : string) : string :=
  match s with
  | EmptyString => EmptyString
  | String a s' => String (lower_ascii a) (lower s')
  end.

(** [s.lstrip(c)] for a one-character set. *)
Fixpoint lstrip (c : ascii) (s : string) : string :=
  match s with
  | EmptyString => EmptyString
  | String a s' => if Ascii.eqb a c then lstrip c s' else s
  end.

(** Lines 44-46 of [copy_and_sort]:
    [ext = item.suffix.lower().lstrip(".")], then [no_extension] if empty. *)
Definition bucket_name (name : string) : string :=
  let ext := lstrip "." (lower (suffix name)) in
  match ext with
  | EmptyString => "no_extension"
  | _ => ext
  end.

(** The extension in the words of the specification: the lowercased substring
    after the last [.] of the base name, dot excluded; empty if there is no
    [.].  Used only to compare with [bucket_name]. *)
Definition spec_extension (name : string) : string :=
  let i := rfind "." name in
  if i <? 0 then "" else lower (slice_from (Z.to_nat (i + 1)) name).

Definition spec_bucket (name : string) : string :=
  match spec_extension name with
  | EmptyString => "no_extension"
  | ext => ext
  end.

Fixpoint has_char (c : ascii) (s : string) : bool :=
  match s with
  | EmptyString => false
  | String a s' => Ascii.eqb a c || has_char c s'
  end.

End Names.

(** ** The file system *)

Abbreviation path := (list string).

Inductive node :=
| Dir
| File (data : string)
| Special.

Global Instance node_eq_dec : EqDecision node.
Proof. solve_decision. Defined.

(** The subclasses of [OSError] that the model raises itself, and [OSErrno]
    for those that only the environment raises.  [ShutilError] is
    [shutil.Error], which derives from [OSError]. *)
Inductive oserror :=
| FileNotFoundError
| NotADirectoryError
| FileExistsError
| IsADirectoryError
| PermissionError
| ShutilError
| OSErrno (errno : nat).

Global Instance oserror_eq_dec : EqDecision oserror.
Proof. solve_decision. Defined.

Inductive result (A : Type) :=
| Ok (a : A)
| Err (e : oserror).
Arguments Ok {A} a.
Arguments Err {A} e.

Abbreviation fsmap := (gmap path node).

Definition exists_ (fs : fsmap) (p : path) : bool :=
  match fs !! p with Some _ => true | None => false end.

Definition is_dir (fs : fsmap) (p : path) : bool :=
  match fs !! p with Some Dir => true | _ => false end.

Definition is_file (fs : fsmap) (p : path) : bool :=
  match fs !! p with Some (File _) => true | _ => false end.

(** [Path.parent] and [Path.name]. *)
Definition parent (p : path) : path := removelast p.
Definition name (p : path) : string := List.last p "".

Fixpoint strip_prefix (p q : path) : option path :=
  match p, q with
  | [], _ => Some q
  | a :: p', b :: q' => if decide (a = b) then strip_prefix p' q' else None
  | _ :: _, [] => None
  end.

Definition child_name (p q : path) : option string :=
  match strip_prefix p q with
  | Some [n] => Some n
  | _ => None
  end.

(** The names of the entries of directory [p]. *)
Definition children (fs : fsmap) (p : path) : list string :=
  omap (child_name p) (map_to_list fs).*1.

(** ** The environment *)

Record env := {
  (** [Path.resolve] *)
  resolve : path -> path;
  (** the order in which the operating system lists the entries of a
      directory *)
  list_order : path -> list string -> list string;
  (** failures of [os.listdir], [os.mkdir] and [shutil.move] that the map
      does not explain *)
  listdir_fault : fsmap -> path -> option oserror;
  mkdir_fault : fsmap -> path -> option oserror;
  move_fault : fsmap -> path -> path -> option oserror;
}.

(** ** Primitives *)

(** [os.listdir(p)]. *)
Definition listdir (E : env) (fs : fsmap) (p : path) : result (list string) :=
  match listdir_fault E fs p with
  | Some e => Err e
  | None =>
      match fs !! p with
      | None => Err FileNotFoundError
      | Some Dir => Ok (list_order E p (children fs p))
      | Some _ => Err NotADirectoryError
      end
  end.

(** [list(p.iterdir())]: the listing is taken once, before the loop body
    runs. *)
Definition iterdir (E : env) (fs : fsmap) (p : path) : result (list path) :=
  match listdir E fs p with
  | Ok names => Ok ((fun n => p ++ [n]) <$> names)
  | Err e => Err e
  end.

(** [os.mkdir(p)]. *)
Definition os_mkdir (E : env) (fs : fsmap) (p : path) : result fsmap :=
  match mkdir_fault E fs p with
  | Some e => Err e
  | None =>
      match fs !! parent p with
      | None => Err FileNotFoundError
      | Some Dir =>
          match fs !! p with
          | Some _ => Err FileExistsError
          | None => Ok (<[p := Dir]> fs)
          end
      | Some _ => Err NotADirectoryError
      end
  end.

(** [Path.mkdir(parents=False, exist_ok=True)]. *)
Definition mkdir_single (E : env) (p : path) (fs : fsmap)
  : fsmap * result unit :=
  match os_mkdir E fs p with
  | Ok fs' => (fs', Ok tt)
  | Err FileNotFoundError => (fs, Err FileNotFoundError)
  | Err e => if is_dir fs p then (fs, Ok tt) else (fs, Err e)
  end.

(** [Path.mkdir(parents=True, exist_ok=True)]; [n] bounds the climb to the
    root and is the number of components of [p]. *)
Fixpoint mkdir_parents (n : nat) (E : env) (p : path) (fs : fsmap)
  : fsmap * result unit :=
  match os_mkdir E fs p with
  | Ok fs' => (fs', Ok tt)
  | Err FileNotFoundError =>
      match n with
      | O => (fs, Err FileNotFoundError)
      | S n' =>
          if decide (parent p = p) then (fs, Err FileNotFoundError)
          else
            match mkdir_parents n' E (parent p) fs with
            | (fs1, Ok _) => mkdir_single E p fs1
            | (fs1, Err e) => (fs1, Err e)
            end
      end
  | Err e => if is_dir fs p then (fs, Ok tt) else (fs, Err e)
  end.

Definition mkdir (E : env) (p : path) (fs : fsmap) : fsmap * result unit :=
  mkdir_parents (length p) E p fs.

(** [os.rename(a, b)] for a source that is not a directory. *)
Definition os_rename (fs : fsmap) (a b : path) : result fsmap :=
  match fs !! a with
  | None => Err FileNotFoundError
  | Some Dir => Err IsADirectoryError
  | Some nd =>
      match fs !! parent b with
      | None => Err FileNotFoundError
      | Some Dir =>
          if is_dir fs b then Err IsADirectoryError
          else if decide (a = b) then Ok fs
          else Ok (<[b := nd]> (delete a fs))
      | Some _ => Err NotADirectoryError
      end
  end.

(** [shutil.move(src, dst)] for a source that is not a directory (the only
    call site is guarded by [item.is_file()]): a destination that is a
    directory receives the file under its own name, unless that name is
    taken. *)
Definition shutil_move (E : env) (src dst : path) (fs : fsmap)
  : result fsmap :=
  match move_fault E fs src dst with
  | Some e => Err e
  | None =>
      if is_dir fs dst then
        let real_dst := dst ++ [name src] in
        if exists_ fs real_dst then Err ShutilError
        else os_rename fs src real_dst
      else os_rename fs src dst
  end.

(** ** The world: file system, printed lines, and a ghost record of calls *)

Inductive message :=
| MoveError (item : path) (e : oserror)
| AccessError (dir : path) (e : oserror)
| SourceInvalid (src : path)
| DestinationUncreatable (dst : path) (e : oserror)
| Completed.

(** Ghost events: every activation of [copy_and_sort] and every call of
    [shutil.move]. *)
Inductive call :=
| Enter (dir : path)
| Move (item target : path).

Record world := World {
  w_fs : fsmap;
  w_out : list message;
  w_calls : list call;
}.

Definition set_fs (fs : fsmap) (w : world) : world :=
  World fs (w_out w) (w_calls w).
Definition print (m : message) (w : world) : world :=
  World (w_fs w) (w_out w ++ [m]) (w_calls w).
Definition record (c : call) (w : world) : world :=
  World (w_fs w) (w_out w) (w_calls w ++ [c]).

(** ** [copy_and_sort] *)

(** The body of the [for] loop (lines 39-56) for one entry.  [rec] is the
    recursive call.  The result is [None] when a nested call ran out of fuel;
    otherwise [Err e] when an [OSError] escaped the body to the enclosing
    [try], and [Ok] when the body ended normally (or by [continue]). *)
Definition loop_body (rec : path -> world -> option world) (E : env)
    (dst_root : path) (item : path) (w : world)
  : option (result unit * world) :=
  if is_dir (w_fs w) item then
    if decide (resolve E item = resolve E dst_root) then Some (Ok tt, w)
    else
      match rec item w with
      | None => None
      | Some w' => Some (Ok tt, w')
      end
  else if is_file (w_fs w) item then
    let ext := Names.bucket_name (name item) in
    let target_dir := dst_root ++ [ext] in
    match mkdir E target_dir (w_fs w) with
    | (fs1, Err e) => Some (Err e, set_fs fs1 w)
    | (fs1, Ok _) =>
        let target_file := target_dir ++ [name item] in
        let w1 := record (Move item target_file) (set_fs fs1 w) in
        match shutil_move E item target_file fs1 with
        | Ok fs2 => Some (Ok tt, set_fs fs2 w1)
        | Err e => Some (Ok tt, print (MoveError item e) w1)
        end
    end
  else Some (Ok tt, w).

(** The [for] loop over the entries still to be processed: an exception
    leaves the loop. *)
Fixpoint for_items (rec : path -> world -> option world) (E : env)
    (dst_root : path) (items : list path) (w : world)
  : option (result unit * world) :=
  match items with
  | [] => Some (Ok tt, w)
  | item :: rest =>
      match loop_body rec E dst_root item w with
      | None => None
      | Some (Err e, w') => Some (Err e, w')
      | Some (Ok _, w') => for_items rec E dst_root rest w'
      end
  end.

Fixpoint copy_and_sort (fuel : nat) (E : env) (src dst_root : path)
    (w : world) : option world :=
  match fuel with
  | O => None
  | S fuel' =>
      let w0 := record (Enter src) w in
      match iterdir E (w_fs w0) src with
      | Err e => Some (print (AccessError src e) w0)
      | Ok items =>
          match for_items (fun item => copy_and_sort fuel' E item dst_root)
                  E dst_root items w0 with
          | None => None
          | Some (Ok _, w') => Some w'
          | Some (Err e, w') => Some (print (AccessError src e) w')
          end
      end
  end.

(** ** [main] (lines 102-117), after argument parsing *)

Definition main (fuel : nat) (E : env) (source destination : path)
    (w : world) : option world :=
  let src := resolve E source in
  let dst := resolve E destination in
  if negb (exists_ (w_fs w) src) || negb (is_dir (w_fs w) src) then
    Some (print (SourceInvalid src) w)
  else
    match mkdir E dst (w_fs w) with
    | (fs1, Err e) => Some (print (DestinationUncreatable dst e) (set_fs fs1 w))
    | (fs1, Ok _) =>
        match copy_and_sort fuel E src dst (set_fs fs1 w) with
        | None => None
        | Some w' => Some (print Completed w')
        end
    end.

(** * Predicates and measures used in the statements *)

(** ** Paths *)

(** [p] is a proper ancestor of [q]. *)
Definition below (p q : path) : Prop := exists k, k <> [] /\ q = p ++ k.

Definition is_prefix (p q : path) : bool :=
  match strip_prefix p q with Some _ => true | None => false end.

Definition is_below (p q : path) : bool :=
  match strip_prefix p q with Some (_ :: _) => true | _ => false end.

(** Where [copy_and_sort] sends the file [s] (lines 48 and 51). *)
Definition target_of (dst s : path) : path :=
  dst ++ [Names.bucket_name (name s); name s].

(** ** The changes a walk makes to the map *)

(** [grows P fs fs']: [fs'] is [fs] with new, empty directories at paths that
    satisfy [P]. *)
Inductive grows (P : path -> Prop) : fsmap -> fsmap -> Prop :=
| grows_refl fs : grows P fs fs
| grows_step fs q fs' :
    fs !! q = None -> P q -> grows P (<[q := Dir]> fs) fs' -> grows P fs fs'.

(** [s] is at or below [p], and no directory on the way from [p] down to the
    parent of [s] is the destination root. *)
Definition src_of (dst p s : path) : Prop :=
  p `prefix_of` s /\ forall q, p `prefix_of` q -> below q s -> q <> dst.

(** The paths a walk of directory [p] may take files from. *)
Definition walked (dst p s : path) : Prop :=
  exists x, src_of dst (p ++ [x]) s.

(** The paths the loop over the entries [items] may take files from. *)
Definition under (dst : path) (items : list path) (s : path) : Prop :=
  exists item, item ∈ items /\ src_of dst item s.

(** One change of the map, on behalf of a regular file [s] allowed by [R]: a
    directory is created on the way to the bucket of [s], or [s] is renamed
    to its target (to an entry of that name inside the target, when the
    target is a directory). *)
Inductive fs_step (dst : path) (R : path -> Prop) : fsmap -> fsmap -> Prop :=
| fs_step_mkdir fs s q :
    R s -> is_file fs s = true ->
    fs !! q = None ->
    q `prefix_of` dst ++ [Names.bucket_name (name s)] ->
    fs_step dst R fs (<[q := Dir]> fs)
| fs_step_move fs s c t :
    R s -> fs !! s = Some (File c) ->
    is_dir fs t = false -> is_dir fs (parent t) = true ->
    (t = target_of dst s \/
     t = target_of dst s ++ [name s] /\ is_dir fs (target_of dst s) = true) ->
    s <> t ->
    fs_step dst R fs (<[t := File c]> (delete s fs)).

(** ** The calls of a walk *)

(** [q] is at or below [p], and every directory entry from the children of
    [p] down to [q] itself passed the comparison with the destination
    root. *)
Definition entered_ok (E : env) (dst p q : path) : Prop :=
  p `prefix_of` q /\
  forall r, below p r -> r `prefix_of` q -> resolve E r <> resolve E dst.

(** What a walk of [p] records: it enters directories that are [entered_ok],
    and it moves entries of such directories to their targets. *)
Definition call_ok (E : env) (dst p : path) (c : call) : Prop :=
  match c with
  | Enter q => entered_ok E dst p q
  | Move s t =>
      exists q x, s = q ++ [x] /\ entered_ok E dst p q /\
        t = dst ++ [Names.bucket_name x; x]
  end.

(** ** Depth and fuel *)

(** The directories of the map, and the length of the longest path of a
    directory. *)
Definition dirs (fs : fsmap) : list path :=
  omap (fun kv => match kv.2 with Dir => Some kv.1 | _ => None end)
       (map_to_list fs).

Definition max_dir_len (fs : fsmap) : nat := max_list (length <$> dirs fs).

(** A fuel that is enough for every walk of [p]: one more than the number of
    levels from [p] down to the deepest directory of the map, or to the
    buckets if they lie deeper. *)
Definition walk_fuel (fs : fsmap) (p dst : path) : nat :=
  S (max (max_dir_len fs) (length dst + 1) - length p).

(** The number of directory levels below [p]: the greatest number of
    components by which the path of a directory at or below [p] extends
    [p]. *)
Definition depth_below (fs : fsmap) (p : path) : nat :=
  max_list ((fun q => match strip_prefix p q with
                      | Some k => length k
                      | None => 0
                      end) <$> dirs fs).

(** The destination root and its ancestors are directories. *)
Definition dst_ready (dst : path) (fs : fsmap) : bool :=
  forallb (fun j => is_dir fs (take j dst)) (seq 0 (S (length dst))).

(** The directories of the current map are those of the initial map [fs0]
    and buckets; the destination root and its ancestors are directories. *)
Definition dirs_known (dst : path) (fs0 fs : fsmap) : Prop :=
  (forall r, r `prefix_of` dst -> is_dir fs r = true) /\
  (forall q, is_dir fs q = true ->
     is_dir fs0 q = true \/ exists e, q = dst ++ [e]).

(** ** Runs without failures *)

(** An environment in which no operation fails for reasons outside the map,
    a directory listing is a permutation of the entries, and distinct paths
    resolve to distinct paths. *)
Record calm (E : env) : Prop := Calm {
  calm_listdir : forall fs p, listdir_fault E fs p = None;
  calm_mkdir : forall fs p, mkdir_fault E fs p = None;
  calm_move : forall fs a b, move_fault E fs a b = None;
  calm_order : forall p l, list_order E p l ≡ₚ l;
  calm_resolve : forall p q, resolve E p = resolve E q -> p = q;
}.

(** The bucket of a file named [n] can be created (nothing but a directory
    is in its place) and the target of the file is not a directory. *)
Definition names_ok (dst : path) (fs : fsmap) (n : string) : Prop :=
  (fs !! (dst ++ [Names.bucket_name n]) = None \/
   is_dir fs (dst ++ [Names.bucket_name n]) = true) /\
  is_dir fs (dst ++ [Names.bucket_name n; n]) = false.

Definition names_okb (dst : path) (fs : fsmap) (n : string) : bool :=
  (negb (exists_ fs (dst ++ [Names.bucket_name n]))
   || is_dir fs (dst ++ [Names.bucket_name n]))
  && negb (is_dir fs (dst ++ [Names.bucket_name n; n])).

(** The destination root and its ancestors are directories, and [N] holds
    the names of the regular files below [src], all of which are
    [names_ok]. *)
Definition layout (N : string -> Prop) (src dst : path) (fs : fsmap) : Prop :=
  (forall r, r `prefix_of` dst -> is_dir fs r = true) /\
  (forall s, below src s -> is_file fs s = true -> N (name s)) /\
  (forall n, N n -> names_ok dst fs n).

(** The checkable form of [layout]: the destination root is ready, and every
    regular file below [src] is [names_okb]. *)
Definition sortable (src dst : path) (fs : fsmap) : bool :=
  dst_ready dst fs
  && forallb (fun kv =>
                match kv.2 with
                | File _ => negb (is_below src kv.1)
                            || names_okb dst fs (name kv.1)
                | _ => true
                end) (map_to_list fs).

(** [src], [src/rel1], [src/rel1/rel2], ... are directories. *)
Definition chain_dirs (src : path) (rel : list string) (fs : fsmap) : bool :=
  forallb (fun j => is_dir fs (src ++ take j rel)) (seq 0 (S (length rel))).

(** [h] holds the content [c], and no other regular file below [src] has the
    name [nm]. *)
Definition sole_holder (src : path) (nm c : string) (fs : fsmap) (h : path)
  : Prop :=
  fs !! h = Some (File c) /\
  forall s, below src s -> is_file fs s = true -> name s = nm -> s = h.

(** No regular file below [src] other than [q] has the name [nm]. *)
Definition unique_name (src : path) (nm : string) (q : path) (fs : fsmap)
  : bool :=
  forallb (fun kv =>
             match kv.2 with
             | File _ => negb (is_below src kv.1)
                         || negb (String.eqb (name kv.1) nm)
                         || bool_decide (kv.1 = q)
             | _ => true
             end) (map_to_list fs).

(** ** Concrete environments and maps *)

Module Examples.

(** An environment without symbolic links and without failures, listing
    directories in the order of the map. *)
Definition plain_env : env :=
  {| resolve := fun p => p;
     list_order := fun _ names => names;
     listdir_fault := fun _ _ => None;
     mkdir_fault := fun _ _ => None;
     move_fault := fun _ _ _ => None |}.

(** [plain_env] with [PermissionError] on listing the directories [locked],
    on creating the directories [uncreatable] and on moving the files
    [stuck]. *)
Definition faulty_env (locked uncreatable stuck : list path) : env :=
  {| resolve := fun p => p;
     list_order := fun _ names => names;
     listdir_fault := fun _ p =>
       if bool_decide (p ∈ locked) then Some PermissionError else None;
     mkdir_fault := fun _ p =>
       if bool_decide (p ∈ uncreatable) then Some PermissionError else None;
     move_fault := fun _ s _ =>
       if bool_decide (s ∈ stuck) then Some PermissionError else None |}.

(** Nothing printed and nothing recorded yet. *)
Definition start (fs : fsmap) : world := World fs [] [].

(** [/s] holds [a.txt], [b.md] and [sub/c.txt]; the destination [/out] is
    empty. *)
Definition small : fsmap :=
  list_to_map
    [ ([], Dir); (["s"], Dir); (["out"], Dir);
      (["s"; "a.txt"], File "1"); (["s"; "b.md"], File "2");
      (["s"; "sub"], Dir); (["s"; "sub"; "c.txt"], File "3") ].

(** [/d] holds [x/a.y] and [y/b.x]. *)
Definition crossed : fsmap :=
  list_to_map
    [ ([], Dir); (["d"], Dir); (["d"; "x"], Dir); (["d"; "y"], Dir);
      (["d"; "x"; "a.y"], File "1"); (["d"; "y"; "b.x"], File "2") ].

(** [/s] holds [a.TXT], [sub/c.md] and the destination [dist] with older
    files [dist/txt/old.txt] and [dist/keep/old.md]. *)
Definition nested : fsmap :=
  list_to_map
    [ ([], Dir); (["s"], Dir); (["s"; "dist"], Dir);
      (["s"; "dist"; "txt"], Dir);
      (["s"; "dist"; "txt"; "old.txt"], File "0");
      (["s"; "dist"; "keep"], Dir);
      (["s"; "dist"; "keep"; "old.md"], File "9");
      (["s"; "a.TXT"], File "1"); (["s"; "sub"], Dir);
      (["s"; "sub"; "c.md"], File "2") ].

(** [/s] holds [f.txt] and an empty directory [a]. *)
Definition shallow : fsmap :=
  list_to_map
    [ ([], Dir); (["s"], Dir); (["s"; "a"], Dir);
      (["s"; "f.txt"], File "1") ].

(** [/s] holds [a/x.txt] and [b/x.txt]; [/out] is empty. *)
Definition twins : fsmap :=
  list_to_map
    [ ([], Dir); (["s"], Dir); (["out"], Dir); (["s"; "a"], Dir);
      (["s"; "b"], Dir); (["s"; "a"; "x.txt"], File "1");
      (["s"; "b"; "x.txt"], File "2") ].

(** [/s] holds [a.txt] and [b.md]; [/out/txt] is a regular file. *)
Definition blocked : fsmap :=
  list_to_map
    [ ([], Dir); (["s"], Dir); (["out"], Dir); (["out"; "txt"], File "0");
      (["s"; "a.txt"], File "1"); (["s"; "b.md"], File "2") ].

(** [/s] holds [a.txt]; [/out/txt/a.txt] is a directory. *)
Definition dir_target : fsmap :=
  list_to_map
    [ ([], Dir); (["s"], Dir); (["out"], Dir); (["out"; "txt"], Dir);
      (["out"; "txt"; "a.txt"], Dir); (["s"; "a.txt"], File "1") ].

(** [/d] holds [a.txt], [README] and [sub/b.md]. *)
Definition flat : fsmap :=
  list_to_map
    [ ([], Dir); (["d"], Dir); (["d"; "a.txt"], File "1");
      (["d"; "README"], File "2"); (["d"; "sub"], Dir);
      (["d"; "sub"; "b.md"], File "3") ].

End Examples.

(** ** Predicates of the further properties *)

Definition came_from (dst : path) (R : path -> Prop) (fs0 : fsmap)
    (q : path) (c : string) : Prop :=
  fs0 !! q = Some (File c) \/
  (below dst q /\ exists s, R s /\ fs0 !! s = Some (File c) /\ name s = name q).

(** The directories that appear are on the way to the destination root, or
    buckets of regular files that [fs0] has in the region [R]. *)
Definition dir_came_from (dst : path) (R : path -> Prop) (fs0 : fsmap)
    (q : path) : Prop :=
  is_dir fs0 q = true \/ q `prefix_of` dst \/
  exists s c, R s /\ fs0 !! s = Some (File c) /\
    q = dst ++ [Names.bucket_name (name s)].

(** Nothing is at [base/rest1], [base/rest1/rest2], ... *)
Definition absent_below (base : path) (rest : list string) (fs : fsmap)
  : bool :=
  forallb (fun j => negb (exists_ fs (base ++ take j rest)))
          (seq 1 (length rest)).

(** [s] is its own target, and the directories down to its bucket exist. *)
Definition in_place (dst : path) (fs : fsmap) (s : path) : Prop :=
  s = target_of dst s /\ forall q, q `prefix_of` parent s -> is_dir fs q = true.

(** Every regular file below [src] is shielded by the destination root, which
    the walk of [src] does not enter, or is in place. *)
Definition settled (src dst : path) (fs : fsmap) : bool :=
  forallb (fun kv =>
             match kv.2 with
             | File _ => negb (is_below src kv.1)
                         || (is_below src dst && is_below dst kv.1)
                         || (bool_decide (kv.1 = target_of dst kv.1)
                             && dst_ready (parent kv.1) fs)
             | _ => true
             end) (map_to_list fs).

(** Every regular file below [src] is reached from [src] through
    directories. *)
Definition reachable (src : path) (fs : fsmap) : bool :=
  forallb (fun kv =>
             match kv.2 with
             | File _ => match strip_prefix src kv.1 with
                         | Some k => chain_dirs src (removelast k) fs
                         | None => true
                         end
             | _ => true
             end) (map_to_list fs).

(** The regular files of [fs] are those of [fs0], where they were, or files
    in place. *)
Definition old_or_placed (dst : path) (fs0 fs : fsmap) : Prop :=
  forall s c, fs !! s = Some (File c) ->
    fs0 !! s = Some (File c) \/
    (s = target_of dst s /\ is_dir fs (parent s) = true).

(** The regular files below [src] that have the name [nm] are among [qs]. *)
Definition name_held_by (src : path) (nm : string) (qs : list path)
    (fs : fsmap) : bool :=
  forallb (fun kv =>
             match kv.2 with
             | File _ => negb (is_below src kv.1)
                         || negb (String.eqb (name kv.1) nm)
                         || bool_decide (kv.1 ∈ qs)
             | _ => true
             end) (map_to_list fs).

(** Every entry of the map has a directory as its parent. *)
Definition well_formed (fs : fsmap) : bool :=
  forallb (fun kv => is_dir fs (parent kv.1)) (map_to_list fs).

(** No two regular files below [src] have the same name. *)
Definition distinct_names (src : path) (fs : fsmap) : bool :=
  forallb (fun kv =>
             match kv.2 with
             | File _ => negb (is_below src kv.1)
                         || unique_name src (name kv.1) kv.1 fs
             | _ => true
             end) (map_to_list fs).

(** How the entry at [q] of [fs] relates to the initial map [fs0]: it is as
    it was; or [q] was a regular file of the region [R], not at its target,
    and is gone; or [q] is the target of such a file and holds its content;
    or [q] is the bucket of such a file. *)
Definition explained (dst : path) (R : path -> Prop) (fs0 fs : fsmap)
    (q : path) : Prop :=
  fs !! q = fs0 !! q \/
  (exists c, R q /\ fs0 !! q = Some (File c) /\ q <> target_of dst q /\
     fs !! q = None) \/
  (exists s c, R s /\ fs0 !! s = Some (File c) /\ q = target_of dst s /\
     fs !! q = Some (File c)) \/
  (exists s c, R s /\ fs0 !! s = Some (File c) /\
     q = dst ++ [Names.bucket_name (name s)] /\ fs !! q = Some Dir).

(** Every regular file that [fs0] has in the region [R] has left its place,
    unless that is its target; its target holds its content; and its bucket
    is a directory. *)
Definition complete (dst : path) (R : path -> Prop) (fs0 fs : fsmap) : Prop :=
  forall s c, R s -> fs0 !! s = Some (File c) ->
    (s <> target_of dst s -> fs !! s = None) /\
    fs !! target_of dst s = Some (File c) /\
    fs !! (dst ++ [Names.bucket_name (name s)]) = Some Dir.

(** ** More environments and maps *)

Module Cases.

(** A calm environment that lists every directory backwards. *)
Definition reversed_env : env :=
  {| resolve := fun p => p;
     list_order := fun _ names => rev names;
     listdir_fault := fun _ _ => None;
     mkdir_fault := fun _ _ => None;
     move_fault := fun _ _ _ => None |}.

(** [/s] holds [a.txt]; [/out/txt/a.txt] is an older regular file. *)
Definition taken : fsmap :=
  list_to_map
    [ ([], Dir); (["s"], Dir); (["out"], Dir); (["out"; "txt"], Dir);
      (["out"; "txt"; "a.txt"], File "old"); (["s"; "a.txt"], File "new") ].

(** [/d] holds [txt/a.txt], [md/b.md] and an empty directory [empty]. *)
Definition sorted_tree : fsmap :=
  list_to_map
    [ ([], Dir); (["d"], Dir); (["d"; "txt"], Dir); (["d"; "md"], Dir);
      (["d"; "empty"], Dir); (["d"; "txt"; "a.txt"], File "1");
      (["d"; "md"; "b.md"], File "2") ].

End Cases.

(** * Lemmas *)

(** ** File names *)

Module NamesFacts.
Import Names.

Local Open Scope Z_scope.

Lemma rfind_from_range c s i :
  rfind_from c s i = -1 \/ (i <= rfind_from c s i < i + len s).
Proof.
  revert i. induction s as [|a s IH]; intros i; simpl; [by left|].
  unfold len in *. simpl String.length.
  destruct (IH (i + 1)) as [Hr|Hr].
  - rewrite Hr. simpl. destruct (Ascii.eqb a c); [right; lia | by left].
  - destruct (0 <=? rfind_from c s (i + 1)) eqn:Hle.
    + right. lia.
    + destruct (Ascii.eqb a c); [right; lia | by left].
Qed.

Lemma rfind_from_absent c s i :
  has_char c s = false -> rfind_from c s i = -1.
Proof.
  revert i. induction s as [|a s IH]; intros i Hs; simpl in *; [done|].
  apply orb_false_iff in Hs as [Ha Hs].
  rewrite (IH _ Hs), Ha. done.
Qed.

Lemma rfind_from_last c s1 s2 i :
  0 <= i -> has_char c s2 = false ->
  rfind_from c (s1 +:+ String c s2) i = i + len s1.
Proof.
  revert i. induction s1 as [|a s1 IH]; intros i Hi Hs; simpl.
  - rewrite (rfind_from_absent _ _ _ Hs). simpl.
    rewrite Ascii.eqb_refl. unfold len. simpl. lia.
  - rewrite IH by (lia || done).
    unfold len. simpl String.length.
    destruct (0 <=? i + 1 + Z.of_nat (String.length s1)) eqn:Hle; lia.
Qed.

Lemma slice_from_app s1 s2 :
  slice_from (String.length s1) (s1 +:+ s2) = s2.
Proof. induction s1 as [|a s1 IH]; simpl; [by destruct s2 | done]. Qed.

Lemma lower_ascii_dot a : lower_ascii a = "."%char -> a = "."%char.
Proof.
  destruct a as [[] [] [] [] [] [] [] []]; vm_compute; congruence.
Qed.

Lemma lower_no_dot s :
  has_char "." s = false -> has_char "." (lower s) = false.
Proof.
  induction s as [|a s IH]; simpl; [done|].
  intros [Ha Hs]%orb_false_iff. rewrite (IH Hs), orb_false_r.
  destruct (Ascii.eqb_spec (lower_ascii a) ".") as [Heq|]; [|done].
  apply lower_ascii_dot in Heq. subst a. done.
Qed.

Lemma lstrip_no_dot s : has_char "." s = false -> lstrip "." s = s.
Proof.
  destruct s as [|a s]; simpl; [done|].
  intros [Ha _]%orb_false_iff. by rewrite Ha.
Qed.

Lemma lower_empty s : lower s = "" -> s = "".
Proof. by destruct s. Qed.

Lemma suffix_no_dot s : has_char "." s = false -> suffix s = "".
Proof.
  intros Hs. unfold suffix, rfind. by rewrite (rfind_from_absent _ _ _ Hs).
Qed.

Lemma suffix_last_dot stem ext :
  has_char "." ext = false ->
  suffix (stem +:+ String "." ext) =
    match stem, ext with
    | EmptyString, _ | _, EmptyString => ""
    | _, _ => String "." ext
    end.
Proof.
  intros Hext. unfold suffix, rfind.
  rewrite rfind_from_last by (lia || done).
  assert (Hlen : len (stem +:+ String "." ext) = len stem + 1 + len ext).
  { unfold len. clear. induction stem as [|a s IH]; simpl String.length; lia. }
  rewrite Hlen. unfold len. rewrite Z.add_0_l, Nat2Z.id.
  destruct stem as [|a stem]; [by destruct ext|].
  destruct ext as [|b ext]; simpl String.length.
  - destruct (Z.ltb_spec 0 (Z.of_nat (S (String.length stem)))); [|lia].
    destruct (Z.ltb_spec (Z.of_nat (S (String.length stem)))
                (Z.of_nat (S (String.length stem)) + 1 + Z.of_nat 0 - 1));
      [lia|done].
  - destruct (Z.ltb_spec 0 (Z.of_nat (S (String.length stem)))); [|lia].
    destruct (Z.ltb_spec (Z.of_nat (S (String.length stem)))
                (Z.of_nat (S (String.length stem)) + 1
                 + Z.of_nat (S (String.length ext)) - 1)); [|lia].
    apply (slice_from_app (String a stem)).
Qed.

End NamesFacts.

Lemma bucket_name_split (stem ext : string) :
  Names.has_char "." ext = false ->
  Names.bucket_name ext = "no_extension" /\
  Names.bucket_name (stem +:+ String "." ext) =
    match stem, ext with
    | EmptyString, _ | _, EmptyString => "no_extension"
    | _, _ => Names.lower ext
    end.
Proof.
  intros Hext. unfold Names.bucket_name. split.
  - by rewrite NamesFacts.suffix_no_dot.
  - rewrite NamesFacts.suffix_last_dot by done.
    destruct stem as [|a stem]; [done|].
    destruct ext as [|b ext]; [done|].
    change (Names.lower (String "." (String b ext)))
      with (String "." (Names.lower (String b ext))).
    change (Names.lstrip "." (String "." ?s)) with (Names.lstrip "." s).
    rewrite NamesFacts.lstrip_no_dot by by apply NamesFacts.lower_no_dot.
    done.
Qed.

Lemma bucket_name_ext (stem ext : string) :
  stem <> "" -> ext <> "" -> Names.has_char "." ext = false ->
  Names.bucket_name (stem +:+ String "." ext) = Names.lower ext.
Proof.
  intros Hs He Hd. destruct (bucket_name_split stem ext Hd) as [_ ->].
  by destruct stem, ext.
Qed.

(** ** Paths and directory listings *)

Lemma strip_prefix_Some p q k : strip_prefix p q = Some k <-> q = p ++ k.
Proof.
  revert q. induction p as [|a p IH]; intros q; simpl.
  - split; congruence.
  - destruct q as [|b q]; [split; [done | intros; discriminate]|].
    destruct (decide (a = b)) as [->|Hne].
    + rewrite IH. split; [by intros -> | by intros [= ->]].
    + split; [done | intros [= ? ?]; done].
Qed.

Lemma child_name_Some p q n : child_name p q = Some n <-> q = p ++ [n].
Proof.
  unfold child_name. destruct (strip_prefix p q) as [k|] eqn:Hk.
  - apply strip_prefix_Some in Hk. subst q.
    destruct k as [|a [|b k]]; split; try done.
    + intros Heq. apply (f_equal length) in Heq.
      rewrite !length_app in Heq. simpl in Heq. lia.
    + by intros [= ->].
    + by intros [= ->]%app_inv_head.
    + intros Heq%app_inv_head. discriminate.
  - split; [done|]. intros ->.
    assert (strip_prefix p (p ++ [n]) = Some [n]) as Habs
      by by apply strip_prefix_Some.
    congruence.
Qed.

Lemma elem_of_children fs p n :
  n ∈ children fs p <-> is_Some (fs !! (p ++ [n])).
Proof.
  unfold children. rewrite list_elem_of_omap. split.
  - intros (q & Hq & Hn). apply child_name_Some in Hn. subst q.
    apply list_elem_of_fmap in Hq as ([q nd] & -> & Hq).
    apply elem_of_map_to_list in Hq. by exists nd.
  - intros [nd Hnd]. exists (p ++ [n]). split; [|by apply child_name_Some].
    apply list_elem_of_fmap. exists (p ++ [n], nd). split; [done|].
    by apply elem_of_map_to_list.
Qed.

Lemma NoDup_omap_inj {A B} (f : A -> option B) (l : list A) :
  (forall x y z, f x = Some z -> f y = Some z -> x = y) ->
  NoDup l -> NoDup (omap f l).
Proof.
  intros Hinj. induction 1 as [|x l Hx Hl IH]; simpl; [constructor|].
  destruct (f x) as [z|] eqn:Hz; [|done].
  constructor; [|done].
  intros (y & Hy & Hfy)%list_elem_of_omap.
  by rewrite (Hinj _ _ _ Hz Hfy) in Hx.
Qed.

Lemma NoDup_children fs p : NoDup (children fs p).
Proof.
  apply NoDup_omap_inj; [|apply NoDup_fst_map_to_list].
  intros x y z Hx%child_name_Some Hy%child_name_Some. congruence.
Qed.

(** ** What the primitives do to the map *)

Lemma is_dir_Some fs p : is_dir fs p = true <-> fs !! p = Some Dir.
Proof.
  unfold is_dir. destruct (fs !! p) as [[]|]; split; congruence.
Qed.

Lemma is_dir_false fs p : is_dir fs p = false <-> fs !! p <> Some Dir.
Proof.
  unfold is_dir. destruct (fs !! p) as [[]|]; split; congruence.
Qed.

Lemma is_file_Some fs p :
  is_file fs p = true <-> exists c, fs !! p = Some (File c).
Proof.
  unfold is_file. destruct (fs !! p) as [[]|]; split;
    try congruence; try (intros [? ?]; congruence). eauto.
Qed.

Lemma os_mkdir_Ok E fs p fs' :
  os_mkdir E fs p = Ok fs' ->
  fs !! p = None /\ is_dir fs (parent p) = true /\ fs' = <[p := Dir]> fs.
Proof.
  unfold os_mkdir, is_dir. destruct (mkdir_fault E fs p); [done|].
  destruct (fs !! parent p) as [[]|]; try done.
  destruct (fs !! p); [done|]. by intros [= <-].
Qed.

Lemma grows_one (P : path -> Prop) fs q :
  fs !! q = None -> P q -> grows P fs (<[q := Dir]> fs).
Proof. intros. eapply grows_step; eauto using grows_refl. Qed.

Lemma grows_trans P fs1 fs2 fs3 :
  grows P fs1 fs2 -> grows P fs2 fs3 -> grows P fs1 fs3.
Proof. induction 1; eauto using grows_step. Qed.

Lemma grows_mono (P Q : path -> Prop) fs fs' :
  (forall q, P q -> Q q) -> grows P fs fs' -> grows Q fs fs'.
Proof. intros HPQ. induction 1; eauto using grows_refl, grows_step. Qed.

Lemma grows_is_dir P fs fs' q :
  grows P fs fs' -> is_dir fs q = true -> is_dir fs' q = true.
Proof.
  induction 1 as [|fs q' fs' Hq' _ _ IH]; [done|].
  intros Hq. apply IH. apply is_dir_Some in Hq. apply is_dir_Some.
  rewrite lookup_insert_ne; [done | congruence].
Qed.

Lemma grows_lookup_Some P fs fs' q nd :
  grows P fs fs' -> fs !! q = Some nd -> fs' !! q = Some nd.
Proof.
  induction 1 as [|fs q' fs' Hq' _ _ IH]; [done|].
  intros Hq. apply IH. rewrite lookup_insert_ne; [done | congruence].
Qed.

Lemma mkdir_single_grows E p fs fs1 r :
  mkdir_single E p fs = (fs1, r) -> grows (fun q => q = p) fs fs1.
Proof.
  unfold mkdir_single. destruct (os_mkdir E fs p) as [fs'|e] eqn:Hmk.
  - intros [= <- <-]. apply os_mkdir_Ok in Hmk as (? & ? & ->).
    by apply grows_one.
  - destruct e, (is_dir fs p); intros [= <- <-]; apply grows_refl.
Qed.


Lemma parent_prefix p : parent p `prefix_of` p.
Proof.
  unfold parent. destruct (decide (p = [])) as [->|Hne]; [done|].
  exists [List.last p ""]. by apply app_removelast_last.
Qed.

Lemma mkdir_parents_grows n E p fs fs1 r :
  mkdir_parents n E p fs = (fs1, r) ->
  grows (fun q => q `prefix_of` p) fs fs1.
Proof.
  revert p fs fs1 r. induction n as [|n IH]; intros p fs fs1 r; simpl.
  - destruct (os_mkdir E fs p) as [fs'|e] eqn:Hmk.
    + intros [= <- <-]. apply os_mkdir_Ok in Hmk as (? & ? & ->).
      by apply grows_one.
    + destruct e, (is_dir fs p); intros [= <- <-]; apply grows_refl.
  - destruct (os_mkdir E fs p) as [fs'|e] eqn:Hmk.
    + intros [= <- <-]. apply os_mkdir_Ok in Hmk as (? & ? & ->).
      by apply grows_one.
    + destruct e; try (destruct (is_dir fs p); intros [= <- <-];
                       apply grows_refl).
      destruct (decide (parent p = p)); [intros [= <- <-]; apply grows_refl|].
      destruct (mkdir_parents n E (parent p) fs) as [fs2 [u|e]] eqn:Hrec.
      * intros Hs. eapply grows_trans.
        -- eapply grows_mono; [|by eapply IH].
           intros q Hq. simpl in Hq. trans (parent p); [done | apply parent_prefix].
        -- eapply grows_mono; [|by eapply mkdir_single_grows].
           by intros q ->.
      * intros [= <- <-]. eapply grows_mono; [|by eapply IH].
        intros q Hq. simpl in Hq. trans (parent p); [done | apply parent_prefix].
Qed.


Lemma mkdir_grows E p fs fs1 r :
  mkdir E p fs = (fs1, r) -> grows (fun q => q `prefix_of` p) fs fs1.
Proof. apply mkdir_parents_grows. Qed.


Lemma os_rename_Ok fs a b fs2 :
  os_rename fs a b = Ok fs2 ->
  exists nd, fs !! a = Some nd /\ nd <> Dir /\
    is_dir fs (parent b) = true /\ is_dir fs b = false /\
    (a = b /\ fs2 = fs \/ a <> b /\ fs2 = <[b := nd]> (delete a fs)).
Proof.
  unfold os_rename. destruct (fs !! a) as [nd|] eqn:Ha; [|done].
  assert (nd <> Dir ->
    match fs !! parent b with
    | Some Dir =>
        if is_dir fs b then Err IsADirectoryError
        else if decide (a = b) then Ok fs else Ok (<[b:=nd]> (delete a fs))
    | Some _ => Err NotADirectoryError
    | None => Err FileNotFoundError
    end = Ok fs2 ->
    exists nd0, Some nd = Some nd0 /\ nd0 <> Dir /\
      is_dir fs (parent b) = true /\ is_dir fs b = false /\
      (a = b /\ fs2 = fs \/ a <> b /\ fs2 = <[b := nd0]> (delete a fs)))
    as Hgen.
  { intros Hnd. destruct (fs !! parent b) as [[]|] eqn:Hp; try done.
    destruct (is_dir fs b) eqn:Hb; [done|].
    assert (is_dir fs (parent b) = true) by by apply is_dir_Some.
    destruct (decide (a = b)); intros [= <-]; exists nd; eauto 10. }
  destruct nd; [done | by apply Hgen | by apply Hgen].
Qed.

Lemma shutil_move_Ok E s t fs fs2 :
  shutil_move E s t fs = Ok fs2 ->
  exists nd t', fs !! s = Some nd /\ nd <> Dir /\
    (t' = t \/ t' = t ++ [name s]) /\
    is_dir fs (parent t') = true /\ is_dir fs t' = false /\
    (s = t' /\ fs2 = fs \/ s <> t' /\ fs2 = <[t' := nd]> (delete s fs)).
Proof.
  unfold shutil_move. destruct (move_fault E fs s t); [done|].
  destruct (is_dir fs t) eqn:Ht.
  - destruct (exists_ fs (t ++ [name s])); [done|].
    intros (nd & ? & ? & ? & ? & ?)%os_rename_Ok. exists nd, (t ++ [name s]).
    eauto 10.
  - intros (nd & ? & ? & ? & ? & ?)%os_rename_Ok. exists nd, t. eauto 10.
Qed.

(** ** Steps *)

Lemma fs_step_mono dst (R R' : path -> Prop) fs fs' :
  (forall s, R s -> R' s) -> fs_step dst R fs fs' -> fs_step dst R' fs fs'.
Proof. intros HR. destruct 1; econstructor; eauto. Qed.

Lemma fs_steps_mono dst (R R' : path -> Prop) fs fs' :
  (forall s, R s -> R' s) ->
  rtc (fs_step dst R) fs fs' -> rtc (fs_step dst R') fs fs'.
Proof.
  intros HR. induction 1; [done|].
  eapply rtc_l; [by eapply fs_step_mono | done].
Qed.

Lemma grows_steps dst (R : path -> Prop) s fs fs' :
  R s -> is_file fs s = true ->
  grows (fun q => q `prefix_of` dst ++ [Names.bucket_name (name s)]) fs fs' ->
  rtc (fs_step dst R) fs fs'.
Proof.
  intros HR Hs Hg. induction Hg as [|fs q fs' Hq HP _ IH]; [done|].
  eapply rtc_l; [by eapply fs_step_mkdir|]. apply IH.
  apply is_file_Some in Hs as [c Hc]. apply is_file_Some. exists c.
  rewrite lookup_insert_ne; [done | congruence].
Qed.

Lemma move_steps E dst (R : path -> Prop) item fs fs2 :
  is_file fs item = true -> R item ->
  shutil_move E item (target_of dst item) fs = Ok fs2 ->
  rtc (fs_step dst R) fs fs2.
Proof.
  intros [c Hc]%is_file_Some HR
    (nd & t' & Hnd & _ & Ht' & Hpar & Hdir & Hfs)%shutil_move_Ok.
  destruct Hfs as [[_ ->]|[Hne ->]]; [done|].
  rewrite Hc in Hnd. injection Hnd as <-.
  apply rtc_once. eapply fs_step_move; eauto.
  destruct Ht' as [->| ->]; [by left|]. right. split; [done|].
  destruct (is_dir fs (target_of dst item)) eqn:Ht; [done|].
  unfold parent in Hpar. rewrite removelast_last in Hpar. congruence.
Qed.

(** ** Ancestors *)

Lemma below_length p q : below p q -> length p < length q.
Proof.
  intros (k & Hk & ->). rewrite length_app.
  destruct k; [done | simpl; lia].
Qed.

Lemma below_prefix p q : below p q -> p `prefix_of` q.
Proof. intros (k & _ & ->). by exists k. Qed.

Lemma prefix_below p q : p `prefix_of` q -> p = q \/ below p q.
Proof.
  intros [k ->]. destruct k as [|a k].
  - left. by rewrite app_nil_r.
  - right. by exists (a :: k).
Qed.

Lemma below_child p x : below p (p ++ [x]).
Proof. by exists [x]. Qed.

Lemma below_trans_prefix p q s : below p q -> q `prefix_of` s -> below p s.
Proof.
  intros (k & Hk & ->) [k' ->]. exists (k ++ k'). split.
  - by destruct k.
  - by rewrite app_assoc.
Qed.

Lemma prefix_below_trans p q s : p `prefix_of` q -> below q s -> below p s.
Proof.
  intros [k ->] (k' & Hk' & ->). exists (k ++ k'). split.
  - by destruct k, k'.
  - by rewrite app_assoc.
Qed.

Lemma src_of_refl dst item : src_of dst item item.
Proof.
  split; [done|]. intros q Hq%prefix_length Hb%below_length. lia.
Qed.

Lemma child_prefix_between p y q s :
  below p q -> q `prefix_of` s -> p ++ [y] `prefix_of` s ->
  p ++ [y] `prefix_of` q.
Proof.
  intros (k1 & Hk1 & ->) [k2 ->] [k3 Hk3].
  rewrite <- !app_assoc in Hk3. apply app_inv_head in Hk3.
  destruct k1 as [|a k1]; [done|]. simpl in Hk3. injection Hk3 as -> _.
  exists k1. by rewrite <- app_assoc.
Qed.

Lemma walked_src_of dst item s :
  item <> dst -> walked dst item s -> src_of dst item s.
Proof.
  intros Hne [y [Hpre Havoid]]. split.
  - trans (item ++ [y]); [by exists [y] | done].
  - intros q Hq Hqs. destruct (prefix_below _ _ Hq) as [<-|Hb]; [done|].
    apply Havoid; [|done].
    exact (child_prefix_between item y q s Hb (below_prefix _ _ Hqs) Hpre).
Qed.

(** ** The loop *)

Lemma iterdir_Ok E fs p items :
  iterdir E fs p = Ok items ->
  is_dir fs p = true /\
  items = (fun n => p ++ [n]) <$> list_order E p (children fs p).
Proof.
  unfold iterdir, listdir, is_dir. destruct (listdir_fault E fs p); [done|].
  destruct (fs !! p) as [[]|]; try done. by intros [= <-].
Qed.

Section loop.
Context (rec : path -> world -> option world) (E : env) (dst : path).

Lemma for_items_app pre rest w :
  for_items rec E dst (pre ++ rest) w =
    match for_items rec E dst pre w with
    | Some (Ok _, w1) => for_items rec E dst rest w1
    | other => other
    end.
Proof.
  revert w. induction pre as [|item pre IH]; intros w; simpl; [done|].
  destruct (loop_body rec E dst item w) as [[[u|e] w1]|]; auto.
Qed.

(** Loop invariant, indexed by the entries already processed. *)
Lemma for_items_inv (P : list path -> world -> Prop) items w r w' :
  P [] w ->
  (forall pre item rest w1 r1 w2,
      items = pre ++ item :: rest -> P pre w1 ->
      loop_body rec E dst item w1 = Some (r1, w2) ->
      P (pre ++ [item]) w2) ->
  for_items rec E dst items w = Some (r, w') ->
  exists pre rest, items = pre ++ rest /\ P pre w' /\
    (r = Ok tt -> rest = []).
Proof.
  intros H0 Hstep.
  assert (forall todo pre w1,
    items = pre ++ todo -> P pre w1 ->
    for_items rec E dst todo w1 = Some (r, w') ->
    exists pre' rest, items = pre' ++ rest /\ P pre' w' /\
      (r = Ok tt -> rest = [])) as Hgen.
  { induction todo as [|item todo IH]; intros pre w1 Heq HP; simpl.
    - intros [= <- <-]. exists pre, []. done.
    - destruct (loop_body rec E dst item w1) as [[[u|e] w2]|] eqn:Hb;
        [| |done].
      + apply (IH (pre ++ [item])).
        * by rewrite <- app_assoc.
        * eapply Hstep; eauto.
      + intros [= <- <-]. exists (pre ++ [item]), todo.
        split; [by rewrite <- app_assoc|]. split; [|done].
        eapply Hstep; eauto. }
  by apply (Hgen items []).
Qed.

(** The loop returns when every body does. *)
Lemma for_items_total (P : list path -> world -> Prop) items w :
  P [] w ->
  (forall pre item rest w1,
      items = pre ++ item :: rest -> P pre w1 ->
      exists r1 w2, loop_body rec E dst item w1 = Some (r1, w2) /\
        P (pre ++ [item]) w2) ->
  exists r w', for_items rec E dst items w = Some (r, w').
Proof.
  intros H0 Hstep.
  assert (forall todo pre w1,
    items = pre ++ todo -> P pre w1 ->
    exists r w', for_items rec E dst todo w1 = Some (r, w')) as Hgen.
  { induction todo as [|item todo IH]; intros pre w1 Heq HP; simpl.
    - eauto.
    - destruct (Hstep _ _ _ _ Heq HP) as (r1 & w2 & -> & HP2).
      destruct r1 as [u|e]; [|eauto].
      apply (IH (pre ++ [item])); [by rewrite <- app_assoc | done]. }
  by apply (Hgen items []).
Qed.

(** The changes of one loop body. *)
Lemma loop_body_steps (R : path -> Prop) item w r w' :
  (forall w2, is_dir (w_fs w) item = true ->
     resolve E item <> resolve E dst -> rec item w = Some w2 ->
     rtc (fs_step dst R) (w_fs w) (w_fs w2)) ->
  R item ->
  loop_body rec E dst item w = Some (r, w') ->
  rtc (fs_step dst R) (w_fs w) (w_fs w').
Proof.
  intros Hrec HR. unfold loop_body.
  destruct (is_dir (w_fs w) item) eqn:Hd.
  - destruct (decide _) as [|Hne]; [by intros [= <- <-]|].
    destruct (rec item w) as [w2|] eqn:Hw2; [|done].
    intros [= <- <-]. by apply Hrec.
  - destruct (is_file (w_fs w) item) eqn:Hf; [|by intros [= <- <-]].
    destruct (mkdir _ _ _) as [fs1 [u|e]] eqn:Hmk.
    + assert (rtc (fs_step dst R) (w_fs w) fs1) as H1
        by (eapply grows_steps, mkdir_grows; eauto).
      destruct (shutil_move _ _ _ _) as [fs2|e] eqn:Hmv;
        intros [= <- <-]; simpl; [|done].
      etrans; [done|].
      rewrite <- app_assoc in Hmv. simpl in Hmv.
      eapply move_steps; [|done|done].
      apply is_file_Some in Hf as [c Hc]. apply is_file_Some. exists c.
      eapply grows_lookup_Some; [by eapply mkdir_grows | done].
    + intros [= <- <-]. simpl. eapply grows_steps, mkdir_grows; eauto.
Qed.
End loop.

(** Every change made by a walk of [p] is a step whose source is [walked]. *)
Lemma copy_and_sort_steps n E p dst w w' :
  copy_and_sort n E p dst w = Some w' ->
  rtc (fs_step dst (walked dst p)) (w_fs w) (w_fs w').
Proof.
  revert p w w'. induction n as [|n IH]; intros p w w'; simpl; [done|].
  destruct (iterdir E (w_fs w) p) as [items|e] eqn:Hit;
    [|by intros [= <-]].
  apply iterdir_Ok in Hit as [_ Hitems].
  destruct (for_items _ _ _ _ _) as [[r w1]|] eqn:Hloop; [|done].
  intros Hw'.
  assert (w_fs w' = w_fs w1) as -> by (destruct r; by injection Hw' as <-).
  eapply (for_items_inv _ _ _
    (fun _ w1 => rtc (fs_step dst (walked dst p)) (w_fs w) (w_fs w1)))
    in Hloop as (_ & _ & _ & H & _); [done|apply rtc_refl|].
  intros pre item rest w2 r1 w3 Heq Hpre Hbody. etrans; [done|].
  assert (item ∈ items) as Hin by (rewrite Heq; set_solver).
  rewrite Hitems in Hin. apply list_elem_of_fmap in Hin as (x & -> & _).
  eapply loop_body_steps; [| |done].
  - intros w4 _ Hne Hrec.
    eapply fs_steps_mono; [|exact (IH (p ++ [x]) w2 w4 Hrec)].
    intros s Hs. exists x. apply walked_src_of; [|done]. congruence.
  - exists x. apply src_of_refl.
Qed.

(** ** What steps preserve *)

Lemma steps_preserve (dst : path) (R : path -> Prop) (P : fsmap -> Prop) :
  (forall fs fs', P fs -> fs_step dst R fs fs' -> P fs') ->
  forall fs fs', rtc (fs_step dst R) fs fs' -> P fs -> P fs'.
Proof. intros Hstep fs fs'. induction 1; eauto. Qed.

Lemma target_of_below dst s : below dst (target_of dst s).
Proof. by eexists [_; _]. Qed.

Lemma step_target_below dst s t :
  t = target_of dst s \/ t = target_of dst s ++ [name s] -> below dst t.
Proof.
  intros [->| ->]; [apply target_of_below|].
  eapply below_trans_prefix; [apply target_of_below | by eexists].
Qed.

Lemma step_target_length dst s t :
  t = target_of dst s \/ t = target_of dst s ++ [name s] ->
  length dst + 2 <= length t.
Proof.
  unfold target_of. intros [->| ->]; rewrite !length_app; simpl; lia.
Qed.

(** Directories are never removed. *)
Lemma steps_is_dir (dst : path) (R : path -> Prop) (fs fs' : fsmap) (q : path) :
  rtc (fs_step dst R) fs fs' -> is_dir fs q = true -> is_dir fs' q = true.
Proof.
  apply (steps_preserve dst R (fun fs => is_dir fs q = true)).
  clear. intros fs fs' Hq%is_dir_Some Hstep. apply is_dir_Some.
  destruct Hstep as [fs s q' _ _ Hq' _|fs s c t _ Hs Ht%is_dir_false _ _ _].
  - rewrite lookup_insert_ne; [done | congruence].
  - rewrite lookup_insert_ne by congruence.
    rewrite lookup_delete_ne; [done | congruence].
Qed.

(** A directory that appears is on the way to a bucket. *)
Lemma steps_new_dir (dst : path) (R : path -> Prop) (fs fs' : fsmap) (q : path) :
  rtc (fs_step dst R) fs fs' -> is_dir fs' q = true ->
  is_dir fs q = true \/ exists e, q `prefix_of` dst ++ [e].
Proof.
  intros Hsteps. revert q.
  induction Hsteps as [fs|fs fs1 fs' Hstep _ IH]; intros q Hq; [by left|].
  destruct (IH q Hq) as [Hq1|]; [|by right].
  apply is_dir_Some in Hq1.
  destruct Hstep as [fs s q' _ _ Hq' Hpre|fs s c t _ Hs Ht _ _ _].
  - destruct (decide (q' = q)) as [->|Hne]; [right; eauto|].
    left. apply is_dir_Some. by rewrite lookup_insert_ne in Hq1.
  - left. apply is_dir_Some.
    destruct (decide (t = q)) as [->|Hne].
    + by rewrite lookup_insert_eq in Hq1.
    + rewrite lookup_insert_ne in Hq1 by done.
      by apply lookup_delete_Some in Hq1 as [_ ?].
Qed.

(** An entry that no step takes as its source stays, and does not turn into
    a directory. *)
Lemma steps_keep (dst : path) (R : path -> Prop) (fs fs' : fsmap) (q : path) :
  rtc (fs_step dst R) fs fs' -> ~ R q -> is_Some (fs !! q) ->
  is_Some (fs' !! q) /\ (is_dir fs' q = true -> is_dir fs q = true).
Proof.
  intros Hsteps HR. induction Hsteps as [fs|fs fs1 fs' Hstep _ IH];
    intros Hq; [done|].
  assert (is_Some (fs1 !! q) /\ (is_dir fs1 q = true -> is_dir fs q = true))
    as [Hq1 Hd1].
  { destruct Hstep as [fs s q' _ _ Hq' Hpre|fs s c t Hs Hsc Ht _ _ _].
    - assert (q' <> q) by (intros ->; rewrite Hq' in Hq; by destruct Hq).
      unfold is_dir. by rewrite lookup_insert_ne.
    - assert (s <> q) by (by intros ->).
      destruct (decide (t = q)) as [->|Hne].
      + unfold is_dir at 1. rewrite lookup_insert_eq. done.
      + unfold is_dir at 1. rewrite lookup_insert_ne by done.
        rewrite lookup_delete_ne by done. done. }
  destruct (IH Hq1) as [? ?]. split; [done|auto].
Qed.

(** A regular file that no step takes as its source stays a regular file. *)
Lemma steps_file_stays (dst : path) (R : path -> Prop) (fs fs' : fsmap) (t : path) :
  rtc (fs_step dst R) fs fs' -> ~ R t ->
  is_file fs t = true -> is_file fs' t = true.
Proof.
  intros Hsteps HR. revert Hsteps.
  apply (steps_preserve dst R (fun fs => is_file fs t = true)).
  clear -HR. intros fs fs' Hq. rewrite !is_file_Some in *.
  destruct Hq as [c0 Hq].
  destruct 1 as [fs s q' _ _ Hq' _|fs s c t' Hs Hsc Ht _ _ _].
  - exists c0. rewrite lookup_insert_ne; [done | congruence].
  - destruct (decide (t' = t)) as [->|Hne].
    + exists c. by rewrite lookup_insert_eq.
    + exists c0. rewrite lookup_insert_ne by done.
      rewrite lookup_delete_ne; [done|]. by intros ->.
Qed.

(** ** Termination *)

Lemma elem_of_dirs fs q : q ∈ dirs fs <-> is_dir fs q = true.
Proof.
  unfold dirs. rewrite list_elem_of_omap, is_dir_Some. split.
  - intros ([q' nd] & Hin%elem_of_map_to_list & Hq). simpl in Hq.
    destruct nd; naive_solver.
  - intros Hq. exists (q, Dir). by rewrite elem_of_map_to_list.
Qed.

Lemma max_dir_len_ge fs q : is_dir fs q = true -> length q <= max_dir_len fs.
Proof.
  intros Hq%elem_of_dirs. apply max_list_elem_of_le.
  apply list_elem_of_fmap. eauto.
Qed.

Section loop_total.
Context (E : env) (dst : path).

Lemma loop_body_total rec item w :
  (is_dir (w_fs w) item = true -> resolve E item <> resolve E dst ->
   exists w2, rec item w = Some w2) ->
  exists r w', loop_body rec E dst item w = Some (r, w').
Proof.
  intros Hrec. unfold loop_body.
  destruct (is_dir (w_fs w) item) eqn:Hd.
  - destruct (decide _) as [|Hne]; [eauto|].
    destruct (Hrec eq_refl Hne) as [w2 ->]. eauto.
  - destruct (is_file (w_fs w) item); [|eauto].
    destruct (mkdir _ _ _) as [fs1 [u|e]]; [|eauto].
    destruct (shutil_move _ _ _ _); eauto.
Qed.

Lemma loop_body_rec_mono (rec1 rec2 : path -> world -> option world)
    item w x :
  (forall w1 w2, rec1 item w1 = Some w2 -> rec2 item w1 = Some w2) ->
  loop_body rec1 E dst item w = Some x ->
  loop_body rec2 E dst item w = Some x.
Proof.
  intros Hrec. unfold loop_body.
  destruct (is_dir (w_fs w) item); [|done].
  destruct (decide _); [done|].
  destruct (rec1 item w) as [w2|] eqn:H1; [|done].
  by rewrite (Hrec _ _ H1).
Qed.

Lemma for_items_rec_mono (rec1 rec2 : path -> world -> option world)
    items w x :
  (forall item w1 w2, rec1 item w1 = Some w2 -> rec2 item w1 = Some w2) ->
  for_items rec1 E dst items w = Some x ->
  for_items rec2 E dst items w = Some x.
Proof.
  intros Hrec. revert w. induction items as [|item items IH]; intros w;
    simpl; [done|].
  destruct (loop_body rec1 E dst item w) as [y|] eqn:H1; [|done].
  rewrite (loop_body_rec_mono rec1 rec2 _ _ _ (Hrec item) H1).
  destruct y as [[u|e] w1]; auto.
Qed.

End loop_total.

(** More fuel does not change the result. *)
Lemma copy_and_sort_fuel_mono n m E p dst w w' :
  n <= m -> copy_and_sort n E p dst w = Some w' ->
  copy_and_sort m E p dst w = Some w'.
Proof.
  revert m p w w'. induction n as [|n IH]; intros m p w w' Hle; [done|].
  destruct m as [|m]; [lia|]. simpl.
  destruct (iterdir E (w_fs w) p) as [items|e]; [|done].
  destruct (for_items (fun item => copy_and_sort n E item dst) _ _ _ _)
    as [x|] eqn:Hloop; [|done].
  erewrite for_items_rec_mono; [done| |exact Hloop].
  intros item w1 w2. apply IH. lia.
Qed.

Lemma copy_and_sort_S n E p dst w :
  copy_and_sort (S n) E p dst w =
    match iterdir E (w_fs w) p with
    | Err e => Some (print (AccessError p e) (record (Enter p) w))
    | Ok items =>
        match for_items (fun item => copy_and_sort n E item dst)
                E dst items (record (Enter p) w) with
        | None => None
        | Some (Ok _, w') => Some w'
        | Some (Err e, w') => Some (print (AccessError p e) w')
        end
    end.
Proof. reflexivity. Qed.

(** A walk of [p] returns within [M - length p] nested calls below its own
    activation, when no directory of the map and no bucket lies deeper than
    [M]. *)
Lemma copy_and_sort_total_within M n E p dst w :
  (forall q, is_dir (w_fs w) q = true -> length q <= M) ->
  length dst + 1 <= M ->
  M <= length p + n ->
  exists w', copy_and_sort (S n) E p dst w = Some w'.
Proof.
  intros Hdirs Hdst. revert p w Hdirs.
  induction n as [|n IH]; intros p w Hdirs Hn; rewrite copy_and_sort_S;
    (destruct (iterdir E (w_fs w) p) as [items|e] eqn:Hit; [|eauto]);
    apply iterdir_Ok in Hit as [Hp Hitems].
  - destruct (for_items_total (fun item => copy_and_sort 0 E item dst) E dst
      (fun _ w1 => forall q, is_dir (w_fs w1) q = true -> length q <= M)
      items (record (Enter p) w)) as (r & w' & ->); [done| |destruct r; eauto].
    intros pre item rest w1 Heq HP.
    assert (item ∈ items) as Hin by (rewrite Heq; set_solver).
    rewrite Hitems in Hin. apply list_elem_of_fmap in Hin as (x & -> & _).
    destruct (loop_body_total E dst (fun item => copy_and_sort 0 E item dst)
      (p ++ [x]) w1) as (r1 & w2 & Hb).
    { intros Hd%HP. rewrite length_app in Hd. simpl in Hd. lia. }
    exists r1, w2. split; [done|].
    intros q Hq.
    eapply (loop_body_steps _ E dst (fun _ => True)) in Hb; [|done|done].
    eapply steps_new_dir in Hb as [Hq0|[e [k Hk]]]; [by apply HP| |done].
    apply (f_equal length) in Hk. rewrite !length_app in Hk. simpl in Hk. lia.
  - destruct (for_items_total (fun item => copy_and_sort (S n) E item dst)
      E dst
      (fun _ w1 => forall q, is_dir (w_fs w1) q = true -> length q <= M)
      items (record (Enter p) w)) as (r & w' & ->); [done| |destruct r; eauto].
    intros pre item rest w1 Heq HP.
    assert (item ∈ items) as Hin by (rewrite Heq; set_solver).
    rewrite Hitems in Hin. apply list_elem_of_fmap in Hin as (x & -> & _).
    destruct (loop_body_total E dst
      (fun item => copy_and_sort (S n) E item dst)
      (p ++ [x]) w1) as (r1 & w2 & Hb).
    { intros _ _. apply IH; [done|]. rewrite length_app. simpl. lia. }
    exists r1, w2. split; [done|].
    intros q Hq.
    eapply (loop_body_steps _ E dst (fun _ => True)) in Hb; [| |done].
    + eapply steps_new_dir in Hb as [Hq0|[e [k Hk]]]; [by apply HP| |done].
      apply (f_equal length) in Hk. rewrite !length_app in Hk.
      simpl in Hk. lia.
    + intros w3 _ _ Hrec.
      eapply fs_steps_mono; [|exact (copy_and_sort_steps _ _ _ _ _ _ Hrec)].
      done.
Qed.

Lemma copy_and_sort_total E p dst w m :
  walk_fuel (w_fs w) p dst <= m ->
  exists w', copy_and_sort m E p dst w = Some w'.
Proof.
  intros Hm.
  destruct (copy_and_sort_total_within
    (max (max_dir_len (w_fs w)) (length dst + 1))
    (max (max_dir_len (w_fs w)) (length dst + 1) - length p) E p dst w)
    as [w' Hw'].
  - intros q Hq%max_dir_len_ge. lia.
  - lia.
  - lia.
  - exists w'. eapply copy_and_sort_fuel_mono; [|done]. done.
Qed.

(** ** The calls of a walk *)

Lemma name_child p x : name (p ++ [x]) = x.
Proof. apply last_last. Qed.

Lemma parent_child p x : parent (p ++ [x]) = p.
Proof. apply removelast_last. Qed.

Lemma entered_ok_refl E dst p : entered_ok E dst p p.
Proof.
  split; [done|]. intros r Hr%below_length Hp%prefix_length. lia.
Qed.

Lemma entered_ok_child E dst p x q :
  resolve E (p ++ [x]) <> resolve E dst ->
  entered_ok E dst (p ++ [x]) q -> entered_ok E dst p q.
Proof.
  intros Hne [Hpre Hok]. split.
  - trans (p ++ [x]); [by exists [x] | done].
  - intros r Hr Hrq.
    destruct (prefix_below _ _ (child_prefix_between p x r q Hr Hrq Hpre))
      as [<-|Hb]; auto.
Qed.

Lemma call_ok_child E dst p x c :
  resolve E (p ++ [x]) <> resolve E dst ->
  call_ok E dst (p ++ [x]) c -> call_ok E dst p c.
Proof.
  intros Hne. destruct c as [q|s t]; simpl.
  - by apply entered_ok_child.
  - intros (q & y & -> & Hq & ->). exists q, y.
    eauto using entered_ok_child.
Qed.

Lemma loop_body_calls rec E dst (Q : call -> Prop) item w r w' :
  (forall w2, is_dir (w_fs w) item = true ->
     resolve E item <> resolve E dst -> rec item w = Some w2 ->
     exists tr, w_calls w2 = w_calls w ++ tr /\ Forall Q tr) ->
  Q (Move item (dst ++ [Names.bucket_name (name item); name item])) ->
  loop_body rec E dst item w = Some (r, w') ->
  exists tr, w_calls w' = w_calls w ++ tr /\ Forall Q tr.
Proof.
  intros Hrec HQ. unfold loop_body.
  assert (exists tr, w_calls w = w_calls w ++ tr /\ Forall Q tr) as Hnil
    by (exists []; by rewrite app_nil_r).
  destruct (is_dir (w_fs w) item) eqn:Hd.
  - destruct (decide _) as [|Hne]; [by intros [= <- <-]|].
    destruct (rec item w) as [w2|] eqn:Hw2; [|done].
    intros [= <- <-]. by apply Hrec.
  - destruct (is_file (w_fs w) item) eqn:Hf; [|by intros [= <- <-]].
    destruct (mkdir _ _ _) as [fs1 [u|e]] eqn:Hmk; [|by intros [= <- <-]].
    rewrite <- app_assoc. simpl app.
    destruct (shutil_move _ _ _ _) as [fs2|e]; intros [= <- <-]; simpl;
      eexists; (split; [done|]); by apply Forall_singleton.
Qed.

Lemma copy_and_sort_calls n E p dst w w' :
  copy_and_sort n E p dst w = Some w' ->
  exists tr, w_calls w' = w_calls w ++ tr /\ Forall (call_ok E dst p) tr.
Proof.
  revert p w w'. induction n as [|n IH]; intros p w w'; [done|].
  rewrite copy_and_sort_S.
  assert (Forall (call_ok E dst p) [Enter p]) as Hp
    by apply Forall_singleton, entered_ok_refl.
  destruct (iterdir E (w_fs w) p) as [items|e] eqn:Hit;
    [|intros [= <-]; simpl; eauto].
  apply iterdir_Ok in Hit as [_ Hitems].
  destruct (for_items _ _ _ _ _) as [[r w1]|] eqn:Hloop; [|done].
  intros Hw'.
  assert (w_calls w' = w_calls w1) as -> by (destruct r; by injection Hw' as <-).
  eapply (for_items_inv _ _ _
    (fun _ w1 => exists tr, w_calls w1 = w_calls w ++ tr /\
                   Forall (call_ok E dst p) tr))
    in Hloop as (_ & _ & _ & H & _); [done|simpl; eauto|].
  intros pre item rest w2 r1 w3 Heq (tr & Htr & Hok) Hbody.
  assert (item ∈ items) as Hin by (rewrite Heq; set_solver).
  rewrite Hitems in Hin. apply list_elem_of_fmap in Hin as (x & -> & _).
  eapply (loop_body_calls _ _ _ (call_ok E dst p)) in Hbody
    as (tr' & Htr' & Hok').
  - exists (tr ++ tr'). rewrite Htr', Htr, <- app_assoc.
    split; [done|]. by apply Forall_app.
  - intros w4 _ Hne Hrec. apply IH in Hrec as (tr' & -> & Hok').
    exists tr'. split; [done|].
    eapply Forall_impl; [done|]. intros c. by apply call_ok_child.
  - rewrite name_child. exists p, x. split; [done|].
    split; [apply entered_ok_refl | done].
Qed.

Lemma entered_ok_not_dst E dst p q :
  entered_ok E dst p q -> q = p \/ resolve E q <> resolve E dst.
Proof.
  intros [Hpre Hok]. destruct (prefix_below _ _ Hpre) as [->|Hb]; auto.
Qed.

Lemma prefix_comparable (p q s : path) :
  p `prefix_of` s -> q `prefix_of` s -> p `prefix_of` q \/ below q p.
Proof.
  intros Hp Hq. destruct (prefix_weak_total _ _ _ Hp Hq) as [|Hqp]; [by left|].
  destruct (prefix_below _ _ Hqp) as [->|]; [by left | by right].
Qed.

Lemma entered_ok_outside E dst p q :
  ~ dst `prefix_of` p -> entered_ok E dst p q -> ~ dst `prefix_of` q.
Proof.
  intros Hp [Hpre Hok] Hq.
  destruct (prefix_comparable dst p q Hq Hpre) as [|Hb]; [done|].
  by apply (Hok dst).
Qed.

(** ** Runs without failures *)

Lemma name_target_of dst s : name (target_of dst s) = name s.
Proof.
  unfold target_of.
  change (dst ++ [Names.bucket_name (name s); name s])
    with (dst ++ [Names.bucket_name (name s)] ++ [name s]).
  rewrite app_assoc. apply name_child.
Qed.

Lemma target_of_name dst s t : name s = name t -> target_of dst s = target_of dst t.
Proof. unfold target_of. by intros ->. Qed.

Lemma step_target_name dst s t :
  t = target_of dst s \/ t = target_of dst s ++ [name s] -> name t = name s.
Proof. intros [->| ->]; [apply name_target_of | apply name_child]. Qed.

Lemma names_ok_step dst (R : path -> Prop) fs fs' n :
  fs_step dst R fs fs' -> names_ok dst fs n -> names_ok dst fs' n.
Proof.
  intros Hstep [Hb Ht].
  destruct Hstep as [fs s q _ _ Hq Hpre|fs s c t _ Hs Hdir _ Htgt Hne].
  - split.
    + destruct (decide (q = dst ++ [Names.bucket_name n])) as [->|Hqn].
      * right. apply is_dir_Some, lookup_insert_eq.
      * unfold is_dir. rewrite lookup_insert_ne by done. done.
    + apply is_dir_false. rewrite lookup_insert_ne; [by apply is_dir_false|].
      intros ->. apply prefix_length in Hpre.
      rewrite !length_app in Hpre. simpl in Hpre. lia.
  - assert (length dst + 2 <= length t) as Hlen
      by (apply (step_target_length dst s); tauto).
    assert (t <> dst ++ [Names.bucket_name n]) as Htn.
    { intros ->. rewrite length_app in Hlen. simpl in Hlen. lia. }
    split.
    + unfold is_dir. rewrite lookup_insert_ne by done.
      destruct (decide (s = dst ++ [Names.bucket_name n])) as [->|Hsn].
      * left. apply lookup_delete_eq.
      * rewrite lookup_delete_ne by done. done.
    + apply is_dir_false. apply is_dir_false in Ht.
      destruct (decide (t = dst ++ [Names.bucket_name n; n])) as [->|Htn'].
      * by rewrite lookup_insert_eq.
      * rewrite lookup_insert_ne by done.
        intros [_ ?]%lookup_delete_Some. done.
Qed.

Lemma layout_step N src dst (R : path -> Prop) fs fs' :
  (forall s, R s -> below src s) ->
  fs_step dst R fs fs' -> layout N src dst fs -> layout N src dst fs'.
Proof.
  intros HR Hstep (Hchain & HN & Hok). split; [|split].
  - intros r Hr. eapply steps_is_dir; [by apply rtc_once | by apply Hchain].
  - intros s' Hs' Hf.
    destruct Hstep as [fs s q _ _ Hq Hpre|fs s c t HRs Hs Hdir _ Htgt Hne].
    + apply HN; [done|]. apply is_file_Some in Hf as [c Hc].
      apply is_file_Some. exists c.
      destruct (decide (q = s')) as [->|Hqs].
      * by rewrite lookup_insert_eq in Hc.
      * by rewrite lookup_insert_ne in Hc.
    + destruct (decide (t = s')) as [<-|Hts].
      * rewrite (step_target_name dst s t) by tauto.
        apply HN; [by apply HR|]. apply is_file_Some. eauto.
      * apply HN; [done|]. apply is_file_Some in Hf as [c' Hc].
        rewrite lookup_insert_ne in Hc by done.
        apply lookup_delete_Some in Hc as [_ Hc].
        apply is_file_Some. eauto.
  - intros n Hn. eapply names_ok_step; [done | by apply Hok].
Qed.

Lemma layout_steps N src dst (R : path -> Prop) fs fs' :
  (forall s, R s -> below src s) ->
  rtc (fs_step dst R) fs fs' -> layout N src dst fs -> layout N src dst fs'.
Proof.
  intros HR. apply (steps_preserve dst R (layout N src dst)).
  intros fs1 fs2 Hl Hstep. by eapply layout_step.
Qed.

Lemma prefix_snoc (q p : path) (x : string) :
  q `prefix_of` p ++ [x] -> q `prefix_of` p \/ q = p ++ [x].
Proof.
  intros [k Hk]. destruct (decide (k = [])) as [->|Hne].
  - right. by rewrite app_nil_r in Hk.
  - left. destruct (exists_last Hne) as (k' & y & ->).
    rewrite app_assoc in Hk. apply app_inj_tail in Hk as [-> _].
    by exists k'.
Qed.

(** A file that sits at its own target stays a regular file: the only call
    of [shutil.move] on it renames it to itself. *)
Lemma steps_target_stays (dst : path) (R : path -> Prop) (fs fs' : fsmap)
    (q : path) :
  rtc (fs_step dst R) fs fs' ->
  is_file fs (target_of dst q) = true -> is_file fs' (target_of dst q) = true.
Proof.
  apply (steps_preserve dst R (fun fs => is_file fs (target_of dst q) = true)).
  clear. intros fs fs' Hf Hstep.
  destruct Hstep as [fs s q' _ _ Hq' _|fs s c t _ Hs Hdir _ Htgt Hne].
  - apply is_file_Some in Hf as [c Hc]. apply is_file_Some. exists c.
    rewrite lookup_insert_ne; [done | congruence].
  - apply is_file_Some.
    destruct (decide (t = target_of dst q)) as [->|Ht].
    { exists c. by rewrite lookup_insert_eq. }
    rewrite lookup_insert_ne by done.
    apply is_file_Some in Hf as [c' Hc']. exists c'.
    rewrite lookup_delete_ne; [done|]. intros ->.
    assert (target_of dst (target_of dst q) = target_of dst q) as Hself
      by (apply target_of_name, name_target_of).
    rewrite Hself in Htgt. destruct Htgt as [->|[_ Hd]]; [done|].
    apply is_dir_Some in Hd. congruence.
Qed.

(** A path where the walk creates nothing stays absent. *)
Lemma steps_absent (N : string -> Prop) (src dst : path) (R : path -> Prop)
    (fs fs' : fsmap) (q : path) :
  (forall s, R s -> below src s) ->
  rtc (fs_step dst R) fs fs' -> layout N src dst fs ->
  ~ q `prefix_of` dst ->
  (forall n, N n -> q <> dst ++ [Names.bucket_name n]) ->
  q <> target_of dst q ->
  fs !! q = None -> fs' !! q = None.
Proof.
  intros HR Hsteps Hlay Hpre Hbucket Hself.
  induction Hsteps as [fs|fs fs1 fs' Hstep _ IH]; [done|].
  intros Hq. apply IH; [by eapply layout_step|].
  destruct Hlay as (_ & HN & Hok).
  destruct Hstep as [fs s q' HRs Hs Hq' Hq'pre|fs s c t HRs Hs Hdir _ Htgt Hne].
  - rewrite lookup_insert_ne; [done|]. intros ->.
    apply prefix_snoc in Hq'pre as [|Heq]; [done|].
    by apply (Hbucket (name s)); [apply HN; auto|].
  - rewrite lookup_insert_ne; [by apply lookup_delete_None; right|].
    intros ->. destruct Htgt as [Heq|[_ Hd]].
    + apply Hself. rewrite Heq at 1. apply target_of_name.
      by rewrite Heq, name_target_of.
    + assert (N (name s)) as Hn by (apply HN; [auto | apply is_file_Some; eauto]).
      destruct (Hok _ Hn) as [_ Hnd]. unfold target_of in Hd. congruence.
Qed.

Lemma mkdir_parents_head_Ok n E p fs fs' :
  os_mkdir E fs p = Ok fs' -> mkdir_parents n E p fs = (fs', Ok tt).
Proof. intros H. destruct n; simpl; by rewrite H. Qed.

Lemma mkdir_parents_head_exists n E p fs :
  os_mkdir E fs p = Err FileExistsError -> is_dir fs p = true ->
  mkdir_parents n E p fs = (fs, Ok tt).
Proof. intros H Hd. destruct n; simpl; by rewrite H, Hd. Qed.

Lemma mkdir_calm E dst e fs :
  calm E -> is_dir fs dst = true ->
  fs !! (dst ++ [e]) = None \/ is_dir fs (dst ++ [e]) = true ->
  exists fs1, mkdir E (dst ++ [e]) fs = (fs1, Ok tt) /\
    is_dir fs1 (dst ++ [e]) = true /\
    forall q, q <> dst ++ [e] -> fs1 !! q = fs !! q.
Proof.
  intros HE Hdst Hb. unfold mkdir.
  assert (os_mkdir E fs (dst ++ [e]) =
            match fs !! (dst ++ [e]) with
            | Some _ => Err FileExistsError
            | None => Ok (<[dst ++ [e] := Dir]> fs)
            end) as Hos.
  { unfold os_mkdir. rewrite (calm_mkdir E HE), parent_child.
    apply is_dir_Some in Hdst. by rewrite Hdst. }
  destruct Hb as [Hnone|Hdir].
  - rewrite Hnone in Hos. exists (<[dst ++ [e] := Dir]> fs).
    split; [by apply mkdir_parents_head_Ok|]. split.
    + apply is_dir_Some, lookup_insert_eq.
    + intros q Hq. by rewrite lookup_insert_ne.
  - pose proof Hdir as Hd. apply is_dir_Some in Hd. rewrite Hd in Hos.
    exists fs. split; [by apply mkdir_parents_head_exists|]. done.
Qed.

Lemma parent_target_of dst s :
  parent (target_of dst s) = dst ++ [Names.bucket_name (name s)].
Proof.
  unfold target_of.
  change (dst ++ [Names.bucket_name (name s); name s])
    with (dst ++ [Names.bucket_name (name s)] ++ [name s]).
  rewrite app_assoc. apply parent_child.
Qed.

Lemma shutil_move_calm E dst s c fs :
  calm E -> fs !! s = Some (File c) ->
  is_dir fs (dst ++ [Names.bucket_name (name s)]) = true ->
  is_dir fs (target_of dst s) = false ->
  exists fs2, shutil_move E s (target_of dst s) fs = Ok fs2 /\
    fs2 !! target_of dst s = Some (File c) /\
    (s <> target_of dst s -> fs2 !! s = None).
Proof.
  intros HE Hs Hb Ht. unfold shutil_move.
  rewrite (calm_move E HE), Ht. unfold os_rename.
  rewrite Hs, parent_target_of. apply is_dir_Some in Hb. rewrite Hb, Ht.
  destruct (decide (s = target_of dst s)) as [Heq|Hne].
  - exists fs. split; [done|]. split; [by rewrite <- Heq | done].
  - eexists. split; [done|]. split; [apply lookup_insert_eq|].
    intros _. rewrite lookup_insert_ne by done. apply lookup_delete_eq.
Qed.

Lemma loop_body_file_calm rec E N src dst item w :
  calm E -> layout N src dst (w_fs w) -> below src item ->
  is_file (w_fs w) item = true ->
  exists w', loop_body rec E dst item w = Some (Ok tt, w') /\
    is_file (w_fs w') (target_of dst item) = true /\
    (item <> target_of dst item -> w_fs w' !! item = None).
Proof.
  intros HE (Hchain & HN & Hok) Hb Hf. unfold loop_body.
  pose proof Hf as [c Hc]%is_file_Some.
  assert (is_dir (w_fs w) item = false) as -> by (unfold is_dir; by rewrite Hc).
  rewrite Hf.
  destruct (Hok _ (HN _ Hb Hf)) as [Hbucket Htgt].
  destruct (mkdir_calm E dst (Names.bucket_name (name item)) (w_fs w))
    as (fs1 & -> & Hd1 & Hsame); [done|by apply Hchain|done|].
  assert (item <> dst ++ [Names.bucket_name (name item)]) as Hne.
  { intros Heq. rewrite <- Heq in Hbucket.
    destruct Hbucket as [?|Hd%is_dir_Some]; congruence. }
  destruct (shutil_move_calm E dst item c fs1) as (fs2 & Hmv & Ht2 & Hs2);
    [done|by rewrite Hsame|done| |].
  { apply is_dir_false. rewrite Hsame; [by apply is_dir_false|].
    intros Heq. apply (f_equal length) in Heq.
    unfold target_of in Heq. rewrite !length_app in Heq. simpl in Heq. lia. }
  rewrite <- app_assoc. simpl app. unfold target_of in Hmv. rewrite Hmv.
  eexists. split; [done|]. simpl. split; [|done].
  apply is_file_Some. eauto.
Qed.

Lemma loop_body_no_abort rec E N src dst item w r w' :
  calm E -> layout N src dst (w_fs w) -> below src item ->
  loop_body rec E dst item w = Some (r, w') -> r = Ok tt.
Proof.
  intros HE Hlay Hb.
  destruct (is_file (w_fs w) item) eqn:Hf.
  - destruct (loop_body_file_calm rec E N src dst item w) as (w2 & -> & _);
      try done. by intros [= <- <-].
  - unfold loop_body. rewrite Hf.
    destruct (is_dir (w_fs w) item); [|by intros [= <- <-]].
    destruct (decide _); [by intros [= <- <-]|].
    destruct (rec item w); [|done]. by intros [= <- <-].
Qed.

Lemma src_of_prefix dst item s : src_of dst item s -> item `prefix_of` s.
Proof. by intros [? _]. Qed.

Lemma walked_below dst p s : walked dst p s -> below p s.
Proof.
  intros [x [Hpre _]]. eapply below_trans_prefix; [apply below_child | done].
Qed.

Lemma under_children dst p (names : list string) s :
  under dst ((fun n => p ++ [n]) <$> names) s ->
  exists x, x ∈ names /\ p ++ [x] `prefix_of` s.
Proof.
  intros (item & (x & -> & Hx)%list_elem_of_fmap & Hs%src_of_prefix). eauto.
Qed.

Lemma under_below (dst src : path) (items : list path) s :
  (forall item, item ∈ items -> below src item) ->
  under dst items s -> below src s.
Proof.
  intros Hitems (item & Hin & Hs%src_of_prefix).
  eapply below_trans_prefix; eauto.
Qed.

Lemma child_prefix_inj (p : path) (x y : string) (q : path) :
  p ++ [x] `prefix_of` q -> p ++ [y] `prefix_of` q -> x = y.
Proof.
  intros [k1 ->] [k2 Hk]. rewrite <- !app_assoc in Hk.
  apply app_inv_head in Hk. by injection Hk.
Qed.

Lemma body_steps_walk n E dst (R : path -> Prop) item w r w' :
  (forall s, src_of dst item s -> R s) ->
  loop_body (fun item => copy_and_sort n E item dst) E dst item w
    = Some (r, w') ->
  rtc (fs_step dst R) (w_fs w) (w_fs w').
Proof.
  intros HR Hbody. eapply loop_body_steps; [| |exact Hbody].
  - intros w2 _ Hne Hrec.
    eapply fs_steps_mono; [|exact (copy_and_sort_steps _ _ _ _ _ _ Hrec)].
    intros s Hs. apply HR, walked_src_of; [congruence | done].
  - apply HR, src_of_refl.
Qed.

Lemma for_items_steps n E dst items w r w' :
  for_items (fun item => copy_and_sort n E item dst) E dst items w
    = Some (r, w') ->
  rtc (fs_step dst (under dst items)) (w_fs w) (w_fs w').
Proof.
  intros Hloop.
  eapply (for_items_inv _ _ _
    (fun _ w1 => rtc (fs_step dst (under dst items)) (w_fs w) (w_fs w1)))
    in Hloop as (_ & _ & _ & H & _); [done|apply rtc_refl|].
  intros pre item rest w1 r1 w2 Heq Hpre Hbody. etrans; [done|].
  eapply body_steps_walk; [|done].
  intros s Hs. exists item. split; [|done]. rewrite Heq. set_solver.
Qed.

Lemma for_items_no_abort n E N src dst items w r w' :
  calm E -> layout N src dst (w_fs w) ->
  (forall item, item ∈ items -> below src item) ->
  for_items (fun item => copy_and_sort n E item dst) E dst items w
    = Some (r, w') ->
  r = Ok tt.
Proof.
  intros HE. revert w. induction items as [|item items IH]; intros w Hlay Hb;
    simpl; [by intros [= <- <-]|].
  destruct (loop_body _ E dst item w) as [[r1 w1]|] eqn:Hbody; [|done].
  assert (below src item) as Hitem by (apply Hb; set_solver).
  assert (rtc (fs_step dst (below src)) (w_fs w) (w_fs w1)) as Hsteps.
  { eapply body_steps_walk; [|exact Hbody].
    intros s Hs%src_of_prefix. by eapply below_trans_prefix. }
  rewrite (loop_body_no_abort _ _ _ _ _ _ _ _ _ HE Hlay Hitem Hbody).
  apply IH; [|intros; apply Hb; set_solver].
  by eapply layout_steps; [|exact Hsteps|].
Qed.

Lemma iterdir_calm E fs p :
  calm E -> is_dir fs p = true ->
  iterdir E fs p = Ok ((fun n => p ++ [n]) <$> list_order E p (children fs p)).
Proof.
  intros HE Hp%is_dir_Some. unfold iterdir, listdir.
  by rewrite (calm_listdir E HE), Hp.
Qed.

Lemma elem_of_middle {A} (pre post : list A) (x y : A) :
  x ∈ pre ++ post -> x ∈ pre ++ y :: post.
Proof.
  rewrite !elem_of_app, elem_of_cons. tauto.
Qed.

(** In a calm run, the loop over the entries of [p] gets to any entry that
    exists when the listing is taken: the entries before it are processed
    without an exception, then the entry's own body runs, then the rest. *)
Lemma walk_reaches n E N src dst p x0 w w' :
  calm E -> src `prefix_of` p -> layout N src dst (w_fs w) ->
  is_dir (w_fs w) p = true -> is_Some (w_fs w !! (p ++ [x0])) ->
  copy_and_sort (S n) E p dst w = Some w' ->
  exists pre wp w2 post r w1,
    (forall item, item ∈ pre ++ post -> exists x, item = p ++ [x]) /\
    ~ (p ++ [x0]) ∈ pre /\
    for_items (fun item => copy_and_sort n E item dst) E dst pre
      (record (Enter p) w) = Some (Ok tt, wp) /\
    loop_body (fun item => copy_and_sort n E item dst) E dst (p ++ [x0]) wp
      = Some (Ok tt, w2) /\
    for_items (fun item => copy_and_sort n E item dst) E dst post w2
      = Some (r, w1) /\
    w_fs w' = w_fs w1.
Proof.
  intros HE Hsrc Hlay Hp Hx0. rewrite copy_and_sort_S.
  rewrite (iterdir_calm E _ _ HE Hp).
  set (items := (fun n => p ++ [n]) <$> list_order E p (children (w_fs w) p)).
  assert (p ++ [x0] ∈ items) as Hin.
  { apply list_elem_of_fmap. exists x0. split; [done|].
    rewrite (calm_order E HE). by apply elem_of_children. }
  apply list_elem_of_split_l in Hin as (pre & post & Hsplit & Hnotin).
  assert (forall item, item ∈ pre ++ (p ++ [x0]) :: post ->
            exists x, item = p ++ [x]) as Hchildren.
  { intros item. rewrite <- Hsplit.
    intros (x & -> & _)%list_elem_of_fmap. eauto. }
  assert (forall item, item ∈ pre ++ (p ++ [x0]) :: post -> below src item)
    as Hbelow.
  { intros item [x ->]%Hchildren.
    destruct Hsrc as [k ->]. exists (k ++ [x]).
    split; [by destruct k | by rewrite app_assoc]. }
  rewrite Hsplit.
  destruct (for_items _ E dst (pre ++ _ :: post) _) as [[r w1]|] eqn:Hloop;
    [|done].
  intros Hw'.
  assert (w_fs w' = w_fs w1) as Hfs by (destruct r; by injection Hw' as <-).
  rewrite for_items_app in Hloop.
  destruct (for_items _ E dst pre _) as [[rp wp]|] eqn:Hpre; [|done].
  assert (forall item, item ∈ pre -> below src item) as Hbpre
    by (intros item Hitem; apply Hbelow; set_solver).
  assert (rp = Ok tt) as ->
    by exact (for_items_no_abort n E N src dst pre (record (Enter p) w) _ _
                HE Hlay Hbpre Hpre).
  simpl in Hloop.
  destruct (loop_body _ E dst (p ++ [x0]) wp) as [[r0 w2]|] eqn:Hbody;
    [|done].
  assert (layout N src dst (w_fs wp)) as Hlayp.
  { eapply layout_steps; [|exact (for_items_steps _ _ _ _ _ _ _ Hpre)|done].
    intros s. by apply under_below. }
  assert (below src (p ++ [x0])) as Hbx0 by (apply Hbelow; set_solver).
  assert (r0 = Ok tt) as ->
    by exact (loop_body_no_abort _ E N src dst _ _ _ _ HE Hlayp Hbx0 Hbody).
  exists pre, wp, w2, post, r, w1. repeat split; try done.
  intros item Hitem. by apply Hchildren, elem_of_middle.
Qed.

Lemma body_enters n E dst item w w2 :
  is_dir (w_fs w) item = true -> resolve E item <> resolve E dst ->
  loop_body (fun item => copy_and_sort n E item dst) E dst item w
    = Some (Ok tt, w2) ->
  copy_and_sort n E item dst w = Some w2.
Proof.
  intros Hd Hne. unfold loop_body. rewrite Hd.
  destruct (decide _); [done|].
  destruct (copy_and_sort n E item dst w); [|done]. by intros [= <-].
Qed.

(** A regular file [p ++ rel ++ [nm]] reached from [p] through directories
    none of which is the destination root ends at its target; whenever the
    walk of [p] returns. *)
Lemma sorted_along_chain E N src dst :
  calm E ->
  forall (rel : list string) n p w w' nm,
  src `prefix_of` p ->
  layout N src dst (w_fs w) ->
  (forall j, j <= length rel -> is_dir (w_fs w) (p ++ take j rel) = true) ->
  (forall j, 0 < j <= length rel -> p ++ take j rel <> dst) ->
  is_file (w_fs w) (p ++ rel ++ [nm]) = true ->
  copy_and_sort n E p dst w = Some w' ->
  is_file (w_fs w') (target_of dst (p ++ rel ++ [nm])) = true /\
  (p ++ rel ++ [nm] <> target_of dst (p ++ rel ++ [nm]) ->
   w_fs w' !! (p ++ rel ++ [nm]) = None).
Proof.
  intros HE rel.
  induction rel as [|x0 rel IH]; intros n p w w' nm Hsrc Hlay Hchain Havoid
    Hf Hrun; (destruct n as [|n]; [done|]).
  - (* the file is an entry of [p] *)
    simpl app in *.
    assert (is_dir (w_fs w) p = true) as Hp
      by (specialize (Hchain 0); simpl in Hchain; rewrite app_nil_r in Hchain;
          apply Hchain; lia).
    destruct (walk_reaches n E N src dst p nm w w' HE Hsrc Hlay Hp)
      as (pre & wp & w2 & post & r & w1 & Hch & Hnotin & Hpre & Hbody
          & Hpost & Hfs); [by apply is_file_Some in Hf as [c ->]|done|].
    assert (forall item, item ∈ pre ++ post -> below src item) as Hbelow.
    { intros item [x ->]%Hch. eapply below_trans_prefix; [|done].
      destruct Hsrc as [k ->]. exists (k ++ [x]).
      split; [by destruct k | by rewrite app_assoc]. }
    pose proof (for_items_steps _ _ _ _ _ _ _ Hpre) as Hsteps1.
    pose proof (for_items_steps _ _ _ _ _ _ _ Hpost) as Hsteps2.
    assert (layout N src dst (w_fs wp)) as Hlayp.
    { eapply layout_steps; [|exact Hsteps1|done].
      intros s. apply under_below. intros item Hitem. apply Hbelow.
      apply elem_of_app. by left. }
    assert (is_file (w_fs wp) (p ++ [nm]) = true) as Hfp.
    { eapply steps_file_stays; [exact Hsteps1| |done].
      intros (item & Hin & Hitem%src_of_prefix).
      destruct (Hch item) as [x ->]; [apply elem_of_app; by left|].
      by rewrite (child_prefix_inj p x nm (p ++ [nm]) Hitem) in Hin. }
    assert (below src (p ++ [nm])) as Hbq.
    { destruct Hsrc as [k ->]. exists (k ++ [nm]).
      split; [by destruct k | by rewrite app_assoc]. }
    destruct (loop_body_file_calm (fun item => copy_and_sort n E item dst)
      E N src dst (p ++ [nm]) wp HE Hlayp Hbq Hfp) as (w2' & Hbody' & Ht & Hq).
    rewrite Hbody in Hbody'. injection Hbody' as <-.
    assert (layout N src dst (w_fs w2)) as Hlay2.
    { eapply layout_steps; [|eapply (body_steps_walk _ _ _ (below src));
                              [|exact Hbody]|done]; [done|].
      intros s Hs%src_of_prefix. by eapply below_trans_prefix. }
    rewrite Hfs. split.
    + by eapply steps_target_stays.
    + intros Hne. eapply (steps_absent N src dst); [|exact Hsteps2|done| | |done|auto].
      * intros s. apply under_below. intros item Hitem. apply Hbelow.
        apply elem_of_app. by right.
      * intros Hpre'. destruct Hlay as (Hdirs & _ & _).
        apply Hdirs, is_dir_Some in Hpre'.
        apply is_file_Some in Hf as [c Hc]. congruence.
      * intros n' Hn' Heq. destruct Hlay as (_ & _ & Hok).
        destruct (Hok _ Hn') as [[Hnone|Hd%is_dir_Some] _];
          apply is_file_Some in Hf as [c Hc]; congruence.
  - (* the file is below the entry [x0] of [p] *)
    assert (p ++ (x0 :: rel) ++ [nm] = (p ++ [x0]) ++ rel ++ [nm]) as Hq
      by (by rewrite <- app_assoc).
    rewrite Hq in *.
    assert (is_dir (w_fs w) p = true) as Hp
      by (specialize (Hchain 0); simpl in Hchain; rewrite app_nil_r in Hchain;
          apply Hchain; lia).
    assert (forall j, j <= length rel ->
              is_dir (w_fs w) ((p ++ [x0]) ++ take j rel) = true) as Hchain'.
    { intros j Hj. specialize (Hchain (S j)). simpl in Hchain.
      rewrite <- app_assoc. apply Hchain. lia. }
    assert (is_dir (w_fs w) (p ++ [x0]) = true) as Hx0
      by (specialize (Hchain' 0); simpl in Hchain';
          rewrite app_nil_r in Hchain'; apply Hchain'; lia).
    destruct (walk_reaches n E N src dst p x0 w w' HE Hsrc Hlay Hp)
      as (pre & wp & w2 & post & r & w1 & Hch & Hnotin & Hpre & Hbody
          & Hpost & Hfs); [by apply is_dir_Some in Hx0 as ->|done|].
    assert (forall item, item ∈ pre ++ post -> below src item) as Hbelow.
    { intros item [x ->]%Hch. eapply below_trans_prefix; [|done].
      destruct Hsrc as [k ->]. exists (k ++ [x]).
      split; [by destruct k | by rewrite app_assoc]. }
    pose proof (for_items_steps _ _ _ _ _ _ _ Hpre) as Hsteps1.
    pose proof (for_items_steps _ _ _ _ _ _ _ Hpost) as Hsteps2.
    assert (layout N src dst (w_fs wp)) as Hlayp.
    { eapply layout_steps; [|exact Hsteps1|done].
      intros s. apply under_below. intros item Hitem. apply Hbelow.
      apply elem_of_app. by left. }
    assert (is_file (w_fs wp) ((p ++ [x0]) ++ rel ++ [nm]) = true) as Hfp.
    { eapply steps_file_stays; [exact Hsteps1| |done].
      intros (item & Hin & Hitem%src_of_prefix).
      destruct (Hch item) as [x ->]; [apply elem_of_app; by left|].
      assert (p ++ [x0] `prefix_of` (p ++ [x0]) ++ rel ++ [nm]) as Hx
        by by eexists.
      by rewrite (child_prefix_inj p x x0 _ Hitem Hx) in Hin. }
    assert (src `prefix_of` p ++ [x0]) as Hsrc'
      by (trans p; [done | by eexists]).
    assert (p ++ [x0] <> dst) as Hnd.
    { specialize (Havoid 1). simpl in Havoid. apply Havoid. lia. }
    assert (copy_and_sort n E (p ++ [x0]) dst wp = Some w2) as Hrec.
    { eapply body_enters; [| |exact Hbody].
      - eapply steps_is_dir; [exact Hsteps1|done].
      - intros Heq. by apply (calm_resolve E HE) in Heq. }
    destruct (IH n (p ++ [x0]) wp w2 nm) as [Ht Hgone]; try done.
    { intros j Hj. eapply steps_is_dir; [exact Hsteps1|]. by apply Hchain'. }
    { intros j Hj. specialize (Havoid (S j)). simpl in Havoid.
      rewrite <- app_assoc. apply Havoid. lia. }
    assert (layout N src dst (w_fs w2)) as Hlay2.
    { eapply layout_steps; [|exact (copy_and_sort_steps _ _ _ _ _ _ Hrec)|done].
      intros s Hs%walked_below. by eapply prefix_below_trans. }
    rewrite Hfs. split.
    + by eapply steps_target_stays.
    + intros Hne. eapply (steps_absent N src dst); [|exact Hsteps2|done| | |done|auto].
      * intros s. apply under_below. intros item Hitem. apply Hbelow.
        apply elem_of_app. by right.
      * intros Hpre'. destruct Hlay as (Hdirs & _ & _).
        apply Hdirs, is_dir_Some in Hpre'.
        apply is_file_Some in Hf as [c Hc]. congruence.
      * intros n' Hn' Heq. destruct Hlay as (_ & _ & Hok).
        destruct (Hok _ Hn') as [[Hnone|Hd%is_dir_Some] _];
          apply is_file_Some in Hf as [c Hc]; congruence.
Qed.

(** ** Checkable preconditions *)

Lemma is_prefix_spec p q : is_prefix p q = true <-> p `prefix_of` q.
Proof.
  unfold is_prefix. destruct (strip_prefix p q) as [k|] eqn:Hk.
  - apply strip_prefix_Some in Hk. split; [by exists k | done].
  - split; [done|]. intros [k Hk']. apply strip_prefix_Some in Hk'. congruence.
Qed.

Lemma is_below_spec p q : is_below p q = true <-> below p q.
Proof.
  unfold is_below. destruct (strip_prefix p q) as [k|] eqn:Hk.
  - apply strip_prefix_Some in Hk. subst q. destruct k as [|a k].
    + split; [done|]. intros (k & Hk & Heq).
      rewrite app_nil_r in Heq. rewrite <- (app_nil_r p) in Heq at 1.
      apply app_inv_head in Heq. by subst k.
    + split; [|done]. intros _. by exists (a :: k).
  - split; [done|]. intros (k & _ & Hk'). apply strip_prefix_Some in Hk'.
    congruence.
Qed.

Lemma names_okb_spec dst fs n : names_okb dst fs n = true -> names_ok dst fs n.
Proof.
  unfold names_okb, names_ok, exists_.
  intros [Hb Ht%negb_true_iff]%andb_true_iff. split; [|done].
  apply orb_true_iff in Hb as [Hb|Hb]; [left | by right].
  by destruct (fs !! _).
Qed.

Lemma forallb_seq_le (f : nat -> bool) n j :
  forallb f (seq 0 (S n)) = true -> j <= n -> f j = true.
Proof.
  intros Hall Hj. rewrite forallb_forall in Hall. apply Hall.
  apply in_seq. lia.
Qed.

Lemma dst_ready_spec dst fs r :
  dst_ready dst fs = true -> r `prefix_of` dst -> is_dir fs r = true.
Proof.
  intros Hchain [k ->].
  replace r with (take (length r) (r ++ k)) by by rewrite take_app_length.
  apply (forallb_seq_le _ _ _ Hchain). rewrite length_app. lia.
Qed.

Lemma sortable_layout src dst fs :
  sortable src dst fs = true ->
  layout (fun n => exists s, below src s /\ is_file fs s = true /\ name s = n)
    src dst fs.
Proof.
  intros [Hchain Hfiles]%andb_true_iff. split; [|split].
  - intros r. by apply dst_ready_spec.
  - intros s Hs Hf. eauto.
  - intros n (s & Hs & [c Hc]%is_file_Some & <-).
    rewrite forallb_forall in Hfiles.
    specialize (Hfiles (s, File c)). simpl in Hfiles.
    apply is_below_spec in Hs. rewrite Hs in Hfiles. simpl in Hfiles.
    apply names_okb_spec, Hfiles.
    apply list_elem_of_In, elem_of_map_to_list. done.
Qed.

Lemma chain_dirs_spec src rel fs j :
  chain_dirs src rel fs = true -> j <= length rel ->
  is_dir fs (src ++ take j rel) = true.
Proof. intros H. by apply (forallb_seq_le _ _ _ H). Qed.

Lemma copy_and_sort_enters n E p dst w w' :
  copy_and_sort n E p dst w = Some w' ->
  exists tr, w_calls w' = w_calls w ++ Enter p :: tr.
Proof.
  destruct n as [|n]; [done|]. rewrite copy_and_sort_S.
  destruct (iterdir E (w_fs w) p) as [items|e];
    [|intros [= <-]; by exists []].
  destruct (for_items _ _ _ _ _) as [[r w1]|] eqn:Hloop; [|done].
  intros Hw'.
  assert (w_calls w' = w_calls w1) as -> by (destruct r; by injection Hw' as <-).
  eapply (for_items_inv _ _ _
    (fun _ w1 => exists tr, w_calls w1 = w_calls w ++ Enter p :: tr))
    in Hloop as (_ & _ & _ & H & _); [done|by exists []|].
  intros pre item rest w2 r1 w3 Heq [tr Htr] Hbody.
  eapply (loop_body_calls _ _ _ (fun _ => True)) in Hbody as (tr' & Htr' & _).
  - exists (tr ++ tr'). by rewrite Htr', Htr, <- app_assoc.
  - intros w4 _ _ Hrec.
    destruct (copy_and_sort_calls _ _ _ _ _ _ Hrec) as (tr' & -> & _).
    exists tr'. split; [done|]. by apply Forall_forall.
  - done.
Qed.

Lemma plain_env_calm : calm Examples.plain_env.
Proof. by split. Qed.

(** When the source is a directory and the destination root is there or can
    be created, [main] is the walk, started in the map that [mkdir] leaves,
    followed by the completion notice. *)
Lemma main_runs_walk m E source destination w fs1 u :
  is_dir (w_fs w) (resolve E source) = true ->
  mkdir E (resolve E destination) (w_fs w) = (fs1, Ok u) ->
  main m E source destination w =
    match copy_and_sort m E (resolve E source) (resolve E destination)
            (set_fs fs1 w) with
    | Some w' => Some (print Completed w')
    | None => None
    end.
Proof.
  intros Hsrc Hmk. unfold main, exists_. rewrite Hsrc.
  apply is_dir_Some in Hsrc. rewrite Hsrc. simpl. by rewrite Hmk.
Qed.

(** ** Failures *)

Lemma grows_lookup (P : path -> Prop) fs fs' q :
  grows P fs fs' ->
  fs' !! q = fs !! q \/ (fs !! q = None /\ fs' !! q = Some Dir /\ P q).
Proof.
  induction 1 as [|fs q' fs' Hq' HP _ IH]; [by left|].
  destruct (decide (q' = q)) as [->|Hne].
  - right. split; [done|]. split; [|done].
    destruct IH as [->|[Hnone _]]; [apply lookup_insert_eq|].
    by rewrite lookup_insert_eq in Hnone.
  - rewrite lookup_insert_ne in IH by done. done.
Qed.

Lemma for_items_snoc_body rec E dst pre item rest w wp r1 w1 :
  for_items rec E dst pre w = Some (Ok tt, wp) ->
  loop_body rec E dst item wp = Some (r1, w1) ->
  for_items rec E dst (pre ++ item :: rest) w =
    match r1 with
    | Ok _ => for_items rec E dst rest w1
    | Err e => Some (Err e, w1)
    end.
Proof.
  intros Hpre Hbody. rewrite for_items_app, Hpre. simpl. by rewrite Hbody.
Qed.


(** ** Recursion depth *)

Lemma depth_below_ge fs p k :
  is_dir fs (p ++ k) = true -> length k <= depth_below fs p.
Proof.
  intros Hq%elem_of_dirs. apply max_list_elem_of_le.
  apply list_elem_of_fmap. exists (p ++ k). split; [|done].
  by rewrite (proj2 (strip_prefix_Some p (p ++ k) k)).
Qed.

Lemma max_list_lt (l : list nat) d :
  0 < d -> (forall x, x ∈ l -> x < d) -> max_list l < d.
Proof.
  intros Hd. induction l as [|a l IH]; intros Hl; simpl; [done|].
  assert (a < d) by (apply Hl; set_solver).
  assert (max_list l < d) by (apply IH; intros; apply Hl; set_solver).
  lia.
Qed.

Lemma depth_below_child fs p x :
  is_dir fs (p ++ [x]) = true ->
  depth_below fs (p ++ [x]) < depth_below fs p.
Proof.
  intros Hx. pose proof (depth_below_ge fs p [x] Hx) as H1. simpl in H1.
  apply max_list_lt; [lia|].
  intros d (q & -> & Hq%elem_of_dirs)%list_elem_of_fmap.
  destruct (strip_prefix (p ++ [x]) q) as [k|] eqn:Hk; [|lia].
  apply strip_prefix_Some in Hk. subst q. rewrite <- app_assoc in Hq.
  apply depth_below_ge in Hq. simpl in Hq. lia.
Qed.

Section depth.
Context (E : env) (dst : path) (fs0 : fsmap).
Hypothesis Horder : forall p l, list_order E p l ≡ₚ l.

Lemma dirs_known_steps (R : path -> Prop) fs fs' :
  rtc (fs_step dst R) fs fs' ->
  dirs_known dst fs0 fs -> dirs_known dst fs0 fs'.
Proof.
  intros Hsteps [Hchain Hdirs]. split.
  - intros r Hr. eapply steps_is_dir; [done | by apply Hchain].
  - intros q Hq.
    destruct (steps_new_dir _ _ _ _ _ Hsteps Hq) as [Hq0|[e He]]; [auto|].
    apply prefix_snoc in He as [Hpre| ->]; [|eauto].
    apply Hdirs. by apply Hchain.
Qed.

Lemma NoDup_items fs p :
  NoDup ((fun n => p ++ [n]) <$> list_order E p (children fs p)).
Proof.
  apply NoDup_fmap_2; [by intros x y Hxy%app_inv_head; injection Hxy|].
  rewrite Horder. apply NoDup_children.
Qed.

Lemma copy_and_sort_total_depth n p w :
  dirs_known dst fs0 (w_fs w) ->
  (forall x, is_dir (w_fs w) (p ++ [x]) = true -> is_dir fs0 (p ++ [x]) = true) ->
  depth_below fs0 p <= n ->
  exists w', copy_and_sort (S n) E p dst w = Some w'.
Proof.
  revert p w. induction n as [n IH] using lt_wf_ind. intros p w HG HC Hn.
  rewrite copy_and_sort_S.
  destruct (iterdir E (w_fs w) p) as [items|e] eqn:Hit; [|eauto].
  apply iterdir_Ok in Hit as [Hp Hitems].
  assert (NoDup items) as Hnd by (rewrite Hitems; apply NoDup_items).
  destruct (for_items_total (fun item => copy_and_sort n E item dst) E dst
    (fun pre w1 => rtc (fs_step dst (under dst pre)) (w_fs w) (w_fs w1))
    items (record (Enter p) w)) as (r & w' & ->);
    [apply rtc_refl| |destruct r; eauto].
  intros pre item rest w1 Heq Hsteps.
  assert (item ∈ items) as Hin by (rewrite Heq; set_solver).
  rewrite Hitems in Hin.
  apply list_elem_of_fmap in Hin as (x & -> & Hx).
  rewrite Horder in Hx. apply elem_of_children in Hx.
  assert (~ under dst pre (p ++ [x])) as Hnot.
  { intros (it & Hit & Hpre%src_of_prefix).
    assert (it ∈ items) as Hit' by (rewrite Heq; set_solver).
    rewrite Hitems in Hit'.
    apply list_elem_of_fmap in Hit' as (y & -> & _).
    assert (p ++ [x] `prefix_of` p ++ [x]) as Hrefl by done.
    rewrite (child_prefix_inj p y x _ Hpre Hrefl) in Hit.
    rewrite Heq in Hnd. apply NoDup_app in Hnd as (_ & Hdisj & _).
    apply (Hdisj _ Hit). set_solver. }
  destruct (loop_body_total E dst (fun item => copy_and_sort n E item dst)
    (p ++ [x]) w1) as (r1 & w2 & Hb).
  { intros Hd Hne.
    assert (is_dir fs0 (p ++ [x]) = true) as Hd0.
    { apply HC. by apply (steps_keep _ _ _ _ _ Hsteps Hnot Hx). }
    pose proof (depth_below_child _ _ _ Hd0) as Hlt.
    destruct n as [|n']; [lia|].
    apply IH; [lia| | |lia].
    - by eapply dirs_known_steps.
    - intros y Hy.
      destruct (dirs_known_steps _ _ _ Hsteps HG) as [_ Hdirs].
      destruct (Hdirs _ Hy) as [|[e He]]; [done|].
      apply app_inj_tail in He as [Heq' _]. by rewrite Heq' in Hne. }
  exists r1, w2. split; [done|]. etrans.
  - eapply fs_steps_mono; [|exact Hsteps].
    intros s (it & Hit & Hs). exists it. split; [set_solver | done].
  - eapply body_steps_walk; [|exact Hb].
    intros s Hs. exists (p ++ [x]). split; [set_solver | done].
Qed.

End depth.

(** ** Contents *)

Lemma unique_name_spec src nm q fs s :
  unique_name src nm q fs = true ->
  below src s -> is_file fs s = true -> name s = nm -> s = q.
Proof.
  intros Hall Hs [c Hc]%is_file_Some Hn. unfold unique_name in Hall.
  rewrite forallb_forall in Hall. specialize (Hall (s, File c)). simpl in Hall.
  apply is_below_spec in Hs. rewrite Hs, Hn, String.eqb_refl in Hall.
  simpl in Hall. apply bool_decide_eq_true in Hall; [done|].
  by apply list_elem_of_In, elem_of_map_to_list.
Qed.

Lemma sole_holder_mkdir (src : path) (nm c : string) (fs : fsmap)
    (g q : path) :
  fs !! q = None ->
  sole_holder src nm c fs g -> sole_holder src nm c (<[q := Dir]> fs) g.
Proof.
  intros Hq [Hc Huniq]. split.
  - rewrite lookup_insert_ne; [done | congruence].
  - intros s' Hs' [c' Hc']%is_file_Some Hn'. apply Huniq; try done.
    apply is_file_Some. exists c'.
    destruct (decide (q = s')) as [->|?].
    + by rewrite lookup_insert_eq in Hc'.
    + by rewrite lookup_insert_ne in Hc'.
Qed.

(** Renaming another file below [src] leaves the holder alone: that file has
    another name, and so has its target. *)
Lemma sole_holder_other (src : path) (nm c : string) (fs : fsmap)
    (g s : path) (c' : string) (t : path) :
  below src s -> fs !! s = Some (File c') -> name t = name s ->
  name g = nm -> s <> g ->
  sole_holder src nm c fs g ->
  sole_holder src nm c (<[t := File c']> (delete s fs)) g.
Proof.
  intros Hs Hsc Hts Hg Hsg [Hc Huniq].
  assert (name s <> nm) as Hns.
  { intros Hn. apply Hsg, Huniq; [done| |done]. apply is_file_Some. eauto. }
  assert (t <> g) as Htg by (intros ->; congruence).
  split.
  - rewrite lookup_insert_ne by done. by rewrite lookup_delete_ne.
  - intros s' Hs' [c'' Hc'']%is_file_Some Hn'.
    destruct (decide (t = s')) as [<-|Hne]; [congruence|].
    rewrite lookup_insert_ne in Hc'' by done.
    apply lookup_delete_Some in Hc'' as [_ Hc''].
    apply Huniq; try done. apply is_file_Some. eauto.
Qed.

(** Renaming the holder makes its target the holder. *)
Lemma sole_holder_moved (src : path) (nm c : string) (fs : fsmap)
    (g t : path) :
  sole_holder src nm c fs g ->
  sole_holder src nm c (<[t := File c]> (delete g fs)) t.
Proof.
  intros [Hc Huniq]. split; [apply lookup_insert_eq|].
  intros s' Hs' [c'' Hc'']%is_file_Some Hn'.
  destruct (decide (t = s')) as [<-|Hne]; [done|].
  rewrite lookup_insert_ne in Hc'' by done.
  apply lookup_delete_Some in Hc'' as [Hgs Hc''].
  exfalso. apply Hgs. symmetry. apply Huniq; try done.
  apply is_file_Some. eauto.
Qed.

Lemma sole_holder_step (N : string -> Prop) (src dst : path)
    (R : path -> Prop) (nm c : string) (fs fs' : fsmap) (h : path) :
  (forall s, R s -> below src s) ->
  layout N src dst fs -> name h = nm ->
  fs_step dst R fs fs' ->
  sole_holder src nm c fs h \/ sole_holder src nm c fs (target_of dst h) ->
  sole_holder src nm c fs' h \/ sole_holder src nm c fs' (target_of dst h).
Proof.
  intros HR (_ & HN & Hok) Hnm Hstep Hhold.
  destruct Hstep as [fs s q' _ _ Hq' _|fs s c' t HRs Hs Hdir _ Htgt Hne].
  { destruct Hhold; [left | right]; by apply sole_holder_mkdir. }
  assert (t = target_of dst s) as Ht.
  { destruct Htgt as [|[_ Hd]]; [done|].
    assert (N (name s)) as Hn
      by (apply HN; [auto | apply is_file_Some; eauto]).
    destruct (Hok _ Hn) as [_ Hnd]. unfold target_of in Hd. congruence. }
  assert (name t = name s) as Hts by (rewrite Ht; apply name_target_of).
  destruct Hhold as [Hhold|Hhold].
  - destruct (decide (s = h)) as [->|Hsh].
    + right. rewrite <- Ht.
      destruct Hhold as [Hc Huniq]. rewrite Hc in Hs. injection Hs as <-.
      by apply sole_holder_moved.
    + left. eapply sole_holder_other; eauto.
  - right. destruct (decide (s = target_of dst h)) as [->|Hsh].
    + exfalso. apply Hne. rewrite Ht. symmetry.
      apply target_of_name, name_target_of.
    + eapply sole_holder_other; eauto. by rewrite name_target_of.
Qed.

Lemma sole_holder_steps (N : string -> Prop) (src dst : path)
    (R : path -> Prop) (nm c : string) (fs fs' : fsmap) (h : path) :
  (forall s, R s -> below src s) ->
  name h = nm ->
  rtc (fs_step dst R) fs fs' ->
  layout N src dst fs ->
  sole_holder src nm c fs h \/ sole_holder src nm c fs (target_of dst h) ->
  sole_holder src nm c fs' h \/ sole_holder src nm c fs' (target_of dst h).
Proof.
  intros HR Hnm. induction 1 as [|fs fs1 fs' Hstep _ IH]; [done|].
  intros Hlay Hhold. apply IH.
  - by eapply layout_step.
  - by eapply sole_holder_step.
Qed.

(** When the name of a file is unique among the regular files below the
    source, the file found at its target after the walk has its content. *)
Lemma content_kept E (src dst : path) w w' (q : path) (c : string) m :
  sortable src dst (w_fs w) = true ->
  (forall s, below src s -> is_file (w_fs w) s = true -> name s = name q ->
     s = q) ->
  w_fs w !! q = Some (File c) ->
  copy_and_sort m E src dst w = Some w' ->
  (q <> target_of dst q -> w_fs w' !! q = None) ->
  w_fs w' !! target_of dst q = Some (File c).
Proof.
  intros Hsort Huniq Hc Hrun Hgone.
  destruct (sole_holder_steps
              (fun n => exists s, below src s /\ is_file (w_fs w) s = true
                                  /\ name s = n)
              src dst (walked dst src) (name q) c
              (w_fs w) (w_fs w') q) as [[Hq _]|[Ht _]].
  - apply walked_below.
  - done.
  - by eapply copy_and_sort_steps.
  - by apply sortable_layout.
  - by left.
  - destruct (decide (q = target_of dst q)) as [<-|Hne]; [done|].
    rewrite Hgone in Hq; done.
  - done.
Qed.

(** The common core of C1 and C10.  [fs1] is the map in which the walk
    starts, once [main] has made sure of the destination root.  In a calm
    run, when [fs1] is sortable, a regular file reached from the source
    through directories other than the destination root ends at its target;
    its original path is empty unless it is the target itself; and it keeps
    its content when its name is unique below the source. *)
Lemma main_file_sorted E source destination w fs1 rel nm m :
  let src := resolve E source in
  let dst := resolve E destination in
  let q := src ++ rel ++ [nm] in
  calm E ->
  mkdir E dst (w_fs w) = (fs1, Ok tt) ->
  sortable src dst fs1 = true ->
  chain_dirs src rel (w_fs w) = true ->
  (forall j, 0 < j <= length rel -> src ++ take j rel <> dst) ->
  is_file (w_fs w) q = true ->
  walk_fuel fs1 src dst <= m ->
  exists w' tr, main m E source destination w = Some w' /\
    w_calls w' = w_calls w ++ Enter src :: tr /\
    is_file (w_fs w') (target_of dst q) = true /\
    (q <> target_of dst q -> w_fs w' !! q = None) /\
    (unique_name src nm q (w_fs w) = true ->
     w_fs w' !! target_of dst q = w_fs w !! q).
Proof.
  intros src dst q HE Hmk Hsort Hchain Havoid Hf Hm.
  pose proof (mkdir_grows _ _ _ _ _ Hmk) as Hg.
  destruct (copy_and_sort_total E src dst (set_fs fs1 w) m Hm) as [w1 Hrun].
  destruct (copy_and_sort_enters _ _ _ _ _ _ Hrun) as [tr Htr].
  assert (is_file fs1 q = true) as Hf1.
  { apply is_file_Some in Hf as [c Hc]. apply is_file_Some. exists c.
    by eapply grows_lookup_Some. }
  destruct (sorted_along_chain E
              (fun n => exists s, below src s /\ is_file fs1 s = true
                                  /\ name s = n)
              src dst HE rel m src (set_fs fs1 w) w1 nm)
    as [Ht Hgone]; try done.
  { by apply sortable_layout. }
  { intros j Hj. eapply grows_is_dir; [done|]. by apply chain_dirs_spec. }
  exists (print Completed w1), tr. split; [|split; [done|]].
  - rewrite (main_runs_walk m E source destination w fs1 tt); [| |done].
    + fold src. fold dst. by rewrite Hrun.
    + apply (chain_dirs_spec src rel _ 0) in Hchain; [|lia].
      simpl in Hchain. by rewrite app_nil_r in Hchain.
  - simpl. split; [done|]. split; [done|].
    intros Huniq. apply is_file_Some in Hf as [c Hc]. rewrite Hc.
    eapply (content_kept E src dst (set_fs fs1 w)); [done| | |done|done].
    + intros s Hs [c' Hc']%is_file_Some Hn.
      apply (unique_name_spec src nm q (w_fs w)); [done|done| |].
      * apply is_file_Some. exists c'.
        destruct (grows_lookup _ _ _ s Hg) as [<-|(_ & ? & _)]; [done|].
        simpl in Hc'. congruence.
      * rewrite Hn. unfold q. by rewrite app_assoc, name_child.
    + simpl. by eapply grows_lookup_Some.
Qed.

(** ** More on file names *)

Module SuffixFacts.
Import Names.
Local Open Scope Z_scope.

Lemma rfind_from_absent_inv c s i :
  0 <= i -> rfind_from c s i = -1 -> has_char c s = false.
Proof.
  revert i. induction s as [|a s IH]; intros i Hi; simpl; [done|].
  destruct (NamesFacts.rfind_from_range c s (i + 1)) as [Hr|Hr].
  - rewrite Hr. simpl. destruct (Ascii.eqb a c); [lia|].
    intros _. simpl. by apply (IH (i + 1)); [lia|].
  - destruct (Z.leb_spec 0 (rfind_from c s (i + 1))); [lia|lia].
Qed.

Lemma rfind_from_slice c s i :
  0 <= i -> i <= rfind_from c s i ->
  exists rest, slice_from (Z.to_nat (rfind_from c s i - i)) s = String c rest /\
    has_char c rest = false.
Proof.
  revert i. induction s as [|a s IH]; intros i Hi; simpl; [lia|].
  destruct (NamesFacts.rfind_from_range c s (i + 1)) as [Hr|Hr].
  - rewrite Hr. simpl. destruct (Ascii.eqb_spec a c) as [->|]; [|lia].
    intros _. rewrite Z.sub_diag. simpl. exists s. split; [done|].
    by apply (rfind_from_absent_inv c s (i + 1)); [lia|].
  - destruct (Z.leb_spec 0 (rfind_from c s (i + 1))); [|lia].
    intros _. destruct (IH (i + 1)) as (rest & Hrest & Hno); [lia|lia|].
    exists rest. split; [|done].
    replace (Z.to_nat (rfind_from c s (i + 1) - i))
      with (S (Z.to_nat (rfind_from c s (i + 1) - (i + 1)))) by lia.
    done.
Qed.

Lemma slice_from_length k s :
  String.length (slice_from k s) = (String.length s - k)%nat.
Proof.
  revert s. induction k as [|k IH]; intros s; simpl; [lia|].
  destruct s as [|a s]; simpl; [done|]. apply IH.
Qed.

(** [suffix] is empty, or a dot followed by a non-empty text without dot. *)
Lemma suffix_cases n :
  suffix n = "" \/
  exists rest, suffix n = String "." rest /\ rest <> "" /\
    has_char "." rest = false.
Proof.
  unfold suffix, rfind.
  destruct (Z.ltb_spec 0 (rfind_from "." n 0)) as [Hpos|]; [|by left].
  destruct (Z.ltb_spec (rfind_from "." n 0) (len n - 1)) as [Hlt|]; [|by left].
  right. simpl.
  destruct (rfind_from_slice "." n 0) as (rest & Hrest & Hno); [lia|lia|].
  rewrite Z.sub_0_r in Hrest. exists rest. split; [done|]. split; [|done].
  intros ->. apply (f_equal String.length) in Hrest.
  rewrite slice_from_length in Hrest. unfold len in Hlt. simpl in Hrest. lia.
Qed.

Lemma lower_ascii_idem a : lower_ascii (lower_ascii a) = lower_ascii a.
Proof. destruct a as [[] [] [] [] [] [] [] []]; reflexivity. Qed.

Lemma lower_idem s : lower (lower s) = lower s.
Proof. induction s as [|a s IH]; simpl; [done|]. by rewrite lower_ascii_idem, IH. Qed.

Lemma lower_ascii_eqb_dot a : Ascii.eqb (lower_ascii a) "." = Ascii.eqb a ".".
Proof. destruct a as [[] [] [] [] [] [] [] []]; reflexivity. Qed.

Lemma rfind_from_lower s i : rfind_from "." (lower s) i = rfind_from "." s i.
Proof.
  revert i. induction s as [|a s IH]; intros i; simpl; [done|].
  by rewrite IH, lower_ascii_eqb_dot.
Qed.

Lemma length_lower s : String.length (lower s) = String.length s.
Proof. induction s as [|a s IH]; simpl; [done|]. by rewrite IH. Qed.

Lemma slice_from_lower k s : slice_from k (lower s) = lower (slice_from k s).
Proof.
  revert s. induction k as [|k IH]; intros s; simpl; [done|].
  destruct s as [|a s]; simpl; [done|]. apply IH.
Qed.

Lemma suffix_lower n : suffix (lower n) = lower (suffix n).
Proof.
  unfold suffix, rfind, len. rewrite rfind_from_lower, length_lower.
  destruct (_ && _); [apply slice_from_lower | done].
Qed.

Lemma lower_not_empty s : s <> "" -> lower s <> "".
Proof. by destruct s. Qed.

End SuffixFacts.

Lemma bucket_name_cases n :
  Names.bucket_name n = "no_extension" \/
  exists rest, Names.suffix n = String "." rest /\ rest <> "" /\
    Names.has_char "." rest = false /\
    Names.bucket_name n = Names.lower rest.
Proof.
  unfold Names.bucket_name.
  destruct (SuffixFacts.suffix_cases n) as [->|(rest & -> & Hne & Hno)];
    [by left|].
  right. exists rest. split; [done|]. split; [done|]. split; [done|].
  change (Names.lower (String "." rest)) with (String "." (Names.lower rest)).
  change (Names.lstrip "." (String "." ?s)) with (Names.lstrip "." s).
  rewrite NamesFacts.lstrip_no_dot by by apply NamesFacts.lower_no_dot.
  apply SuffixFacts.lower_not_empty in Hne.
  by destruct (Names.lower rest).
Qed.

(** ** What a run leaves alone *)

Lemma step_frame (dst : path) (R : path -> Prop) (fs fs' : fsmap) (q : path) :
  fs_step dst R fs fs' ->
  ~ below dst q ->
  (forall c, fs !! q = Some (File c) -> ~ R q) ->
  fs' !! q = fs !! q \/
  (fs !! q = None /\ fs' !! q = Some Dir /\ q `prefix_of` dst).
Proof.
  intros Hstep Hq HR.
  destruct Hstep as [fs s q' _ _ Hq' Hpre|fs s c t HRs Hs _ _ Htgt _].
  - destruct (decide (q' = q)) as [->|Hne].
    + right. split; [done|]. split; [apply lookup_insert_eq|].
      apply prefix_snoc in Hpre as [?| ->]; [done|].
      destruct Hq. apply below_child.
    + left. by rewrite lookup_insert_ne.
  - assert (below dst t) as Ht by (apply (step_target_below dst s); tauto).
    left. rewrite lookup_insert_ne by (by intros ->).
    rewrite lookup_delete_ne; [done|]. intros ->. by apply (HR c).
Qed.

Lemma steps_frame (dst : path) (R : path -> Prop) (fs fs' : fsmap) (q : path) :
  rtc (fs_step dst R) fs fs' ->
  ~ below dst q ->
  (forall c, fs !! q = Some (File c) -> ~ R q) ->
  fs' !! q = fs !! q \/
  (fs !! q = None /\ fs' !! q = Some Dir /\ q `prefix_of` dst).
Proof.
  intros Hsteps Hq. induction Hsteps as [fs|fs fs1 fs' Hstep Hrest IH];
    intros HR; [by left|].
  destruct (step_frame dst R fs fs1 q Hstep Hq HR) as [Heq|(Hnone & Hd & Hpre)].
  - rewrite <- Heq. apply IH. intros c. rewrite Heq. apply HR.
  - right. split; [done|]. split; [|done].
    apply is_dir_Some. eapply steps_is_dir; [exact Hrest|].
    by apply is_dir_Some.
Qed.

(** ** Where files and directories come from *)

Lemma steps_came_from (dst : path) (R : path -> Prop) (fs0 fs fs' : fsmap) :
  rtc (fs_step dst R) fs fs' ->
  (forall q c, fs !! q = Some (File c) -> came_from dst R fs0 q c) ->
  forall q c, fs' !! q = Some (File c) -> came_from dst R fs0 q c.
Proof.
  apply (steps_preserve dst R
    (fun fs => forall q c, fs !! q = Some (File c) -> came_from dst R fs0 q c)).
  clear. intros fs fs' Hinv Hstep q c' Hq.
  destruct Hstep as [fs s q' _ _ Hq' _|fs s c t HRs Hs _ _ Htgt _].
  - apply Hinv. destruct (decide (q' = q)) as [->|Hne].
    + by rewrite lookup_insert_eq in Hq.
    + by rewrite lookup_insert_ne in Hq.
  - destruct (decide (t = q)) as [->|Hne].
    + rewrite lookup_insert_eq in Hq. injection Hq as <-.
      assert (below dst q) as Hb by (apply (step_target_below dst s); tauto).
      assert (name q = name s) as Hn by (apply (step_target_name dst); tauto).
      right. split; [done|].
      destruct (Hinv s c Hs) as [H0|(_ & s0 & HR0 & H0 & Hn0)].
      * exists s. by rewrite Hn.
      * exists s0. split; [done|]. split; [done|]. congruence.
    + rewrite lookup_insert_ne in Hq by done.
      apply lookup_delete_Some in Hq as [_ Hq]. by apply Hinv.
Qed.

Lemma grows_file (P : path -> Prop) fs fs' q c :
  grows P fs fs' -> fs' !! q = Some (File c) -> fs !! q = Some (File c).
Proof.
  intros Hg Hq. destruct (grows_lookup P fs fs' q Hg) as [<-|(_ & H & _)];
    [done | congruence].
Qed.

(** What [main] does to the map: directories on the way to the destination
    root, then the steps of the walk. *)
Lemma main_changes m E source destination w w' :
  main m E source destination w = Some w' ->
  exists fs1,
    grows (fun q => q `prefix_of` resolve E destination) (w_fs w) fs1 /\
    rtc (fs_step (resolve E destination)
           (walked (resolve E destination) (resolve E source)))
        fs1 (w_fs w').
Proof.
  unfold main.
  destruct (negb _ || negb _).
  - intros [= <-]. exists (w_fs w). split; [apply grows_refl | done].
  - destruct (mkdir _ _ _) as [fs1 [u|e]] eqn:Hmk.
    + destruct (copy_and_sort _ _ _ _ _) as [w1|] eqn:Hrun; [|done].
      intros [= <-]. exists fs1. split; [by eapply mkdir_grows|].
      exact (copy_and_sort_steps _ _ _ _ _ _ Hrun).
    + intros [= <-]. exists fs1. split; [by eapply mkdir_grows | done].
Qed.

Lemma steps_dir_came_from (dst : path) (R : path -> Prop) (fs0 fs fs' : fsmap) :
  rtc (fs_step dst R) fs fs' ->
  (forall q c, fs !! q = Some (File c) -> came_from dst R fs0 q c) ->
  (forall q, is_dir fs q = true -> dir_came_from dst R fs0 q) ->
  forall q, is_dir fs' q = true -> dir_came_from dst R fs0 q.
Proof.
  intros Hsteps. induction Hsteps as [fs|fs fs1 fs' Hstep Hrest IH];
    intros Hfiles Hdirs; [done|].
  apply IH.
  - eapply steps_came_from; [by apply rtc_once | done].
  - intros q Hq. apply is_dir_Some in Hq.
    destruct Hstep as [fs s q' HRs Hs Hq' Hpre|fs s c t _ _ _ _ _ _].
    + destruct (decide (q' = q)) as [->|Hne].
      * apply prefix_snoc in Hpre as [?| ->]; [right; by left|].
        right. right. apply is_file_Some in Hs as [c Hc].
        destruct (Hfiles s c Hc) as [H0|(_ & s0 & HR0 & H0 & Hn0)].
        -- by exists s, c.
        -- exists s0, c. by rewrite Hn0.
      * apply Hdirs, is_dir_Some. by rewrite lookup_insert_ne in Hq.
    + apply Hdirs, is_dir_Some.
      destruct (decide (t = q)) as [->|Hne].
      * by rewrite lookup_insert_eq in Hq.
      * rewrite lookup_insert_ne in Hq by done.
        by apply lookup_delete_Some in Hq as [_ ?].
Qed.

Lemma main_total m E source destination w :
  walk_fuel (mkdir E (resolve E destination) (w_fs w)).1
    (resolve E source) (resolve E destination) <= m ->
  exists w', main m E source destination w = Some w'.
Proof.
  intros Hm. unfold main. destruct (negb _ || negb _); [eauto|].
  destruct (mkdir _ _ _) as [fs1 [u|e]]; [|eauto]. simpl in Hm.
  destruct (copy_and_sort_total E _ _ (set_fs fs1 w) m Hm) as [w1 ->]. eauto.
Qed.

(** Where the regular files of the final map come from. *)
Lemma main_provenance E source destination w w' m q c :
  main m E source destination w = Some w' ->
  w_fs w' !! q = Some (File c) ->
  w_fs w !! q = Some (File c) \/
  (below (resolve E destination) q /\
   exists s, below (resolve E source) s /\
     w_fs w !! s = Some (File c) /\ name s = name q).
Proof.
  intros (fs1 & Hg & Hsteps)%main_changes Hq.
  destruct (steps_came_from _ _ fs1 _ _ Hsteps (fun q c H => or_introl H) q c Hq)
    as [H1|(Hb & s & HR & H1 & Hn)].
  - left. by eapply grows_file.
  - right. split; [done|]. exists s. split; [by eapply walked_below|].
    split; [by eapply grows_file | done].
Qed.

(** ** The loop body when the bucket exists *)

Lemma mkdir_calm_same E dst e fs :
  calm E -> is_dir fs dst = true -> is_dir fs (dst ++ [e]) = true ->
  mkdir E (dst ++ [e]) fs = (fs, Ok tt).
Proof.
  intros HE Hdst Hb. unfold mkdir. apply mkdir_parents_head_exists; [|done].
  unfold os_mkdir. rewrite (calm_mkdir E HE), parent_child.
  apply is_dir_Some in Hdst, Hb. by rewrite Hdst, Hb.
Qed.

Lemma is_file_not_dir fs p : is_file fs p = true -> is_dir fs p = false.
Proof. intros [c Hc]%is_file_Some. unfold is_dir. by rewrite Hc. Qed.

(** The body of the loop for a regular file whose bucket exists, up to the
    call of [shutil.move]. *)
Lemma loop_body_file_bucket rec E dst item w :
  calm E -> is_dir (w_fs w) dst = true ->
  is_dir (w_fs w) (dst ++ [Names.bucket_name (name item)]) = true ->
  is_file (w_fs w) item = true ->
  loop_body rec E dst item w =
    let w1 := record (Move item (target_of dst item)) w in
    match shutil_move E item (target_of dst item) (w_fs w) with
    | Ok fs2 => Some (Ok tt, set_fs fs2 w1)
    | Err e => Some (Ok tt, print (MoveError item e) w1)
    end.
Proof.
  intros HE Hdst Hb Hf. unfold loop_body.
  rewrite (is_file_not_dir _ _ Hf), Hf, (mkdir_calm_same E dst _ _ HE Hdst Hb).
  rewrite <- app_assoc. simpl app. unfold target_of.
  by destruct (shutil_move _ _ _ _).
Qed.

(** ** Runs that print nothing *)

Lemma loop_body_file_quiet rec E N src dst item w r w' :
  calm E -> layout N src dst (w_fs w) -> below src item ->
  is_file (w_fs w) item = true ->
  loop_body rec E dst item w = Some (r, w') -> w_out w' = w_out w.
Proof.
  intros HE (Hchain & HN & Hok) Hb Hf. unfold loop_body.
  pose proof Hf as [c Hc]%is_file_Some.
  rewrite (is_file_not_dir _ _ Hf), Hf.
  destruct (Hok _ (HN _ Hb Hf)) as [Hbucket Htgt].
  destruct (mkdir_calm E dst (Names.bucket_name (name item)) (w_fs w))
    as (fs1 & -> & Hd1 & Hsame); [done|by apply Hchain|done|].
  assert (item <> dst ++ [Names.bucket_name (name item)]) as Hne.
  { intros Heq. rewrite <- Heq in Hbucket.
    destruct Hbucket as [?|Hd%is_dir_Some]; congruence. }
  destruct (shutil_move_calm E dst item c fs1) as (fs2 & Hmv & _);
    [done|by rewrite Hsame|done| |].
  { apply is_dir_false. rewrite Hsame; [by apply is_dir_false|].
    intros Heq. apply (f_equal length) in Heq.
    unfold target_of in Heq. rewrite !length_app in Heq. simpl in Heq. lia. }
  rewrite <- app_assoc. simpl app. unfold target_of in Hmv. rewrite Hmv.
  by intros [= <- <-].
Qed.

Lemma below_snoc src p x : src `prefix_of` p -> below src (p ++ [x]).
Proof.
  intros [k ->]. exists (k ++ [x]). split; [by destruct k|].
  by rewrite app_assoc.
Qed.

Lemma copy_and_sort_quiet E N src dst :
  calm E ->
  forall n p w w',
    src `prefix_of` p -> layout N src dst (w_fs w) ->
    is_dir (w_fs w) p = true ->
    copy_and_sort n E p dst w = Some w' -> w_out w' = w_out w.
Proof.
  intros HE. induction n as [|n IH]; intros p w w' Hsrc Hlay Hp; [done|].
  rewrite copy_and_sort_S, (iterdir_calm E _ _ HE Hp).
  set (items := (fun n => p ++ [n]) <$> list_order E p (children (w_fs w) p)).
  destruct (for_items _ E dst items _) as [[r w1]|] eqn:Hloop; [|done].
  assert (forall item, item ∈ items -> below src item) as Hbelow.
  { intros item (x & -> & _)%list_elem_of_fmap. by apply below_snoc. }
  assert (r = Ok tt) as ->
    by exact (for_items_no_abort n E N src dst items (record (Enter p) w) _ _
                HE Hlay Hbelow Hloop).
  intros [= <-].
  eapply (for_items_inv _ _ _
    (fun _ w1 => w_out w1 = w_out w /\ layout N src dst (w_fs w1)))
    in Hloop as (_ & _ & _ & [H _] & _); [done|done|].
  intros pre item rest w2 r1 w3 Heq [Hout Hlay2] Hbody.
  assert (below src item) as Hitem
    by (apply Hbelow; rewrite Heq, elem_of_app, elem_of_cons; tauto).
  split.
  - rewrite <- Hout.
    destruct (is_file (w_fs w2) item) eqn:Hf.
    { by eapply loop_body_file_quiet. }
    revert Hbody. unfold loop_body. rewrite Hf.
    destruct (is_dir (w_fs w2) item) eqn:Hd; [|by intros [= <- <-]].
    destruct (decide _); [by intros [= <- <-]|].
    destruct (copy_and_sort n E item dst w2) as [w4|] eqn:Hrec; [|done].
    intros [= <- <-]. eapply IH; [|exact Hlay2|exact Hd|exact Hrec].
    by apply below_prefix.
  - eapply layout_steps; [|eapply (body_steps_walk _ _ _ (below src));
                            [|exact Hbody]|done]; [done|].
    intros s Hs%src_of_prefix. by eapply below_trans_prefix.
Qed.

(** ** [mkdir] along a chain *)

Lemma absent_below_spec base rest fs k :
  absent_below base rest fs = true ->
  k <> [] -> k `prefix_of` rest -> fs !! (base ++ k) = None.
Proof.
  intros Hall Hk Hpre. unfold absent_below in Hall.
  rewrite forallb_forall in Hall.
  specialize (Hall (length k)).
  assert (take (length k) rest = k) as Htake
    by (destruct Hpre as [k' ->]; by rewrite take_app_length).
  rewrite Htake in Hall. unfold exists_ in Hall.
  destruct (fs !! (base ++ k)); [|done].
  assert (negb true = true) as Habs; [|done].
  apply Hall, in_seq. apply prefix_length in Hpre.
  destruct k; [done|]. simpl in *. lia.
Qed.

Lemma mkdir_parents_chain E (base : path) :
  calm E ->
  forall (rest : list string) n (fs : fsmap),
    length rest <= S n ->
    (forall r, r `prefix_of` base -> is_dir fs r = true) ->
    (forall k, k <> [] -> k `prefix_of` rest -> fs !! (base ++ k) = None) ->
    exists fs1, mkdir_parents n E (base ++ rest) fs = (fs1, Ok tt) /\
      (forall r, r `prefix_of` base ++ rest -> is_dir fs1 r = true) /\
      (forall q, is_Some (fs !! q) \/ ~ q `prefix_of` base ++ rest ->
         fs1 !! q = fs !! q).
Proof.
  intros HE rest. induction rest as [|x rest IH] using rev_ind;
    intros n fs Hn Hdirs Hnone.
  - rewrite app_nil_r. exists fs. split; [|split; [done|done]].
    apply mkdir_parents_head_exists; [|by apply Hdirs].
    unfold os_mkdir. rewrite (calm_mkdir E HE).
    assert (fs !! parent base = Some Dir) as ->
      by (apply is_dir_Some, Hdirs, parent_prefix).
    assert (fs !! base = Some Dir) as -> by (by apply is_dir_Some, Hdirs).
    done.
  - rewrite app_assoc.
    assert (fs !! ((base ++ rest) ++ [x]) = None) as Hp
      by (rewrite <- app_assoc; apply Hnone; [by destruct rest | done]).
    assert (forall fs1 : fsmap,
      (forall r, r `prefix_of` base ++ rest -> is_dir fs1 r = true) ->
      forall r, r `prefix_of` (base ++ rest) ++ [x] ->
        is_dir (<[(base ++ rest) ++ [x] := Dir]> fs1) r = true) as Hall.
    { intros fs1 H1 r [Hr| ->]%prefix_snoc; apply is_dir_Some.
      - rewrite lookup_insert_ne; [by apply is_dir_Some, H1|].
        intros <-. apply prefix_length in Hr. rewrite length_app in Hr.
        simpl in Hr. lia.
      - apply lookup_insert_eq. }
    destruct (decide (rest = [])) as [->|Hrest].
    + rewrite app_nil_r in *.
      exists (<[base ++ [x] := Dir]> fs). split; [|split].
      * apply mkdir_parents_head_Ok. unfold os_mkdir.
        rewrite (calm_mkdir E HE), parent_child.
        assert (fs !! base = Some Dir) as -> by (by apply is_dir_Some, Hdirs).
        by rewrite Hp.
      * by apply Hall.
      * intros q Hq. rewrite lookup_insert_ne; [done|].
        intros <-. destruct Hq as [[nd Hq]|Hq]; [congruence | by destruct Hq].
    + assert (fs !! (base ++ rest) = None) as Hpar
        by (apply Hnone; [done | by exists [x]]).
      destruct n as [|n].
      { rewrite length_app in Hn. simpl in Hn. destruct rest; [done|].
        simpl in Hn. lia. }
      destruct (IH n fs) as (fs1 & Hrec & Hdirs1 & Hsame1); [|done| |].
      { rewrite length_app in Hn. simpl in Hn. lia. }
      { intros k Hk Hpre. apply Hnone; [done|].
        trans rest; [done | by exists [x]]. }
      assert (fs1 !! ((base ++ rest) ++ [x]) = None) as Hp1.
      { rewrite Hsame1; [done|]. right. intros Hpre%prefix_length.
        rewrite length_app in Hpre. simpl in Hpre. lia. }
      exists (<[(base ++ rest) ++ [x] := Dir]> fs1). split; [|split].
      * simpl. unfold os_mkdir at 1.
        rewrite (calm_mkdir E HE), parent_child, Hpar.
        destruct (decide (base ++ rest = (base ++ rest) ++ [x])) as [Heq|_].
        { apply (f_equal length) in Heq. rewrite !length_app in Heq.
          simpl in Heq. lia. }
        rewrite Hrec. unfold mkdir_single, os_mkdir.
        rewrite (calm_mkdir E HE), parent_child.
        assert (fs1 !! (base ++ rest) = Some Dir) as ->
          by (by apply is_dir_Some, Hdirs1).
        by rewrite Hp1.
      * by apply Hall.
      * intros q Hq.
        assert (q <> (base ++ rest) ++ [x]) as Hne
          by (destruct Hq as [[nd Hq]|Hq]; intros ->; [congruence | done]).
        rewrite lookup_insert_ne by done. apply Hsame1.
        destruct Hq as [|Hq]; [by left|]. right. intros Hpre. apply Hq.
        trans (base ++ rest); [done | by exists [x]].
Qed.

(** ** Trees that are sorted already *)

Lemma in_place_no_step (dst : path) (R : path -> Prop) (fs fs' : fsmap) :
  (forall s, R s -> is_file fs s = true -> in_place dst fs s) ->
  fs_step dst R fs fs' -> False.
Proof.
  intros Hin Hstep.
  destruct Hstep as [fs s q HR Hs Hq Hpre|fs s c t HR Hs Hdir _ Htgt Hne].
  - destruct (Hin s HR Hs) as [Heq Hdirs].
    rewrite <- parent_target_of, <- Heq in Hpre.
    apply Hdirs, is_dir_Some in Hpre. congruence.
  - destruct (Hin s HR) as [Heq _]; [apply is_file_Some; eauto|].
    rewrite <- Heq in Htgt. destruct Htgt as [->|[_ Hd%is_dir_Some]];
      [done | congruence].
Qed.

Lemma in_place_steps (dst : path) (R : path -> Prop) (fs fs' : fsmap) :
  (forall s, R s -> is_file fs s = true -> in_place dst fs s) ->
  rtc (fs_step dst R) fs fs' -> fs' = fs.
Proof.
  intros Hin Hsteps. destruct Hsteps as [|fs fs1 fs' Hstep _]; [done|].
  destruct (in_place_no_step dst R fs fs1 Hin Hstep).
Qed.

Lemma shielded_not_walked (src dst s : path) :
  below src dst -> below dst s -> ~ walked dst src s.
Proof.
  intros Hsd Hds [x [Hpre Havoid]]. apply (Havoid dst); [|done|done].
  eapply child_prefix_between; [exact Hsd|by apply below_prefix|done].
Qed.

Lemma settled_in_place src dst fs s :
  settled src dst fs = true ->
  walked dst src s -> is_file fs s = true -> in_place dst fs s.
Proof.
  intros Hall Hw [c Hc]%is_file_Some. unfold settled in Hall.
  rewrite forallb_forall in Hall.
  assert (In (s, File c) (map_to_list fs)) as Hin
    by by apply list_elem_of_In, elem_of_map_to_list.
  apply Hall in Hin. simpl in Hin.
  pose proof (walked_below _ _ _ Hw) as Hb. apply is_below_spec in Hb.
  rewrite Hb in Hin. simpl in Hin.
  destruct (is_below src dst && is_below dst s) eqn:Hsh.
  { apply andb_true_iff in Hsh as [H1%is_below_spec H2%is_below_spec].
    destruct (shielded_not_walked src dst s H1 H2 Hw). }
  simpl in Hin.
  apply andb_true_iff in Hin as [Heq%bool_decide_eq_true Hready].
  split; [done|]. intros q. by apply dst_ready_spec.
Qed.

(** ** A second run *)

Lemma mkdir_ready (E : env) (p : path) (fs : fsmap) :
  calm E -> (forall r, r `prefix_of` p -> is_dir fs r = true) ->
  mkdir E p fs = (fs, Ok tt).
Proof.
  intros HE Hdirs. apply mkdir_parents_head_exists; [|by apply Hdirs].
  unfold os_mkdir. rewrite (calm_mkdir E HE).
  assert (fs !! parent p = Some Dir) as ->
    by (apply is_dir_Some, Hdirs, parent_prefix).
  assert (fs !! p = Some Dir) as -> by (by apply is_dir_Some, Hdirs).
  done.
Qed.

Lemma old_or_placed_step N src dst (R : path -> Prop) fs0 fs fs' :
  (forall s, R s -> below src s) ->
  layout N src dst fs -> fs_step dst R fs fs' ->
  old_or_placed dst fs0 fs -> old_or_placed dst fs0 fs'.
Proof.
  intros HR (_ & HN & Hok) Hstep Hinv s' c' Hs'.
  assert (forall q, is_dir fs q = true -> is_dir fs' q = true) as Hkeep
    by (intros q; by apply (steps_is_dir dst R), rtc_once).
  destruct Hstep as [fs s q _ _ Hq _|fs s c t HRs Hs Hdir Hpar Htgt Hne].
  - assert (fs !! s' = Some (File c')) as Hold.
    { destruct (decide (q = s')) as [->|?].
      - by rewrite lookup_insert_eq in Hs'.
      - by rewrite lookup_insert_ne in Hs'. }
    destruct (Hinv _ _ Hold) as [|[? ?]]; [by left | right; auto].
  - assert (t = target_of dst s) as Ht.
    { destruct Htgt as [|[_ Hd]]; [done|].
      assert (N (name s)) as Hn
        by (apply HN; [auto | apply is_file_Some; eauto]).
      destruct (Hok _ Hn) as [_ Hnd]. unfold target_of in Hd. congruence. }
    destruct (decide (t = s')) as [<-|Hts].
    + right. split; [|by apply Hkeep].
      rewrite Ht at 1. apply target_of_name. by rewrite Ht, name_target_of.
    + rewrite lookup_insert_ne in Hs' by done.
      apply lookup_delete_Some in Hs' as [_ Hs'].
      destruct (Hinv _ _ Hs') as [|[? ?]]; [by left | right; auto].
Qed.

Lemma old_or_placed_steps N src dst (R : path -> Prop) fs0 fs fs' :
  (forall s, R s -> below src s) ->
  rtc (fs_step dst R) fs fs' ->
  layout N src dst fs ->
  old_or_placed dst fs0 fs -> old_or_placed dst fs0 fs'.
Proof.
  intros HR. induction 1 as [|fs fs1 fs' Hstep _ IH]; [done|].
  intros Hlay Hinv. apply IH.
  - by eapply layout_step.
  - by eapply old_or_placed_step.
Qed.

Lemma reachable_spec src rel nm fs :
  reachable src fs = true -> is_file fs (src ++ rel ++ [nm]) = true ->
  chain_dirs src rel fs = true.
Proof.
  intros Hall [c Hc]%is_file_Some. unfold reachable in Hall.
  rewrite forallb_forall in Hall.
  assert (In (src ++ rel ++ [nm], File c) (map_to_list fs)) as Hin
    by by apply list_elem_of_In, elem_of_map_to_list.
  apply Hall in Hin. simpl in Hin.
  rewrite (proj2 (strip_prefix_Some src _ (rel ++ [nm])) eq_refl) in Hin.
  by rewrite removelast_last in Hin.
Qed.

Lemma walked_chain dst src rel nm j :
  walked dst src (src ++ rel ++ [nm]) -> 0 < j <= length rel ->
  src ++ take j rel <> dst.
Proof.
  intros [x [Hpre Havoid]] Hj. apply Havoid.
  - destruct rel as [|y rel]; [simpl in Hj; lia|].
    destruct Hpre as [k Hk]. rewrite <- app_assoc in Hk.
    apply app_inv_head in Hk. injection Hk as -> _.
    destruct j as [|j]; [lia|]. simpl. exists (take j rel).
    by rewrite <- app_assoc.
  - exists (drop j rel ++ [nm]). split; [by destruct (drop j rel)|].
    by rewrite <- app_assoc, (app_assoc (take j rel)), take_drop.
Qed.

(** After a calm walk of a sortable tree whose files are all reachable,
    every regular file that a walk of [src] may take is in place. *)
Lemma walk_settles E src dst w w' m :
  calm E -> sortable src dst (w_fs w) = true ->
  reachable src (w_fs w) = true ->
  copy_and_sort m E src dst w = Some w' ->
  forall s, walked dst src s -> is_file (w_fs w') s = true ->
    in_place dst (w_fs w') s.
Proof.
  intros HE Hsort Hreach Hrun s Hw [c Hc]%is_file_Some.
  pose proof (sortable_layout _ _ _ Hsort) as Hlay.
  pose proof (copy_and_sort_steps _ _ _ _ _ _ Hrun) as Hsteps.
  set (N := fun n => exists s, below src s /\ is_file (w_fs w) s = true
                               /\ name s = n) in Hlay.
  assert (layout N src dst (w_fs w')) as Hlay'
    by (eapply layout_steps; [apply walked_below|done|done]).
  assert (forall q, q `prefix_of` dst -> is_dir (w_fs w') q = true) as Hdst
    by apply Hlay'.
  destruct (old_or_placed_steps N src dst _ (w_fs w) _ _
              (walked_below dst src) Hsteps Hlay (fun s c H => or_introl H)
              s c Hc) as [Hold|[Heq Hpar]].
  - destruct (walked_below _ _ _ Hw) as (k & Hk & ->).
    destruct (exists_last Hk) as (rel & nm & ->).
    assert (is_file (w_fs w) (src ++ rel ++ [nm]) = true) as Hf
      by (apply is_file_Some; eauto).
    pose proof (reachable_spec _ _ _ _ Hreach Hf) as Hchain.
    destruct (sorted_along_chain E N src dst HE rel m src w w' nm)
      as [_ Hgone]; try done.
    { intros j Hj. by apply chain_dirs_spec. }
    { intros j Hj. by eapply walked_chain. }
    assert (src ++ rel ++ [nm] = target_of dst (src ++ rel ++ [nm])) as Heq.
    { destruct (decide (src ++ rel ++ [nm] = target_of dst (src ++ rel ++ [nm])))
        as [|Hne]; [done|]. rewrite (Hgone Hne) in Hc. done. }
    split; [done|]. intros q Hq.
    assert (parent (src ++ rel ++ [nm]) = src ++ rel) as Hparent
      by (rewrite app_assoc; apply parent_child).
    rewrite Hparent in Hq.
    assert (src ++ rel = dst ++ [Names.bucket_name (name (src ++ rel ++ [nm]))])
      as Hbucket by (rewrite <- Hparent, Heq at 1; apply parent_target_of).
    rewrite Hbucket in Hq. apply prefix_snoc in Hq as [Hq| ->]; [auto|].
    rewrite <- Hbucket. eapply steps_is_dir; [exact Hsteps|].
    rewrite <- (firstn_all rel). by apply chain_dirs_spec.
  - split; [done|]. intros q Hq.
    rewrite Heq, parent_target_of in Hq.
    apply prefix_snoc in Hq as [Hq| ->]; [auto|].
    by rewrite Heq, parent_target_of in Hpar.
Qed.

(** ** Files of the same name *)

Lemma name_held_by_spec src nm qs fs s :
  name_held_by src nm qs fs = true ->
  below src s -> is_file fs s = true -> name s = nm -> s ∈ qs.
Proof.
  intros Hall Hs [c Hc]%is_file_Some Hn. unfold name_held_by in Hall.
  rewrite forallb_forall in Hall.
  assert (In (s, File c) (map_to_list fs)) as Hin
    by by apply list_elem_of_In, elem_of_map_to_list.
  apply Hall in Hin. simpl in Hin.
  apply is_below_spec in Hs. rewrite Hs, Hn, String.eqb_refl in Hin.
  simpl in Hin. by apply bool_decide_eq_true in Hin.
Qed.

(** ** Well-formed maps *)

Lemma well_formed_parent fs q :
  well_formed fs = true -> is_Some (fs !! q) -> is_dir fs (parent q) = true.
Proof.
  intros Hall [nd Hq]. unfold well_formed in Hall.
  rewrite forallb_forall in Hall.
  apply (Hall (q, nd)). by apply list_elem_of_In, elem_of_map_to_list.
Qed.

Lemma well_formed_above fs (r : path) (k : list string) :
  well_formed fs = true -> k <> [] -> is_Some (fs !! (r ++ k)) ->
  is_dir fs r = true.
Proof.
  intros Hwf. induction k as [|x k IH] using rev_ind; [done|]. intros _ Hq.
  apply (well_formed_parent fs _ Hwf) in Hq.
  rewrite app_assoc, parent_child in Hq.
  destruct (decide (k = [])) as [->|Hk]; [by rewrite app_nil_r in Hq|].
  apply IH; [done|]. apply is_dir_Some in Hq. by rewrite Hq.
Qed.

Lemma well_formed_chain fs src rel nm j :
  well_formed fs = true -> is_Some (fs !! (src ++ rel ++ [nm])) ->
  j <= length rel -> is_dir fs (src ++ take j rel) = true.
Proof.
  intros Hwf Hq Hj.
  apply (well_formed_above fs _ (drop j rel ++ [nm]) Hwf).
  - by destruct (drop j rel).
  - by rewrite <- app_assoc, (app_assoc (take j rel)), take_drop.
Qed.

Lemma distinct_names_spec src fs s s' :
  distinct_names src fs = true ->
  below src s -> is_file fs s = true ->
  below src s' -> is_file fs s' = true -> name s' = name s -> s' = s.
Proof.
  intros Hall Hs [c Hc]%is_file_Some Hs' Hf' Hn. unfold distinct_names in Hall.
  rewrite forallb_forall in Hall.
  assert (In (s, File c) (map_to_list fs)) as Hin
    by by apply list_elem_of_In, elem_of_map_to_list.
  apply Hall in Hin. simpl in Hin.
  pose proof Hs as Hb. apply is_below_spec in Hb. rewrite Hb in Hin.
  simpl in Hin. by apply (unique_name_spec src (name s) s fs).
Qed.

(** ** The final map *)

Lemma explained_source (dst : path) (R : path -> Prop) (fs0 fs : fsmap)
    (s : path) (c : string) :
  (forall q, explained dst R fs0 fs q) ->
  R s -> fs !! s = Some (File c) ->
  exists s0, R s0 /\ fs0 !! s0 = Some (File c) /\ name s0 = name s /\
    (s = s0 \/ s = target_of dst s0).
Proof.
  intros Hex HR Hs.
  destruct (Hex s) as [Heq|[(c' & _ & _ & _ & Hnone)|
    [(s0 & c0 & HR0 & H0 & -> & Hc0)|(s0 & c0 & _ & _ & _ & Hd)]]];
    try congruence.
  - exists s. rewrite <- Heq. auto.
  - exists s0. rewrite Hs in Hc0. injection Hc0 as <-.
    by rewrite name_target_of; auto.
Qed.

Lemma explained_step (N : string -> Prop) (src dst : path) (R : path -> Prop)
    (fs0 fs fs' : fsmap) :
  (forall s, R s -> below src s) ->
  layout N src dst fs -> fs_step dst R fs fs' ->
  (forall q, explained dst R fs0 fs q) ->
  forall q, explained dst R fs0 fs' q.
Proof.
  intros HR (Hchain & HN & Hok) Hstep Hex q.
  destruct Hstep as [fs s q' HRs Hs Hq' Hpre|fs s c t HRs Hs Hdir _ Htgt Hne].
  - destruct (decide (q' = q)) as [->|Hqq].
    + apply prefix_snoc in Hpre as [Hpre| ->].
      { apply Hchain, is_dir_Some in Hpre. congruence. }
      apply is_file_Some in Hs as [c Hc].
      destruct (explained_source dst R fs0 fs s c Hex HRs Hc)
        as (s0 & HR0 & H0 & Hn & _).
      right. right. right. exists s0, c. rewrite Hn.
      split; [done|]. split; [done|]. split; [done|]. apply lookup_insert_eq.
    + destruct (Hex q) as [Heq|[(c' & ? & ? & ? & Hnone)|
        [(s0 & c0 & ? & ? & ? & Hc0)|(s0 & c0 & ? & ? & ? & Hd)]]].
      * left. by rewrite lookup_insert_ne.
      * right. left. exists c'. by rewrite lookup_insert_ne.
      * right. right. left. exists s0, c0. by rewrite lookup_insert_ne.
      * right. right. right. exists s0, c0. by rewrite lookup_insert_ne.
  - assert (t = target_of dst s) as Ht.
    { destruct Htgt as [|[_ Hd]]; [done|].
      assert (N (name s)) as Hn
        by (apply HN; [auto | apply is_file_Some; eauto]).
      destruct (Hok _ Hn) as [_ Hnd]. unfold target_of in Hd. congruence. }
    destruct (explained_source dst R fs0 fs s c Hex HRs Hs)
      as (s0 & HR0 & H0 & Hn & Hs0).
    assert (t = target_of dst s0) as Ht0
      by (rewrite Ht; by apply target_of_name).
    destruct (decide (t = q)) as [<-|Htq].
    { right. right. left. exists s0, c.
      split; [done|]. split; [done|]. split; [done|]. apply lookup_insert_eq. }
    destruct (decide (s = q)) as [<-|Hsq].
    { right. left. exists c.
      destruct Hs0 as [->| ->].
      - split; [done|]. split; [done|]. split; [congruence|].
        rewrite lookup_insert_ne by done. apply lookup_delete_eq.
      - destruct Hne. rewrite Ht. apply target_of_name.
        by rewrite name_target_of. }
    assert (<[t := File c]> (delete s fs) !! q = fs !! q) as Hsame
      by (rewrite lookup_insert_ne by done; by rewrite lookup_delete_ne).
    unfold explained. rewrite Hsame. apply Hex.
Qed.

Lemma explained_steps (N : string -> Prop) (src dst : path) (R : path -> Prop)
    (fs0 fs fs' : fsmap) :
  (forall s, R s -> below src s) ->
  rtc (fs_step dst R) fs fs' ->
  layout N src dst fs ->
  (forall q, explained dst R fs0 fs q) ->
  forall q, explained dst R fs0 fs' q.
Proof.
  intros HR. induction 1 as [|fs fs1 fs' Hstep _ IH]; [done|].
  intros Hlay Hex. apply IH.
  - by eapply layout_step.
  - by eapply explained_step.
Qed.

(** Two maps that are explained and complete are the same map. *)
Lemma explained_complete_eq (dst : path) (R : path -> Prop)
    (fs0 fs1 fs2 : fsmap) :
  (forall q, explained dst R fs0 fs1 q) -> complete dst R fs0 fs1 ->
  (forall q, explained dst R fs0 fs2 q) -> complete dst R fs0 fs2 ->
  fs1 = fs2.
Proof.
  intros Hex1 Hc1 Hex2 Hc2. apply map_eq. intros q.
  assert (forall fsa fsb : fsmap,
    complete dst R fs0 fsb ->
    (exists c, R q /\ fs0 !! q = Some (File c) /\ q <> target_of dst q /\
       fsa !! q = None) \/
    (exists s c, R s /\ fs0 !! s = Some (File c) /\ q = target_of dst s /\
       fsa !! q = Some (File c)) \/
    (exists s c, R s /\ fs0 !! s = Some (File c) /\
       q = dst ++ [Names.bucket_name (name s)] /\ fsa !! q = Some Dir) ->
    fsa !! q = fsb !! q) as Hforced.
  { intros fsa fsb Hc [(c & HR & H0 & Hne & ->)|
      [(s & c & HR & H0 & -> & ->)|(s & c & HR & H0 & -> & ->)]];
      destruct (Hc _ _ HR H0) as (Ha & Hb & Hd); symmetry; auto. }
  destruct (Hex1 q) as [Heq1|H1]; [|by apply Hforced].
  destruct (Hex2 q) as [Heq2|H2]; [congruence|].
  symmetry. by apply Hforced.
Qed.

Lemma walk_complete E src dst w w' m :
  calm E -> sortable src dst (w_fs w) = true ->
  well_formed (w_fs w) = true -> distinct_names src (w_fs w) = true ->
  copy_and_sort m E src dst w = Some w' ->
  complete dst (walked dst src) (w_fs w) (w_fs w').
Proof.
  intros HE Hsort Hwf Hdist Hrun s c Hw Hc.
  pose proof (sortable_layout _ _ _ Hsort) as Hlay.
  pose proof (copy_and_sort_steps _ _ _ _ _ _ Hrun) as Hsteps.
  set (N := fun n => exists s, below src s /\ is_file (w_fs w) s = true
                               /\ name s = n) in Hlay.
  pose proof (walked_below _ _ _ Hw) as Hb.
  destruct Hb as (k & Hk & ->).
  destruct (exists_last Hk) as (rel & nm & ->).
  assert (is_file (w_fs w) (src ++ rel ++ [nm]) = true) as Hf
    by (apply is_file_Some; eauto).
  destruct (sorted_along_chain E N src dst HE rel m src w w' nm)
    as [Ht Hgone]; try done.
  { intros j Hj. apply (well_formed_chain _ _ _ nm); [done| |done].
    by rewrite Hc. }
  { intros j Hj. by eapply walked_chain. }
  assert (w_fs w' !! target_of dst (src ++ rel ++ [nm]) = Some (File c))
    as Hkept.
  { eapply (content_kept E src dst w w'); try done.
    intros s' Hs' Hf' Hn.
    apply (distinct_names_spec src (w_fs w)); try done.
    exists (rel ++ [nm]). split; [by destruct rel | done]. }
  split; [done|]. split; [done|].
  destruct (old_or_placed_steps N src dst _ (w_fs w) _ _
              (walked_below dst src) Hsteps Hlay (fun s c H => or_introl H)
              _ c Hkept) as [Hold|[_ Hpar]].
  - apply is_dir_Some. eapply steps_is_dir; [exact Hsteps|].
    rewrite <- parent_target_of. apply well_formed_parent; [done|].
    by rewrite Hold.
  - rewrite parent_target_of in Hpar. by apply is_dir_Some.
Qed.

Lemma reversed_env_calm : calm Cases.reversed_env.
Proof.
  split; try done. intros p l. simpl. symmetry. apply Permutation_rev.
Qed.

(** * Sample runs *)

(** A run on [/s] with [a.txt], [b.md] and [sub/c.txt]: three buckets' worth
    of moves, two buckets, and the emptied directory [sub] stays. *)
Example run_small :
  main 2 Examples.plain_env ["s"] ["out"] (Examples.start Examples.small)
  = Some
      (World
         (list_to_map
            [ ([], Dir); (["s"], Dir); (["s"; "sub"], Dir); (["out"], Dir);
              (["out"; "txt"], Dir); (["out"; "md"], Dir);
              (["out"; "txt"; "a.txt"], File "1");
              (["out"; "md"; "b.md"], File "2");
              (["out"; "txt"; "c.txt"], File "3") ])
         [Completed]
         [ Enter ["s"]; Move ["s"; "a.txt"] ["out"; "txt"; "a.txt"];
           Move ["s"; "b.md"] ["out"; "md"; "b.md"]; Enter ["s"; "sub"];
           Move ["s"; "sub"; "c.txt"] ["out"; "txt"; "c.txt"] ]).
Proof. reflexivity. Qed.

(** Two files of the same name go to one target: the one moved last
    replaces the other. *)
Example run_twins :
  exists w',
    main 2 Examples.plain_env ["s"] ["out"] (Examples.start Examples.twins)
      = Some w' /\
    w_calls w' =
      [ Enter ["s"]; Enter ["s"; "b"];
        Move ["s"; "b"; "x.txt"] ["out"; "txt"; "x.txt"];
        Enter ["s"; "a"];
        Move ["s"; "a"; "x.txt"] ["out"; "txt"; "x.txt"] ] /\
    w_fs w' !! ["out"; "txt"; "x.txt"] = Some (File "1") /\
    w_fs w' !! ["s"; "a"; "x.txt"] = None /\
    w_fs w' !! ["s"; "b"; "x.txt"] = None.
Proof. eexists. split; [reflexivity|]. repeat split; reflexivity. Qed.

(** A regular file in the place of a bucket: [mkdir] raises
    [FileExistsError], which ends the walk of [/s] before anything is
    moved. *)
Example run_blocked :
  main 2 Examples.plain_env ["s"] ["out"] (Examples.start Examples.blocked)
  = Some (World Examples.blocked
            [AccessError ["s"] FileExistsError; Completed] [Enter ["s"]]).
Proof. reflexivity. Qed.

(** A directory in the place of the target: [shutil.move] puts the file
    inside it. *)
Example run_dir_target :
  exists w',
    main 2 Examples.plain_env ["s"] ["out"]
      (Examples.start Examples.dir_target) = Some w' /\
    w_out w' = [Completed] /\
    w_fs w' !! ["out"; "txt"; "a.txt"] = Some Dir /\
    w_fs w' !! ["out"; "txt"; "a.txt"; "a.txt"] = Some (File "1") /\
    w_fs w' !! ["s"; "a.txt"] = None.
Proof. eexists. split; [reflexivity|]. repeat split; reflexivity. Qed.

(** A dot-file and a name that ends with a dot have no extension. *)
Example bucket_names :
  Names.bucket_name "a.TXT" = "txt" /\
  Names.bucket_name "archive.tar.GZ" = "gz" /\
  Names.bucket_name "README" = "no_extension" /\
  Names.bucket_name ".bashrc" = "no_extension" /\
  Names.bucket_name "notes." = "no_extension".
Proof. repeat split; reflexivity. Qed.

(** * The claims of the specification *)

(** ** C1: extension bucketing *)

(** C1, as stated, fails for a file of the source tree that lies under a
    destination nested in the source: [/s/dist/keep/old.md] is a file of the
    tree [/s], and after the run with destination [/s/dist] it is still at its
    original path and nothing is at [/s/dist/md/old.md]. *)
Lemma file_under_destination_counterexample :
  exists w',
    main 3 Examples.plain_env ["s"] ["s"; "dist"]
      (Examples.start Examples.nested) = Some w' /\
    Examples.nested !! ["s"; "dist"; "keep"; "old.md"] = Some (File "9") /\
    w_fs w' !! ["s"; "dist"; "md"; "old.md"] = None /\
    w_fs w' !! ["s"; "dist"; "keep"; "old.md"] = Some (File "9").
Proof.
  eexists. split; [reflexivity|].
  repeat split; reflexivity.
Qed.

(** C1, amended.  Take a run where no operation fails, and let [fs1] be the
    map once [main] has made sure of the destination root, in which the
    buckets of the files below the source can be created and no target is a
    directory ([sortable]).  Every regular file [stem.ext] (both parts
    non-empty, no [.] in [ext]) that is reached from the source through
    directories and does not lie under the destination root is, when the run
    completes, a regular file at [dst/lower(ext)/stem.ext], whatever the
    directories [rel] it was found in, and its original path is empty.  When
    no other regular file below the source has the same name, the file at
    that place has the content the file had. *)
Theorem file_moved_to_extension_bucket
    E source destination w fs1 rel stem ext m :
  let src := resolve E source in
  let dst := resolve E destination in
  let file := stem +:+ String "." ext in
  calm E ->
  mkdir E dst (w_fs w) = (fs1, Ok tt) ->
  sortable src dst fs1 = true ->
  chain_dirs src rel (w_fs w) = true ->
  stem <> "" -> ext <> "" -> Names.has_char "." ext = false ->
  is_prefix dst (src ++ rel ++ [file]) = false ->
  is_file (w_fs w) (src ++ rel ++ [file]) = true ->
  walk_fuel fs1 src dst <= m ->
  exists w', main m E source destination w = Some w' /\
    is_file (w_fs w') (dst ++ [Names.lower ext; file]) = true /\
    w_fs w' !! (src ++ rel ++ [file]) = None /\
    (unique_name src file (src ++ rel ++ [file]) (w_fs w) = true ->
     w_fs w' !! (dst ++ [Names.lower ext; file])
     = w_fs w !! (src ++ rel ++ [file])).
Proof.
  intros src dst file HE Hmk Hsort Hchain Hstem Hext Hdot Hout Hf Hm.
  assert (~ dst `prefix_of` src ++ rel ++ [file]) as Hout'
    by (rewrite <- is_prefix_spec; congruence).
  destruct (main_file_sorted E source destination w fs1 rel file m)
    as (w' & tr & Hrun & _ & Ht & Hgone & Hkept); try done.
  { intros j Hj Heq. apply Hout'. unfold dst, src. rewrite <- Heq.
    exists (drop j rel ++ [file]).
    by rewrite <- app_assoc, (app_assoc (take j rel)), take_drop. }
  fold src in Ht, Hgone, Hkept. fold dst in Ht, Hgone, Hkept.
  assert (name (src ++ rel ++ [file]) = file) as Hname
    by (by rewrite app_assoc, name_child).
  assert (Names.bucket_name file = Names.lower ext) as Hb
    by by apply bucket_name_ext.
  assert (target_of dst (src ++ rel ++ [file])
          = dst ++ [Names.lower ext; file]) as Htgt
    by (unfold target_of; by rewrite Hname, Hb).
  rewrite Htgt in Ht, Hgone, Hkept.
  exists w'. split; [done|]. split; [done|]. split; [|done].
  apply Hgone. intros Heq. apply Hout'. rewrite Heq. by eexists.
Qed.

(** A run on [/s] with the destination [/out/sorted], which [main] creates:
    [/s/sub/c.txt] goes to [/out/sorted/txt/c.txt]. *)
Lemma file_moved_to_extension_bucket_witness :
  exists w',
    main 3 Examples.plain_env ["s"] ["out"; "sorted"]
      (Examples.start Examples.small) = Some w' /\
    is_file (w_fs w') ["out"; "sorted"; "txt"; "c.txt"] = true /\
    w_fs w' !! ["s"; "sub"; "c.txt"] = None /\
    (unique_name ["s"] "c.txt" ["s"; "sub"; "c.txt"] Examples.small = true ->
     w_fs w' !! ["out"; "sorted"; "txt"; "c.txt"]
     = Examples.small !! ["s"; "sub"; "c.txt"]).
Proof.
  apply (file_moved_to_extension_bucket Examples.plain_env
           ["s"] ["out"; "sorted"] (Examples.start Examples.small)
           (<[ ["out"; "sorted"] := Dir ]> Examples.small)
           ["sub"] "c" "txt" 3).
  - exact plain_env_calm.
  - reflexivity.
  - reflexivity.
  - reflexivity.
  - discriminate.
  - discriminate.
  - reflexivity.
  - reflexivity.
  - reflexivity.
  - vm_compute; lia.
Defined.

(** ** C2: bucket names *)

(** C2, as stated, fails on a dot-file: the substring after the last [.] of
    [.bashrc] is [bashrc], which is not empty, yet the bucket computed by
    [copy_and_sort] is [no_extension]. *)
Lemma bucket_name_dotfile_counterexample :
  Names.bucket_name ".bashrc" = "no_extension" /\
  Names.spec_extension ".bashrc" = "bashrc" /\
  Names.bucket_name ".bashrc" <> Names.spec_bucket ".bashrc".
Proof. vm_compute. repeat split; congruence. Qed.

(** C2, amended: a name without [.] goes to [no_extension]; a name whose last
    [.] separates [stem] from [ext] goes to the lowercased [ext] when both
    [stem] and [ext] are non-empty, and to [no_extension] when the last [.]
    is the first or the last character of the name. *)
Theorem bucket_name_last_dot (stem ext : string) :
  Names.has_char "." ext = false ->
  Names.bucket_name ext = "no_extension" /\
  Names.bucket_name (stem +:+ String "." ext) =
    match stem, ext with
    | EmptyString, _ | _, EmptyString => "no_extension"
    | _, _ => Names.lower ext
    end.
Proof. apply bucket_name_split. Qed.

(** [TXT] has no extension; [a.TXT] goes to [txt]. *)
Lemma bucket_name_last_dot_witness :
  Names.bucket_name "TXT" = "no_extension" /\
  Names.bucket_name "a.TXT" = "txt".
Proof. apply (bucket_name_last_dot "a" "TXT"). reflexivity. Defined.

(** ** C3: destination self-exclusion *)

(** C3, as stated, fails when the walk starts at the destination root itself:
    in [/d] with [x/a.y] and [y/b.x], a run with source and destination [/d]
    enters [/d/y] and [/d/x], which lie under the destination; it moves
    [y/b.x] to [x/b.x] and, once it walks [x], calls [shutil.move] again on
    [x/b.x], the file it has just placed there.  (With [x] listed before
    [y] the same happens to [a.y].) *)
Lemma moved_file_moved_again_counterexample :
  exists w',
    main 2 Examples.plain_env ["d"] ["d"]
      (Examples.start Examples.crossed) = Some w' /\
    w_calls w' =
      [ Enter ["d"]; Enter ["d"; "y"];
        Move ["d"; "y"; "b.x"] ["d"; "x"; "b.x"];
        Enter ["d"; "x"];
        Move ["d"; "x"; "a.y"] ["d"; "y"; "a.y"];
        Move ["d"; "x"; "b.x"] ["d"; "x"; "b.x"] ] /\
    below ["d"] ["d"; "x"; "b.x"].
Proof.
  eexists. split; [reflexivity|].
  split; [reflexivity|]. by exists ["x"; "b.x"].
Qed.

(** C3, amended.  Every walk returns (with fuel [walk_fuel] or more),
    whatever the environment, the map and the two paths.  Among the calls it
    makes, a directory other than the initial one is entered only if its
    resolved path differs from the resolved destination root.  When the walk
    does not start at or below the destination root, no directory at or below
    the destination root is entered and no file below it is passed to
    [shutil.move]: what has been moved there is neither walked nor moved
    again. *)
Theorem destination_root_skipped E p dst w m :
  walk_fuel (w_fs w) p dst <= m ->
  exists w' tr,
    copy_and_sort m E p dst w = Some w' /\
    w_calls w' = w_calls w ++ tr /\
    (forall q, Enter q ∈ tr -> q = p \/ resolve E q <> resolve E dst) /\
    (~ dst `prefix_of` p ->
       (forall q, Enter q ∈ tr -> ~ dst `prefix_of` q) /\
       (forall s t, Move s t ∈ tr -> ~ below dst s)).
Proof.
  intros [w' Hw']%(copy_and_sort_total E).
  destruct (copy_and_sort_calls _ _ _ _ _ _ Hw') as (tr & Htr & Hok).
  rewrite Forall_forall in Hok.
  exists w', tr. repeat split; [done|done| | |].
  - intros q Hq%Hok. by eapply entered_ok_not_dst.
  - intros q Hq%Hok. by eapply entered_ok_outside.
  - intros s t (q & x & -> & Hq & _)%Hok Hb.
    eapply entered_ok_outside; [done|done|].
    destruct Hb as (k & Hk & Heq).
    destruct (exists_last Hk) as (k' & y & ->).
    rewrite app_assoc in Heq. apply app_inj_tail in Heq as [-> _].
    by exists k'.
Qed.

(** A run on [/s] with the nested destination [/s/dist]. *)
Lemma destination_root_skipped_witness :
  exists w' tr,
    copy_and_sort 3 Examples.plain_env ["s"] ["s"; "dist"]
      (Examples.start Examples.nested) = Some w' /\
    w_calls w' = [] ++ tr /\
    (forall q, Enter q ∈ tr ->
       q = ["s"] \/ q <> ["s"; "dist"]) /\
    (~ ["s"; "dist"] `prefix_of` ["s"] ->
       (forall q, Enter q ∈ tr -> ~ ["s"; "dist"] `prefix_of` q) /\
       (forall s t, Move s t ∈ tr -> ~ below ["s"; "dist"] s)).
Proof.
  apply (destination_root_skipped Examples.plain_env ["s"] ["s"; "dist"]
           (Examples.start Examples.nested) 3).
  vm_compute. lia.
Defined.

(** ** C4: a failed move *)



(** ** C5: a failed directory listing *)

(** C5.  When listing the entries of a directory fails, the call returns
    normally: it prints the directory and the cause and changes nothing else.
    In the loop of the parent, the entries before it have been processed and
    the entries after it are processed from that same world. *)
Theorem directory_read_failure_is_local E n dst dir wp e :
  iterdir E (w_fs wp) dir = Err e ->
  copy_and_sort (S n) E dir dst wp
    = Some (print (AccessError dir e) (record (Enter dir) wp)) /\
  forall pre rest w,
    for_items (fun item => copy_and_sort (S n) E item dst) E dst pre w
      = Some (Ok tt, wp) ->
    is_dir (w_fs wp) dir = true ->
    resolve E dir <> resolve E dst ->
    for_items (fun item => copy_and_sort (S n) E item dst) E dst
        (pre ++ dir :: rest) w
    = for_items (fun item => copy_and_sort (S n) E item dst) E dst rest
        (print (AccessError dir e) (record (Enter dir) wp)).
Proof.
  intros Hit.
  assert (copy_and_sort (S n) E dir dst wp
          = Some (print (AccessError dir e) (record (Enter dir) wp))) as Hcall
    by (by rewrite copy_and_sort_S, Hit).
  split; [done|]. intros pre rest w Hpre Hd Hne.
  assert (loop_body (fun item => copy_and_sort (S n) E item dst) E dst dir wp
          = Some (Ok tt, print (AccessError dir e) (record (Enter dir) wp)))
    as Hbody.
  { unfold loop_body. rewrite Hd. destruct (decide _); [done|].
    by rewrite Hcall. }
  by rewrite (for_items_snoc_body _ _ _ _ _ _ _ _ _ _ Hpre Hbody).
Qed.

(** Listing [/s/sub] fails with [PermissionError]. *)
Lemma directory_read_failure_is_local_witness :
  let E := Examples.faulty_env [["s"; "sub"]] [] [] in
  let wp := Examples.start Examples.small in
  copy_and_sort 1 E ["s"; "sub"] ["out"] wp
    = Some (print (AccessError ["s"; "sub"] PermissionError)
              (record (Enter ["s"; "sub"]) wp)) /\
  forall pre rest w,
    for_items (fun item => copy_and_sort 1 E item ["out"]) E ["out"] pre w
      = Some (Ok tt, wp) ->
    is_dir (w_fs wp) ["s"; "sub"] = true ->
    resolve E ["s"; "sub"] <> resolve E ["out"] ->
    for_items (fun item => copy_and_sort 1 E item ["out"]) E ["out"]
        (pre ++ ["s"; "sub"] :: rest) w
    = for_items (fun item => copy_and_sort 1 E item ["out"]) E ["out"] rest
        (print (AccessError ["s"; "sub"] PermissionError)
           (record (Enter ["s"; "sub"]) wp)).
Proof.
  apply (directory_read_failure_is_local
           (Examples.faulty_env [["s"; "sub"]] [] []) 0 ["out"] ["s"; "sub"]
           (Examples.start Examples.small) PermissionError).
  reflexivity.
Defined.

(** ** C6: the two checks of [main] *)



(** ** C7: recursion depth *)

(** C7.  Every walk returns, for every environment and every finite map:
    [walk_fuel] nested activations are enough, a number fixed by the length
    of the longest path of a directory, or of a bucket, below the source.
    When the destination root exists and the listing of a directory is a
    permutation of its entries, the nesting of the activations is bounded by
    the number of directory levels of the tree below the source:
    [copy_and_sort] returns with fuel [1 + depth_below]. *)
Theorem recursion_depth_bounded_by_tree_depth E src dst w :
  (forall m, walk_fuel (w_fs w) src dst <= m ->
     exists w', copy_and_sort m E src dst w = Some w') /\
  ((forall p l, list_order E p l ≡ₚ l) ->
   dst_ready dst (w_fs w) = true ->
   forall m, S (depth_below (w_fs w) src) <= m ->
     exists w', copy_and_sort m E src dst w = Some w').
Proof.
  split; [intros m; apply copy_and_sort_total|].
  intros Horder Hready m Hm.
  destruct (copy_and_sort_total_depth E dst (w_fs w) Horder
              (depth_below (w_fs w) src) src w) as [w' Hw']; [|done|done|].
  - split; [intros r; by apply dst_ready_spec | auto].
  - exists w'. by eapply copy_and_sort_fuel_mono.
Qed.

(** [/s] has two directory levels below it ([dist/txt]): three activations
    are enough. *)
Lemma recursion_depth_bounded_by_tree_depth_witness :
  (forall m, 3 <= m ->
     exists w', copy_and_sort m Examples.plain_env ["s"] ["s"; "dist"]
                  (Examples.start Examples.nested) = Some w') /\
  ((forall p l, list_order Examples.plain_env p l ≡ₚ l) ->
   dst_ready ["s"; "dist"] Examples.nested = true ->
   forall m, 3 <= m ->
     exists w', copy_and_sort m Examples.plain_env ["s"] ["s"; "dist"]
                  (Examples.start Examples.nested) = Some w').
Proof.
  exact (recursion_depth_bounded_by_tree_depth Examples.plain_env
           ["s"] ["s"; "dist"] (Examples.start Examples.nested)).
Defined.

(** The second bound needs the destination root to exist when the walk
    starts, as it does after [main] has created it: called on a destination
    [/s/a/b/c] of which only [/s/a] exists, the walk of [/s] first moves
    [f.txt], which creates [/s/a/b] and [/s/a/b/c], and then descends through
    [a] into the new [b], one level deeper than the tree had. *)
Example missing_destination_deepens_the_walk :
  depth_below Examples.shallow ["s"] = 1 /\
  copy_and_sort 2 Examples.plain_env ["s"] ["s"; "a"; "b"; "c"]
    (Examples.start Examples.shallow) = None /\
  (exists w',
     copy_and_sort 3 Examples.plain_env ["s"] ["s"; "a"; "b"; "c"]
       (Examples.start Examples.shallow) = Some w' /\
     w_calls w' =
       [ Enter ["s"];
         Move ["s"; "f.txt"] ["s"; "a"; "b"; "c"; "txt"; "f.txt"];
         Enter ["s"; "a"]; Enter ["s"; "a"; "b"] ]).
Proof.
  split; [reflexivity|]. split; [reflexivity|].
  eexists. split; reflexivity.
Qed.

(** ** C8: the bucket of a file that could not be moved *)



(** ** C9: a bucket that cannot be created *)

(** C9.  When the bucket of a file cannot be created, the exception leaves
    the loop: the walk of the directory ends there, whatever entries remain,
    and the line printed names the directory being walked, not the file. *)
Theorem bucket_creation_failure_ends_directory
    E n src dst w pre item rest wp fs1 e :
  iterdir E (w_fs w) src = Ok (pre ++ item :: rest) ->
  for_items (fun item => copy_and_sort n E item dst) E dst pre
    (record (Enter src) w) = Some (Ok tt, wp) ->
  is_file (w_fs wp) item = true ->
  mkdir E (dst ++ [Names.bucket_name (name item)]) (w_fs wp) = (fs1, Err e) ->
  copy_and_sort (S n) E src dst w
    = Some (print (AccessError src e) (set_fs fs1 wp)).
Proof.
  intros Hit Hpre Hf Hmk. rewrite copy_and_sort_S, Hit.
  assert (loop_body (fun item => copy_and_sort n E item dst) E dst item wp
          = Some (Err e, set_fs fs1 wp)) as Hbody.
  { unfold loop_body. rewrite Hf.
    assert (is_dir (w_fs wp) item = false) as ->.
    { apply is_file_Some in Hf as [c Hc]. unfold is_dir. by rewrite Hc. }
    by rewrite Hmk. }
  by rewrite (for_items_snoc_body _ _ _ _ _ _ _ _ _ _ Hpre Hbody).
Qed.

(** [/out/md] cannot be created: after [a.txt], the walk of [/s] ends at
    [b.md]; [sub] is not entered. *)
Lemma bucket_creation_failure_ends_directory_witness :
  let E := Examples.faulty_env [] [["out"; "md"]] [] in
  let w := Examples.start Examples.small in
  let wp :=
    World (<[ ["out"; "txt"; "a.txt"] := File "1" ]>
             (delete ["s"; "a.txt"] (<[ ["out"; "txt"] := Dir ]> Examples.small)))
          [] [Enter ["s"]; Move ["s"; "a.txt"] ["out"; "txt"; "a.txt"]] in
  copy_and_sort 2 E ["s"] ["out"] w
    = Some (print (AccessError ["s"] PermissionError) (set_fs (w_fs wp) wp)).
Proof.
  apply (bucket_creation_failure_ends_directory
           (Examples.faulty_env [] [["out"; "md"]] []) 1 ["s"] ["out"]
           (Examples.start Examples.small)
           [["s"; "a.txt"]] ["s"; "b.md"] [["s"; "sub"]]).
  - reflexivity.
  - reflexivity.
  - reflexivity.
  - reflexivity.
Defined.

(** ** C10: a source that is the destination root *)

(** C10.  The comparison with the destination root is made for entries only:
    a run whose resolved source equals its resolved destination enters the
    destination root itself (the first call it records), and in a calm run
    over a sortable map [fs1] (the map once [main] has made sure of the
    destination root) every regular file reached through directories, an
    entry of the root ([rel] empty) or nested ([rel] not empty), ends at its
    target beneath the root and leaves its original path, unless that path
    is the target; it keeps its content when no other regular file below the
    root has its name. *)
Theorem source_equal_to_destination_is_walked
    E source destination w fs1 rel file m :
  let src := resolve E source in
  let dst := resolve E destination in
  calm E ->
  src = dst ->
  mkdir E dst (w_fs w) = (fs1, Ok tt) ->
  sortable src dst fs1 = true ->
  chain_dirs src rel (w_fs w) = true ->
  is_file (w_fs w) (src ++ rel ++ [file]) = true ->
  walk_fuel fs1 src dst <= m ->
  exists w' tr, main m E source destination w = Some w' /\
    w_calls w' = w_calls w ++ Enter dst :: tr /\
    is_file (w_fs w') (dst ++ [Names.bucket_name file; file]) = true /\
    (src ++ rel ++ [file] <> dst ++ [Names.bucket_name file; file] ->
     w_fs w' !! (src ++ rel ++ [file]) = None) /\
    (unique_name src file (src ++ rel ++ [file]) (w_fs w) = true ->
     w_fs w' !! (dst ++ [Names.bucket_name file; file])
     = w_fs w !! (src ++ rel ++ [file])).
Proof.
  intros src dst HE Heq Hmk Hsort Hchain Hf Hm.
  destruct (main_file_sorted E source destination w fs1 rel file m)
    as (w' & tr & Hrun & Htr & Ht & Hgone & Hkept); try done.
  { intros j Hj Hjeq. fold src in Hjeq. fold dst in Hjeq.
    rewrite <- Heq in Hjeq.
    apply (f_equal length) in Hjeq. rewrite length_app, length_take in Hjeq.
    lia. }
  fold src in Htr, Ht, Hgone, Hkept. fold dst in Ht, Hgone, Hkept.
  assert (name (src ++ rel ++ [file]) = file) as Hname
    by (by rewrite app_assoc, name_child).
  assert (target_of dst (src ++ rel ++ [file])
          = dst ++ [Names.bucket_name file; file]) as Htgt
    by (unfold target_of; by rewrite Hname).
  rewrite Htgt in Ht, Hgone, Hkept.
  exists w', tr. split; [done|]. split; [by rewrite Htr, Heq|]. done.
Qed.

(** A run on [/d] with destination [/d]: [sub/b.md] goes to [md/b.md]. *)
Lemma source_equal_to_destination_is_walked_witness :
  exists w' tr,
    main 2 Examples.plain_env ["d"] ["d"] (Examples.start Examples.flat)
      = Some w' /\
    w_calls w' = [] ++ Enter ["d"] :: tr /\
    is_file (w_fs w') ["d"; "md"; "b.md"] = true /\
    (["d"; "sub"; "b.md"] <> ["d"; "md"; "b.md"] ->
     w_fs w' !! ["d"; "sub"; "b.md"] = None) /\
    (unique_name ["d"] "b.md" ["d"; "sub"; "b.md"] Examples.flat = true ->
     w_fs w' !! ["d"; "md"; "b.md"] = Examples.flat !! ["d"; "sub"; "b.md"]).
Proof.
  apply (source_equal_to_destination_is_walked Examples.plain_env ["d"] ["d"]
           (Examples.start Examples.flat) Examples.flat ["sub"] "b.md" 2).
  - exact plain_env_calm.
  - reflexivity.
  - reflexivity.
  - reflexivity.
  - reflexivity.
  - reflexivity.
  - vm_compute; lia.
Defined.

(** * Further properties of the code *)

(** ** X1: the shape of a bucket name *)

(** X1.  Whatever the file name, the bucket name computed at lines 44-46 is
    not empty, holds no dot and is in lower case.  So [dst_root / ext] is
    always an entry of [dst_root] itself: never [dst_root] (an empty [ext]),
    never [.] or [..]. *)
Theorem bucket_name_is_a_plain_lowercase_name n :
  Names.bucket_name n <> "" /\
  Names.has_char "." (Names.bucket_name n) = false /\
  Names.lower (Names.bucket_name n) = Names.bucket_name n.
Proof.
  destruct (bucket_name_cases n) as [->|(rest & _ & Hne & Hno & ->)];
    [done|].
  split; [by apply SuffixFacts.lower_not_empty|].
  split; [by apply NamesFacts.lower_no_dot | apply SuffixFacts.lower_idem].
Qed.

(** ** X2: letter case *)

(** X2.  Two file names that differ only in the case of their letters get
    the same bucket: the extension is compared after [str.lower]. *)
Theorem bucket_name_ignores_case n1 n2 :
  Names.lower n1 = Names.lower n2 ->
  Names.bucket_name n1 = Names.bucket_name n2.
Proof.
  assert (forall n, Names.bucket_name (Names.lower n) = Names.bucket_name n)
    as Hl.
  { intros n. unfold Names.bucket_name.
    by rewrite SuffixFacts.suffix_lower, SuffixFacts.lower_idem. }
  intros Heq. by rewrite <- (Hl n1), <- (Hl n2), Heq.
Qed.

(** [Photo.JPG] and [photo.jpg]. *)
Lemma bucket_name_ignores_case_witness :
  Names.bucket_name "Photo.JPG" = Names.bucket_name "photo.jpg".
Proof.
  apply (bucket_name_ignores_case "Photo.JPG" "photo.jpg"). reflexivity.
Defined.

(** ** X3: directories *)

(** X3.  A run of [main] removes no directory, whatever fails: every
    directory of the initial map is a directory of the final map, so the
    emptied tree of the source stays behind.  The directories it creates are
    the destination root, ancestors of it, and the buckets of regular files
    that were below the source. *)
Theorem directories_are_kept E source destination w m :
  let src := resolve E source in
  let dst := resolve E destination in
  walk_fuel (mkdir E dst (w_fs w)).1 src dst <= m ->
  exists w', main m E source destination w = Some w' /\
    (forall q, is_dir (w_fs w) q = true -> is_dir (w_fs w') q = true) /\
    (forall q, is_dir (w_fs w') q = true ->
       is_dir (w_fs w) q = true \/ q `prefix_of` dst \/
       exists s, below src s /\ is_file (w_fs w) s = true /\
         q = dst ++ [Names.bucket_name (name s)]).
Proof.
  intros src dst [w' Hrun]%main_total. exists w'. split; [done|].
  apply main_changes in Hrun as (fs1 & Hg & Hsteps). split.
  - intros q Hq. eapply steps_is_dir; [done|]. by eapply grows_is_dir.
  - intros q Hq.
    destruct (steps_dir_came_from _ _ fs1 _ _ Hsteps
                (fun q c H => or_introl H) (fun q H => or_introl H) q Hq)
      as [Hq1|[Hpre|(s & c & HR & Hs & ->)]].
    + apply is_dir_Some in Hq1.
      destruct (grows_lookup _ _ _ q Hg) as [Heq|(_ & _ & Hpre)].
      * left. apply is_dir_Some. congruence.
      * right. by left.
    + right. by left.
    + right. right. exists s. split; [by eapply walked_below|].
      split; [|done]. apply is_file_Some. exists c. by eapply grows_file.
Qed.

(** A run on [/s] with the nested destination [/s/dist]. *)
Lemma directories_are_kept_witness :
  exists w',
    main 3 Examples.plain_env ["s"] ["s"; "dist"]
      (Examples.start Examples.nested) = Some w' /\
    (forall q, is_dir Examples.nested q = true -> is_dir (w_fs w') q = true) /\
    (forall q, is_dir (w_fs w') q = true ->
       is_dir Examples.nested q = true \/ q `prefix_of` ["s"; "dist"] \/
       exists s, below ["s"] s /\ is_file Examples.nested s = true /\
         q = ["s"; "dist"] ++ [Names.bucket_name (name s)]).
Proof.
  apply (directories_are_kept Examples.plain_env ["s"] ["s"; "dist"]
           (Examples.start Examples.nested) 3).
  vm_compute. lia.
Defined.

(** ** X4: what a run leaves alone *)

(** X4.  Whatever fails, a run of [main] changes nothing outside the
    destination tree except regular files below the source: an entry [q] that
    is not under the destination root, and is not a regular file below the
    source, is in the final map what it was in the initial map, unless it
    was a missing ancestor of the destination root (or that root), which
    [main] created. *)
Theorem only_source_files_and_destination_change
    E source destination w m :
  let src := resolve E source in
  let dst := resolve E destination in
  walk_fuel (mkdir E dst (w_fs w)).1 src dst <= m ->
  exists w', main m E source destination w = Some w' /\
    forall q,
      is_below dst q = false ->
      is_file (w_fs w) q && is_below src q = false ->
      w_fs w' !! q = w_fs w !! q \/
      (w_fs w !! q = None /\ w_fs w' !! q = Some Dir /\ q `prefix_of` dst).
Proof.
  intros src dst [w' Hrun]%main_total. exists w'. split; [done|].
  apply main_changes in Hrun as (fs1 & Hg & Hsteps). intros q Hq Hf.
  assert (~ below dst q) as Hq' by (rewrite <- is_below_spec; congruence).
  destruct (steps_frame _ _ _ _ q Hsteps Hq') as [Heq|(Hnone & Hd & Hpre)].
  - intros c Hc%(grows_file _ _ _ _ _ Hg) Hw%walked_below.
    apply is_below_spec in Hw. fold src in Hw. rewrite Hw, andb_true_r in Hf.
    unfold is_file in Hf. by rewrite Hc in Hf.
  - rewrite Heq. apply (grows_lookup _ _ _ q Hg).
  - destruct (grows_lookup _ _ _ q Hg) as [Heq|(Hnone' & Hd' & _)].
    + right. by rewrite <- Heq.
    + congruence.
Qed.

(** A run on [/s] with the destination [/out/sorted], which [main]
    creates. *)
Lemma only_source_files_and_destination_change_witness :
  exists w',
    main 3 Examples.plain_env ["s"] ["out"; "sorted"]
      (Examples.start Examples.small) = Some w' /\
    forall q,
      is_below ["out"; "sorted"] q = false ->
      is_file Examples.small q && is_below ["s"] q = false ->
      w_fs w' !! q = Examples.small !! q \/
      (Examples.small !! q = None /\ w_fs w' !! q = Some Dir /\
       q `prefix_of` ["out"; "sorted"]).
Proof.
  apply (only_source_files_and_destination_change Examples.plain_env
           ["s"] ["out"; "sorted"] (Examples.start Examples.small) 3).
  vm_compute. lia.
Defined.

(** ** X5: names and contents *)



(** ** X6: a regular file at the target *)

(** X6.  Lines 48-56 make no check of the target.  In a calm environment,
    when the bucket exists and another regular file is at the target path,
    the loop body for [item] replaces that file: [item] is renamed onto the
    target, the older content [c0] is in the map no more, and nothing is
    printed. *)
Theorem file_at_target_is_replaced rec E dst item w c c0 :
  calm E -> is_dir (w_fs w) dst = true ->
  is_dir (w_fs w) (dst ++ [Names.bucket_name (name item)]) = true ->
  w_fs w !! item = Some (File c) ->
  w_fs w !! target_of dst item = Some (File c0) ->
  item <> target_of dst item ->
  loop_body rec E dst item w =
    Some (Ok tt,
          set_fs (<[target_of dst item := File c]> (delete item (w_fs w)))
            (record (Move item (target_of dst item)) w)).
Proof.
  intros HE Hdst Hb Hc Ht Hne.
  rewrite loop_body_file_bucket; [|done|done|done|by apply is_file_Some; eauto].
  simpl. unfold shutil_move. rewrite (calm_move E HE).
  assert (is_dir (w_fs w) (target_of dst item) = false) as Hnd
    by (unfold is_dir; by rewrite Ht).
  rewrite Hnd. unfold os_rename. rewrite Hc, parent_target_of.
  apply is_dir_Some in Hb. rewrite Hb, Hnd.
  by destruct (decide (item = target_of dst item)).
Qed.

(** [/s/a.txt] replaces the older [/out/txt/a.txt]. *)
Lemma file_at_target_is_replaced_witness :
  loop_body (fun _ _ => None) Examples.plain_env ["out"] ["s"; "a.txt"]
    (Examples.start Cases.taken) =
  Some (Ok tt,
        set_fs (<[target_of ["out"] ["s"; "a.txt"] := File "new"]>
                  (delete ["s"; "a.txt"] Cases.taken))
          (record (Move ["s"; "a.txt"] (target_of ["out"] ["s"; "a.txt"]))
             (Examples.start Cases.taken))).
Proof.
  apply (file_at_target_is_replaced (fun _ _ => None) Examples.plain_env
           ["out"] ["s"; "a.txt"] (Examples.start Cases.taken) "new" "old").
  - exact plain_env_calm.
  - reflexivity.
  - reflexivity.
  - reflexivity.
  - reflexivity.
  - discriminate.
Defined.

(** ** X7: a directory at the target *)

(** X7.  In a calm environment, when a directory is at the target path,
    [shutil.move] puts the file inside that directory, under its own name,
    one level deeper than [dst_root/ext/name]; when that name is taken there,
    it raises [shutil.Error], the line for [item] is printed and the map is
    unchanged. *)
Theorem directory_at_target_takes_file_inside rec E dst item w c :
  calm E -> is_dir (w_fs w) dst = true ->
  is_dir (w_fs w) (dst ++ [Names.bucket_name (name item)]) = true ->
  w_fs w !! item = Some (File c) ->
  is_dir (w_fs w) (target_of dst item) = true ->
  loop_body rec E dst item w =
    Some (Ok tt,
          if exists_ (w_fs w) (target_of dst item ++ [name item])
          then print (MoveError item ShutilError)
                 (record (Move item (target_of dst item)) w)
          else set_fs (<[target_of dst item ++ [name item] := File c]>
                         (delete item (w_fs w)))
                 (record (Move item (target_of dst item)) w)).
Proof.
  intros HE Hdst Hb Hc Ht.
  rewrite loop_body_file_bucket; [|done|done|done|by apply is_file_Some; eauto].
  simpl. unfold shutil_move. rewrite (calm_move E HE), Ht.
  destruct (exists_ (w_fs w) (target_of dst item ++ [name item])) eqn:Hex;
    [done|].
  unfold os_rename. rewrite Hc, parent_child.
  apply is_dir_Some in Ht. rewrite Ht.
  assert (w_fs w !! (target_of dst item ++ [name item]) = None) as Hnone
    by (unfold exists_ in Hex;
        by destruct (w_fs w !! (target_of dst item ++ [name item]))).
  unfold is_dir. rewrite Hnone.
  destruct (decide (item = target_of dst item ++ [name item])) as [Heq|];
    [|done].
  rewrite <- Heq in Hnone. congruence.
Qed.

(** [/out/txt/a.txt] is a directory: [/s/a.txt] ends at
    [/out/txt/a.txt/a.txt]. *)
Lemma directory_at_target_takes_file_inside_witness :
  loop_body (fun _ _ => None) Examples.plain_env ["out"] ["s"; "a.txt"]
    (Examples.start Examples.dir_target) =
  Some (Ok tt,
        if exists_ Examples.dir_target
             (target_of ["out"] ["s"; "a.txt"] ++ [name ["s"; "a.txt"]])
        then print (MoveError ["s"; "a.txt"] ShutilError)
               (record (Move ["s"; "a.txt"] (target_of ["out"] ["s"; "a.txt"]))
                  (Examples.start Examples.dir_target))
        else set_fs (<[target_of ["out"] ["s"; "a.txt"] ++ [name ["s"; "a.txt"]]
                        := File "1"]>
                       (delete ["s"; "a.txt"] Examples.dir_target))
               (record (Move ["s"; "a.txt"] (target_of ["out"] ["s"; "a.txt"]))
                  (Examples.start Examples.dir_target))).
Proof.
  apply (directory_at_target_takes_file_inside (fun _ _ => None)
           Examples.plain_env ["out"] ["s"; "a.txt"]
           (Examples.start Examples.dir_target) "1").
  - exact plain_env_calm.
  - reflexivity.
  - reflexivity.
  - reflexivity.
  - reflexivity.
Defined.

(** ** X8: two files of one name *)

(** X8.  Files of the same name in different directories of the source
    have one target.  In a calm run over a sortable map, when [rel1/nm] and
    [rel2/nm] are regular files reached through directories, outside the
    destination, the only files of that name below the source, and nothing
    is at their target: after the run both paths are empty and one regular file
    stands at the target, with the content of one of the two. *)
Theorem same_name_files_end_as_one
    E source destination w fs1 rel1 rel2 nm m :
  let src := resolve E source in
  let dst := resolve E destination in
  let q1 := src ++ rel1 ++ [nm] in
  let q2 := src ++ rel2 ++ [nm] in
  let target := dst ++ [Names.bucket_name nm; nm] in
  calm E ->
  mkdir E dst (w_fs w) = (fs1, Ok tt) ->
  sortable src dst fs1 = true ->
  chain_dirs src rel1 (w_fs w) = true ->
  chain_dirs src rel2 (w_fs w) = true ->
  is_file (w_fs w) q1 = true ->
  is_file (w_fs w) q2 = true ->
  is_prefix dst q1 = false ->
  is_prefix dst q2 = false ->
  name_held_by src nm [q1; q2] (w_fs w) = true ->
  exists_ (w_fs w) target = false ->
  walk_fuel fs1 src dst <= m ->
  exists w', main m E source destination w = Some w' /\
    w_fs w' !! q1 = None /\ w_fs w' !! q2 = None /\
    is_file (w_fs w') target = true /\
    (w_fs w' !! target = w_fs w !! q1 \/ w_fs w' !! target = w_fs w !! q2).
Proof.
  intros src dst q1 q2 target HE Hmk Hsort Hc1 Hc2 Hf1 Hf2 Ho1 Ho2 Hheld
    Hfree Hm.
  assert (forall rel, is_prefix dst (src ++ rel ++ [nm]) = false ->
            (forall j, 0 < j <= length rel -> src ++ take j rel <> dst) /\
            src ++ rel ++ [nm] <> target_of dst (src ++ rel ++ [nm])) as Hout.
  { intros rel Ho.
    assert (~ dst `prefix_of` src ++ rel ++ [nm]) as Ho'
      by (rewrite <- is_prefix_spec; congruence).
    split.
    - intros j Hj Heq. apply Ho'. rewrite <- Heq.
      exists (drop j rel ++ [nm]).
      by rewrite <- app_assoc, (app_assoc (take j rel)), take_drop.
    - intros Heq. apply Ho'. rewrite Heq. by eexists. }
  assert (forall rel, target_of dst (src ++ rel ++ [nm]) = target) as Htgt.
  { intros rel. unfold target_of. by rewrite app_assoc, name_child. }
  destruct (Hout rel1 Ho1) as [Ha1 Hn1]. destruct (Hout rel2 Ho2) as [Ha2 Hn2].
  destruct (main_file_sorted E source destination w fs1 rel1 nm m)
    as (w' & tr & Hrun & _ & Ht & Hgone1 & _); try done.
  destruct (main_file_sorted E source destination w fs1 rel2 nm m)
    as (w'' & tr' & Hrun' & _ & _ & Hgone2 & _); try done.
  rewrite Hrun in Hrun'. injection Hrun' as <-.
  fold src in Ht, Hgone1, Hgone2. fold dst in Ht, Hgone1, Hgone2.
  rewrite (Htgt rel1) in Ht.
  fold q1 in Hgone1. fold q2 in Hgone2.
  exists w'. split; [done|]. split; [by apply Hgone1|].
  split; [by apply Hgone2|]. split; [done|].
  apply is_file_Some in Ht as [c Hc].
  destruct (main_provenance E source destination w w' m target c
              Hrun Hc) as [Hold|(_ & s & Hs & Hsc & Hn)].
  - unfold exists_ in Hfree. by rewrite Hold in Hfree.
  - fold src in Hs.
    assert (s ∈ [q1; q2]) as Hin.
    { apply (name_held_by_spec src nm _ (w_fs w)); [done|done| |].
      - apply is_file_Some. eauto.
      - rewrite Hn. unfold target.
        change (dst ++ [Names.bucket_name nm; nm])
          with (dst ++ [Names.bucket_name nm] ++ [nm]).
        by rewrite app_assoc, name_child. }
    rewrite Hc, <- Hsc.
    apply elem_of_cons in Hin as [->|Hin]; [by left|].
    apply list_elem_of_singleton in Hin as ->. by right.
Qed.

(** [/s/a/x.txt] and [/s/b/x.txt]. *)
Lemma same_name_files_end_as_one_witness :
  exists w',
    main 2 Examples.plain_env ["s"] ["out"] (Examples.start Examples.twins)
      = Some w' /\
    w_fs w' !! (["s"] ++ ["a"] ++ ["x.txt"]) = None /\
    w_fs w' !! (["s"] ++ ["b"] ++ ["x.txt"]) = None /\
    is_file (w_fs w') (["out"] ++ [Names.bucket_name "x.txt"; "x.txt"])
      = true /\
    (w_fs w' !! (["out"] ++ [Names.bucket_name "x.txt"; "x.txt"])
       = Examples.twins !! (["s"] ++ ["a"] ++ ["x.txt"]) \/
     w_fs w' !! (["out"] ++ [Names.bucket_name "x.txt"; "x.txt"])
       = Examples.twins !! (["s"] ++ ["b"] ++ ["x.txt"])).
Proof.
  apply (same_name_files_end_as_one Examples.plain_env ["s"] ["out"]
           (Examples.start Examples.twins) Examples.twins
           ["a"] ["b"] "x.txt" 2).
  - exact plain_env_calm.
  - reflexivity.
  - reflexivity.
  - reflexivity.
  - reflexivity.
  - reflexivity.
  - reflexivity.
  - reflexivity.
  - reflexivity.
  - reflexivity.
  - reflexivity.
  - vm_compute; lia.
Defined.

(** ** X9: a run without diagnostics *)

(** X9.  When nothing fails and the map in which the walk starts is
    sortable, a run of [main] prints the completion notice and no other
    line. *)
Theorem calm_run_prints_only_completion E source destination w fs1 m :
  let src := resolve E source in
  let dst := resolve E destination in
  calm E ->
  is_dir (w_fs w) src = true ->
  mkdir E dst (w_fs w) = (fs1, Ok tt) ->
  sortable src dst fs1 = true ->
  walk_fuel fs1 src dst <= m ->
  exists w', main m E source destination w = Some w' /\
    w_out w' = w_out w ++ [Completed].
Proof.
  intros src dst HE Hsrc Hmk Hsort Hm.
  destruct (copy_and_sort_total E src dst (set_fs fs1 w) m Hm) as [w1 Hrun].
  exists (print Completed w1). split.
  - rewrite (main_runs_walk m E source destination w fs1 tt); [|done|done].
    fold src. fold dst. by rewrite Hrun.
  - simpl. f_equal.
    eapply (copy_and_sort_quiet E _ src dst HE m src (set_fs fs1 w) w1);
      [done|by apply sortable_layout| |done].
    simpl. eapply grows_is_dir; [by eapply mkdir_grows | done].
Qed.

(** A run on [/s] with the destination [/out]. *)
Lemma calm_run_prints_only_completion_witness :
  exists w',
    main 2 Examples.plain_env ["s"] ["out"] (Examples.start Examples.small)
      = Some w' /\
    w_out w' = [] ++ [Completed].
Proof.
  apply (calm_run_prints_only_completion Examples.plain_env ["s"] ["out"]
           (Examples.start Examples.small) Examples.small 2).
  - exact plain_env_calm.
  - reflexivity.
  - reflexivity.
  - reflexivity.
  - vm_compute; lia.
Defined.

(** ** X10: a destination that does not exist *)

(** X10.  Line 111.  In a calm environment, when the resolved destination is
    [base/rest], [base] and its ancestors are directories and nothing is at
    [base/rest1], [base/rest1/rest2], ...: [mkdir] succeeds, makes every one
    of these paths a directory and changes no other entry, and [main] goes
    on with the walk and ends with the completion notice. *)
Theorem main_creates_missing_destination
    E source destination w base rest m :
  let src := resolve E source in
  let dst := resolve E destination in
  calm E ->
  is_dir (w_fs w) src = true ->
  dst = base ++ rest ->
  dst_ready base (w_fs w) = true ->
  absent_below base rest (w_fs w) = true ->
  walk_fuel (mkdir E dst (w_fs w)).1 src dst <= m ->
  exists fs1 w1,
    mkdir E dst (w_fs w) = (fs1, Ok tt) /\
    dst_ready dst fs1 = true /\
    (forall q, fs1 !! q =
               if bool_decide (q `prefix_of` dst) then Some Dir
               else w_fs w !! q) /\
    copy_and_sort m E src dst (set_fs fs1 w) = Some w1 /\
    main m E source destination w = Some (print Completed w1).
Proof.
  intros src dst HE Hsrc Hdst Hready Habs Hm.
  destruct (mkdir_parents_chain E base HE rest (length dst) (w_fs w))
    as (fs1 & Hmk & Hdirs & Hsame).
  { rewrite Hdst, length_app. lia. }
  { intros r. by apply dst_ready_spec. }
  { intros k. by apply absent_below_spec. }
  rewrite <- Hdst in Hmk, Hdirs, Hsame. fold (mkdir E dst (w_fs w)) in Hmk.
  rewrite Hmk in Hm. simpl in Hm.
  destruct (copy_and_sort_total E src dst (set_fs fs1 w) m Hm) as [w1 Hrun].
  exists fs1, w1. split; [done|]. split; [|split; [|split; [done|]]].
  - unfold dst_ready. apply forallb_forall. intros j _.
    apply Hdirs. exists (drop j dst). by rewrite take_drop.
  - intros q. destruct (bool_decide_reflect (q `prefix_of` dst)) as [Hq|Hq].
    + by apply is_dir_Some, Hdirs.
    + apply Hsame. by right.
  - rewrite (main_runs_walk m E source destination w fs1 tt); [|done|done].
    fold src. fold dst. by rewrite Hrun.
Qed.

(** The destination [/out/a/b], of which only [/out] exists. *)
Lemma main_creates_missing_destination_witness :
  exists fs1 w1,
    mkdir Examples.plain_env ["out"; "a"; "b"] Examples.small
      = (fs1, Ok tt) /\
    dst_ready ["out"; "a"; "b"] fs1 = true /\
    (forall q, fs1 !! q =
               if bool_decide (q `prefix_of` ["out"; "a"; "b"]) then Some Dir
               else Examples.small !! q) /\
    copy_and_sort 4 Examples.plain_env ["s"] ["out"; "a"; "b"]
      (set_fs fs1 (Examples.start Examples.small)) = Some w1 /\
    main 4 Examples.plain_env ["s"] ["out"; "a"; "b"]
      (Examples.start Examples.small) = Some (print Completed w1).
Proof.
  apply (main_creates_missing_destination Examples.plain_env
           ["s"] ["out"; "a"; "b"] (Examples.start Examples.small)
           ["out"] ["a"; "b"] 4).
  - exact plain_env_calm.
  - reflexivity.
  - reflexivity.
  - reflexivity.
  - reflexivity.
  - vm_compute; lia.
Defined.

(** ** X11: a tree that is sorted already *)

(** X11.  When every regular file below [src] is in place (it is its own
    target, under directories that exist) or is shielded by the destination
    root nested in [src], the walk changes nothing in the map, whatever the
    environment: in particular a tree without regular files is left as it
    is. *)
Theorem settled_tree_is_left_alone E src dst w m :
  settled src dst (w_fs w) = true ->
  walk_fuel (w_fs w) src dst <= m ->
  exists w', copy_and_sort m E src dst w = Some w' /\ w_fs w' = w_fs w.
Proof.
  intros Hset [w' Hrun]%(copy_and_sort_total E). exists w'. split; [done|].
  eapply in_place_steps; [|exact (copy_and_sort_steps _ _ _ _ _ _ Hrun)].
  intros s. by apply settled_in_place.
Qed.

(** [/d] sorted into itself, in an environment where listing [/d/empty] and
    moving [/d/txt/a.txt] fail. *)
Lemma settled_tree_is_left_alone_witness :
  exists w',
    copy_and_sort 2
      (Examples.faulty_env [["d"; "empty"]] [] [["d"; "txt"; "a.txt"]])
      ["d"] ["d"] (Examples.start Cases.sorted_tree) = Some w' /\
    w_fs w' = Cases.sorted_tree.
Proof.
  apply (settled_tree_is_left_alone
           (Examples.faulty_env [["d"; "empty"]] [] [["d"; "txt"; "a.txt"]])
           ["d"] ["d"] (Examples.start Cases.sorted_tree) 2).
  - reflexivity.
  - vm_compute; lia.
Defined.

(** ** X12: running [main] again *)

(** X12.  After a calm run over a sortable map in which every regular file
    below the source is reached through directories, a second run of [main]
    with the same arguments returns, leaves the map as the first run left it
    and prints the completion notice only. *)
Theorem second_run_changes_nothing E source destination w fs1 m :
  let src := resolve E source in
  let dst := resolve E destination in
  calm E ->
  is_dir (w_fs w) src = true ->
  mkdir E dst (w_fs w) = (fs1, Ok tt) ->
  sortable src dst fs1 = true ->
  reachable src fs1 = true ->
  walk_fuel fs1 src dst <= m ->
  exists w1, main m E source destination w = Some w1 /\
    forall m', walk_fuel (w_fs w1) src dst <= m' ->
      exists w2, main m' E source destination w1 = Some w2 /\
        w_fs w2 = w_fs w1 /\ w_out w2 = w_out w1 ++ [Completed].
Proof.
  intros src dst HE Hsrc Hmk Hsort Hreach Hm.
  destruct (copy_and_sort_total E src dst (set_fs fs1 w) m Hm) as [w1 Hrun].
  pose proof (copy_and_sort_steps _ _ _ _ _ _ Hrun) as Hsteps.
  pose proof (sortable_layout _ _ _ Hsort) as Hlay.
  eapply (layout_steps _ src dst) in Hlay; [|apply walked_below|exact Hsteps].
  exists (print Completed w1). split.
  { rewrite (main_runs_walk m E source destination w fs1 tt); [|done|done].
    fold src. fold dst. by rewrite Hrun. }
  simpl. intros m' Hm'.
  assert (is_dir (w_fs w1) src = true) as Hsrc1.
  { eapply steps_is_dir; [exact Hsteps|]. simpl.
    eapply grows_is_dir; [by eapply mkdir_grows | done]. }
  assert (mkdir E dst (w_fs w1) = (w_fs w1, Ok tt)) as Hmk1.
  { apply mkdir_ready; [done | apply Hlay]. }
  destruct (copy_and_sort_total E src dst (print Completed w1) m' Hm')
    as [w2 Hrun2].
  assert (w_fs w2 = w_fs w1) as Hfs.
  { eapply (in_place_steps dst (walked dst src));
      [|exact (copy_and_sort_steps _ _ _ _ _ _ Hrun2)].
    simpl. intros s.
    by apply (walk_settles E src dst (set_fs fs1 w) w1 m). }
  exists (print Completed w2). split; [|split].
  - rewrite (main_runs_walk m' E source destination _ (w_fs w1) tt);
      [|done|done].
    fold src. fold dst.
    replace (set_fs (w_fs w1) (print Completed w1)) with (print Completed w1)
      by done.
    by rewrite Hrun2.
  - done.
  - simpl. f_equal.
    by eapply (copy_and_sort_quiet E _ src dst HE m' src
                 (print Completed w1) w2).
Qed.

(** Two runs on [/s] with the destination [/out]. *)
Lemma second_run_changes_nothing_witness :
  exists w1,
    main 2 Examples.plain_env ["s"] ["out"] (Examples.start Examples.small)
      = Some w1 /\
    forall m', walk_fuel (w_fs w1) ["s"] ["out"] <= m' ->
      exists w2, main m' Examples.plain_env ["s"] ["out"] w1 = Some w2 /\
        w_fs w2 = w_fs w1 /\ w_out w2 = w_out w1 ++ [Completed].
Proof.
  apply (second_run_changes_nothing Examples.plain_env ["s"] ["out"]
           (Examples.start Examples.small) Examples.small 2).
  - exact plain_env_calm.
  - reflexivity.
  - reflexivity.
  - reflexivity.
  - reflexivity.
  - vm_compute; lia.
Defined.

(** ** X13: every change has a file behind it *)



(** ** X14: the order of the entries *)

(** X14.  [Path.iterdir] yields the entries in arbitrary order.  Over a
    sortable, well-formed map in which no two regular files below the source
    have the same name, the final map of a calm walk does not depend on it:
    two calm environments, whatever their listing orders, lead to the same
    map. *)
Theorem listing_order_does_not_matter E1 E2 src dst w m1 m2 :
  calm E1 -> calm E2 ->
  sortable src dst (w_fs w) = true ->
  well_formed (w_fs w) = true ->
  distinct_names src (w_fs w) = true ->
  walk_fuel (w_fs w) src dst <= m1 ->
  walk_fuel (w_fs w) src dst <= m2 ->
  exists w1 w2,
    copy_and_sort m1 E1 src dst w = Some w1 /\
    copy_and_sort m2 E2 src dst w = Some w2 /\
    w_fs w1 = w_fs w2.
Proof.
  intros HE1 HE2 Hsort Hwf Hdist [w1 Hrun1]%(copy_and_sort_total E1)
    [w2 Hrun2]%(copy_and_sort_total E2).
  exists w1, w2. split; [done|]. split; [done|].
  pose proof (sortable_layout _ _ _ Hsort) as Hlay.
  apply (explained_complete_eq dst (walked dst src) (w_fs w)).
  - eapply explained_steps;
      [apply walked_below|exact (copy_and_sort_steps _ _ _ _ _ _ Hrun1)
      |exact Hlay|by left].
  - exact (walk_complete E1 src dst w w1 m1 HE1 Hsort Hwf Hdist Hrun1).
  - eapply explained_steps;
      [apply walked_below|exact (copy_and_sort_steps _ _ _ _ _ _ Hrun2)
      |exact Hlay|by left].
  - exact (walk_complete E2 src dst w w2 m2 HE2 Hsort Hwf Hdist Hrun2).
Qed.

(** A walk of [/s] with the entries in the order of the map, and one with
    the entries in the opposite order. *)
Lemma listing_order_does_not_matter_witness :
  exists w1 w2,
    copy_and_sort 2 Examples.plain_env ["s"] ["out"]
      (Examples.start Examples.small) = Some w1 /\
    copy_and_sort 2 Cases.reversed_env ["s"] ["out"]
      (Examples.start Examples.small) = Some w2 /\
    w_fs w1 = w_fs w2.
Proof.
  apply (listing_order_does_not_matter Examples.plain_env Cases.reversed_env
           ["s"] ["out"] (Examples.start Examples.small) 2 2).
  - exact plain_env_calm.
  - exact reversed_env_calm.
  - reflexivity.
  - reflexivity.
  - reflexivity.
  - vm_compute; lia.
  - vm_compute; lia.
Defined.

(** The two walks do not make their calls in the same order. *)
Example reversed_order_run :
  exists w1 w2,
    copy_and_sort 2 Examples.plain_env ["s"] ["out"]
      (Examples.start Examples.small) = Some w1 /\
    copy_and_sort 2 Cases.reversed_env ["s"] ["out"]
      (Examples.start Examples.small) = Some w2 /\
    w_calls w1 <> w_calls w2.
Proof. do 2 eexists. split; [reflexivity|]. split; [reflexivity|]. discriminate. Qed.
